(** * Kunda-Zip: the container codec, the path-prefix analysis and the
      preset layer of [kunda_zip.c], embedded and verified.

    The embedding follows the C source function by function.  A byte is an
    [ascii] (exactly eight bits); a C integer is a [Z] whose conversion to
    its width is written out ([to_uint16], [to_uint32]); a pointer into a
    buffer is the buffer together with an offset.  The C source checks no
    offset, so every read of the model says whether it stays inside the
    buffer: a read that does not is undefined behaviour in C and is the
    outcome [Undefined] here.  The LZMA codec and the file system are
    outside the source: the decoder and the answers of [fopen] are
    parameters of [extract_archive], and the files that extraction writes
    are returned as a list; the calls of [mkdir] and [fopen] made for each
    record are those of [write_file]. *)

From Stdlib Require Import Ascii String.
From Stdlib Require Import ZArith List Lia Bool Permutation Sorted.
Import ListNotations.

Local Open Scope Z_scope.

(* ================================================================== *)
(** * Part I: the program                                              *)
(* ================================================================== *)

(** ** Bytes and C strings *)

Definition byte := ascii.

Definition Z_of_byte (b : byte) : Z := Z.of_N (N_of_ascii b).

(** Storing an integer into a [uint8_t] keeps its low eight bits. *)
Definition byte_of_Z (z : Z) : byte := ascii_of_N (Z.to_N (z mod 256)).

Definition NUL : byte := zero.

(** A string literal of the source as bytes. *)
Definition lit (s : string) : list byte := list_ascii_of_string s.

(** What a [char *] denotes: the bytes before the first NUL. *)
Fixpoint cstr (s : list byte) : list byte :=
  match s with
  | [] => []
  | c :: r => if Ascii.eqb c NUL then [] else c :: cstr r
  end.

Definition strlen (s : list byte) : Z := Z.of_nat (length (cstr s)).

(** [strcmp(a, b) == 0]. *)
Fixpoint bytes_eqb (a b : list byte) : bool :=
  match a, b with
  | [], [] => true
  | x :: a', y :: b' => Ascii.eqb x y && bytes_eqb a' b'
  | _, _ => false
  end.

Definition strcmp_eq (a b : list byte) : bool := bytes_eqb (cstr a) (cstr b).

(** [strncmp(s, p, n) == 0] for a literal [p] of exactly [n] bytes:
    [s] starts with [p]. *)
Fixpoint starts_with (p s : list byte) : bool :=
  match p, s with
  | [], _ => true
  | x :: p', y :: s' => Ascii.eqb x y && starts_with p' s'
  | _ :: _, [] => false
  end.

(** [strchr(s, c)]: the suffix of [s] that begins at the first [c]. *)
Fixpoint strchr (s : list byte) (c : byte) : option (list byte) :=
  match s with
  | [] => None
  | x :: r => if Ascii.eqb x c then Some s else strchr r c
  end.

Definition isspace (c : byte) : bool :=
  let n := Z_of_byte c in (n =? 32) || ((9 <=? n) && (n <=? 13)).

Definition isdigit (c : byte) : bool :=
  let n := Z_of_byte c in (48 <=? n) && (n <=? 57).

Fixpoint skip_spaces (s : list byte) : list byte :=
  match s with
  | c :: r => if isspace c then skip_spaces r else s
  | [] => []
  end.

Fixpoint atoi_digits (acc : Z) (s : list byte) : Z :=
  match s with
  | c :: r => if isdigit c then atoi_digits (acc * 10 + (Z_of_byte c - 48)) r
              else acc
  | [] => acc
  end.

(** [strtol (s, NULL, 10)]: white space, an optional sign, then decimal
    digits up to the first byte that is not one; a value outside [long]
    (64 bits) is replaced by [LONG_MIN] or [LONG_MAX]. *)
Definition strtol (s : list byte) : Z :=
  let value :=
    match skip_spaces s with
    | c :: r =>
        if Ascii.eqb c "-"%char then - atoi_digits 0 r
        else if Ascii.eqb c "+"%char then atoi_digits 0 r
        else atoi_digits 0 (c :: r)
    | [] => 0
    end in
  Z.max (- 2 ^ 63) (Z.min (2 ^ 63 - 1) value).

(** The conversion to [int]: the low 32 bits, read in two's complement. *)
Definition to_int (v : Z) : Z := (v + 2 ^ 31) mod 2 ^ 32 - 2 ^ 31.

(** [atoi].  C leaves [atoi] undefined when the number does not fit an
    [int]; the model follows the C library, where [atoi (s)] is
    [(int) strtol (s, NULL, 10)], so that a number outside [int] comes back
    reduced to 32 bits. *)
Definition atoi (s : list byte) : Z := to_int (strtol s).

(** ** Constants of the source *)

Definition KUNDA_MAGIC : list byte := lit "KUNDA" ++ [NUL; NUL; NUL].
Definition KUNDA_VERSION : Z := 2.
Definition COMP_LZMA_ULTRA : Z := 3.
Definition FLAG_ENCRYPTED : Z := 1.
Definition FLAG_CHECKSUMMED : Z := 2.
Definition FLAG_PATH_COMPRESSED : Z := 4.
Definition MAX_PATH_LEN : Z := 4096.
Definition MAX_PREFIXES : Z := 1000.
Definition MiB : Z := 1024 * 1024.

(** ** Big-endian integers *)

Definition to_uint16 (v : Z) : Z := v mod 2 ^ 16.
Definition to_uint32 (v : Z) : Z := v mod 2 ^ 32.

Definition write_uint16_be (val : Z) : list byte :=
  [ byte_of_Z (Z.land (Z.shiftr val 8) 255);
    byte_of_Z (Z.land val 255) ].

Definition write_uint32_be (val : Z) : list byte :=
  [ byte_of_Z (Z.land (Z.shiftr val 24) 255);
    byte_of_Z (Z.land (Z.shiftr val 16) 255);
    byte_of_Z (Z.land (Z.shiftr val 8) 255);
    byte_of_Z (Z.land val 255) ].

(** The argument is what the pointer [buf] points at: the buffer from
    there on.  [None] when [buf[0..1]] is not all inside it. *)
Definition read_uint16_be (buf : list byte) : option Z :=
  match buf with
  | b0 :: b1 :: _ => Some (Z.lor (Z.shiftl (Z_of_byte b0) 8) (Z_of_byte b1))
  | _ => None
  end.

Definition read_uint32_be (buf : list byte) : option Z :=
  match buf with
  | b0 :: b1 :: b2 :: b3 :: _ =>
      Some (Z.lor (Z.lor (Z.lor (Z.shiftl (Z_of_byte b0) 24)
                                (Z.shiftl (Z_of_byte b1) 16))
                         (Z.shiftl (Z_of_byte b2) 8))
                  (Z_of_byte b3))
  | _ => None
  end.

(** ** The archive under construction *)

Record FileEntry := mkFileEntry {
  path : list byte;          (* char path[MAX_PATH_LEN], as a C string *)
  content : list byte;       (* uint8_t *content *)
  size : Z;                  (* size_t size *)
  is_duplicate : bool;
  duplicate_of : list byte   (* char duplicate_of[MAX_PATH_LEN] *)
}.

Record PathPrefix := mkPathPrefix {
  prefix : list byte;        (* char prefix[MAX_PATH_LEN], as a C string *)
  count : Z
}.

(** [count] and [prefix_count] of the C struct are the lengths of the two
    lists. *)
Record Archive := mkArchive {
  files : list FileEntry;
  prefixes : list PathPrefix
}.

Definition archive_create : Archive := mkArchive [] [].

(** [strncpy(dst, src, n)] followed by [dst[n] = 0], read back as a string. *)
Definition strncpy (src : list byte) (n : Z) : list byte :=
  firstn (Z.to_nat n) (cstr src).

(** The file-type tag, used for reporting only, is left out. *)
Definition archive_add_file (archive : Archive) (p c : list byte) (sz : Z)
  : Archive :=
  mkArchive
    (files archive ++
       [mkFileEntry (strncpy p (MAX_PATH_LEN - 1)) c sz false []])
    (prefixes archive).

(** What the directory scan hands over: one [archive_add_file] per regular
    file, with the file's bytes and their number. *)
Definition scan (inputs : list (list byte * list byte)) : Archive :=
  fold_left
    (fun a pc => archive_add_file a (fst pc) (snd pc)
                   (Z.of_nat (length (snd pc))))
    inputs archive_create.

(** ** Path-prefix analysis: [compress_paths] *)

(** The offsets [slash - path] of the successive [strchr] results. *)
Fixpoint slash_offsets (s : list byte) (i : nat) : list nat :=
  match s with
  | [] => []
  | c :: r =>
      if Ascii.eqb c "/"%char then i :: slash_offsets r (S i)
      else slash_offsets r (S i)
  end.

(** [strncpy(prefix, path, prefix_len); prefix[prefix_len] = 0] for each
    slash, left to right, with [prefix_len = slash - path + 1]. *)
Definition directory_prefixes (p : list byte) : list (list byte) :=
  let path := cstr p in
  map (fun slash => firstn (slash + 1) path) (slash_offsets path 0).

(** The linear search [for j ... if strcmp(...) == 0 { found = j; break; }]. *)
Fixpoint find_prefix (table : list PathPrefix) (p : list byte) (j : nat)
  : option nat :=
  match table with
  | [] => None
  | e :: r => if strcmp_eq (prefix e) p then Some j else find_prefix r p (S j)
  end.

Fixpoint increment_at (table : list PathPrefix) (j : nat) : list PathPrefix :=
  match table, j with
  | [], _ => []
  | e :: r, O => mkPathPrefix (prefix e) (count e + 1) :: r
  | e :: r, S j' => e :: increment_at r j'
  end.

(** One pass of the body of the [while (slash != NULL)] loop.  The counter
    is an [int]; it is kept exact here, since it can pass [INT_MAX] only
    with more than 2^31 file entries. *)
Definition count_prefix (table : list PathPrefix) (p : list byte)
  : list PathPrefix :=
  match find_prefix table p 0 with
  | Some found => increment_at table found
  | None =>
      if Z.of_nat (length table) <? MAX_PREFIXES
      then table ++ [mkPathPrefix p 1]
      else table
  end.

Definition count_path (table : list PathPrefix) (p : list byte)
  : list PathPrefix :=
  fold_left count_prefix (directory_prefixes p) table.

(** The in-place compaction keeps the entries with [count >= 3], in order. *)
Definition filter_used (table : list PathPrefix) : list PathPrefix :=
  filter (fun e => 3 <=? count e) table.

Fixpoint set_nth {A} (l : list A) (i : nat) (x : A) : list A :=
  match l, i with
  | [], _ => []
  | _ :: r, O => x :: r
  | y :: r, S i' => y :: set_nth r i' x
  end.

(** Body of the inner loop of the sort: exchange entries [i] and [j] when
    entry [j] has the longer prefix. *)
Definition exchange_if_longer (i : nat) (table : list PathPrefix) (j : nat)
  : list PathPrefix :=
  match nth_error table i, nth_error table j with
  | Some ei, Some ej =>
      if strlen (prefix ej) >? strlen (prefix ei)
      then set_nth (set_nth table i ej) j ei
      else table
  | _, _ => table
  end.

(** [for (j = i + 1; j < prefix_count; j++)]. *)
Definition sort_inner (table : list PathPrefix) (i : nat) : list PathPrefix :=
  fold_left (exchange_if_longer i)
            (seq (i + 1) (length table - (i + 1))) table.

(** [for (i = 0; i < prefix_count; i++)]. *)
Definition sort_by_length (table : list PathPrefix) : list PathPrefix :=
  fold_left sort_inner (seq 0 (length table)) table.

Definition compress_paths (archive : Archive) : Archive :=
  if (length (files archive) <=? 1)%nat then archive
  else
    let counted := fold_left count_path (map path (files archive))
                             (prefixes archive) in
    mkArchive (files archive) (sort_by_length (filter_used counted)).

(** ** Dictionary size: [get_optimal_dict_size] *)

(** [while (rounded < dict_size) rounded <<= 1;] on a 64-bit [size_t].
    [None] if the loop is still running when the fuel is used up. *)
Fixpoint round_up_loop (fuel : nat) (rounded dict_size : Z) : option Z :=
  if rounded <? dict_size then
    match fuel with
    | O => None
    | S fuel' => round_up_loop fuel' (Z.shiftl rounded 1 mod 2 ^ 64) dict_size
    end
  else Some rounded.

Definition round_and_clamp (dict_size : Z) : option Z :=
  match round_up_loop 64 1 dict_size with
  | None => None
  | Some rounded =>
      let rounded :=
        if rounded >? dict_size then Z.shiftr rounded 1 else rounded in
      let dict_size := rounded in
      let dict_size := if dict_size <? 64 * MiB then 64 * MiB else dict_size in
      let dict_size :=
        if dict_size >? 1536 * MiB then 1536 * MiB else dict_size in
      Some dict_size
  end.

Definition get_optimal_dict_size : option Z := round_and_clamp (256 * MiB).

(** ** Preset resolution: [compress_lzma_ultra] *)

(** The names of [lzma.h] that the source uses. *)
Inductive lzma_match_finder := LZMA_MF_BT4.
Inductive lzma_check := LZMA_CHECK_CRC64.

(** [preset_level | LZMA_PRESET_EXTREME]. *)
Record lzma_preset := mkPreset { level : Z; extreme : bool }.

(** The [lzma_options_lzma] of the source: the options that
    [lzma_lzma_preset] derives from [opt_base], with the six fields the
    source then assigns. *)
Record lzma_options_lzma := mkOptions {
  opt_base : lzma_preset;
  opt_dict_size : Z;
  opt_lc : Z;
  opt_lp : Z;
  opt_pb : Z;
  opt_depth : Z;
  opt_mf : lzma_match_finder
}.

(** The encoder that is initialised: [lzma_stream_encoder] with the filter
    chain [LZMA2(opt)], or [lzma_easy_encoder], which receives the preset
    word alone. *)
Inductive encoder :=
| lzma_stream_encoder (opt : lzma_options_lzma) (check : lzma_check)
| lzma_easy_encoder (preset : lzma_preset) (check : lzma_check).

(** The first [if] chain: [(preset_level, dict_size)], [None] if
    [get_optimal_dict_size] does not return.  In the ["ultra-"] branch the
    product is an [int] stored into a [uint32_t]: its low 32 bits (a product
    beyond [int] is undefined in C). *)
Definition preset_parameters (preset : list byte) : option (Z * Z) :=
  if strcmp_eq preset (lit "ultra") then
    match get_optimal_dict_size with
    | Some d => Some (9, to_uint32 d)
    | None => None
    end
  else if starts_with (lit "ultra-") (cstr preset) then
    Some (9, to_uint32 (atoi (skipn 6 (cstr preset)) * 1024 * 1024))
  else if strcmp_eq preset (lit "max") then Some (9, 256 * MiB)
  else if strcmp_eq preset (lit "balanced") then Some (6, 128 * MiB)
  else (* fast *) Some (3, 64 * MiB).

(** The encoder [compress_lzma_ultra] initialises for a preset.  The call
    [lzma_lzma_preset] is taken to succeed, as it does for the three levels
    the source passes. *)
Definition compress_lzma_ultra_encoder (preset : list byte) : option encoder :=
  match preset_parameters preset with
  | None => None
  | Some (preset_level, dict_size) =>
      let opt := mkOptions (mkPreset preset_level true)
                           dict_size 3 0 2 273 LZMA_MF_BT4 in
      if starts_with (lit "ultra") (cstr preset)
      then Some (lzma_stream_encoder opt LZMA_CHECK_CRC64)
      else Some (lzma_easy_encoder (mkPreset preset_level true)
                                   LZMA_CHECK_CRC64)
  end.

(** ** Outcomes *)

(** The ways the program leaves defined behaviour. *)
Inductive undefined :=
| ReadPastEnd (offset n available : Z)
    (* [n] bytes read at [offset] of a buffer of [available] bytes *)
| WritePastEnd (needed capacity : Z)
    (* [needed] bytes written into a buffer of [capacity] bytes *)
| PathBufferOverflow (path_len : Z)
    (* [path[path_len] = 0] with [path_len >= MAX_PATH_LEN] *)
| PrefixIndexOutOfRange (prefix_idx num_prefixes : Z).
    (* [prefixes[prefix_idx]] outside the table *)

Inductive outcome (A : Type) :=
| Done (a : A)
| Undefined (u : undefined).
Arguments Done {A} a.
Arguments Undefined {A} u.

Definition bind {A B} (m : outcome A) (k : A -> outcome B) : outcome B :=
  match m with
  | Done a => k a
  | Undefined u => Undefined u
  end.

Notation "x <- m ;; k" := (bind m (fun x => k))
  (at level 61, m at next level, right associativity).
Notation "' p <- m ;; k" := (bind m (fun x => let p := x in k))
  (at level 61, p pattern, m at next level, right associativity).

(** ** Encoding the container: phase 3 of [create_archive] *)

Definition buffer_size (buf : list byte) : Z := Z.of_nat (length buf).

(** [memcpy(dst, src, n)]: the first [n] bytes of [src]. *)
Definition memcpy (src : list byte) (n : Z) : list byte :=
  firstn (Z.to_nat n) src.

Definition encode_prefix (p : PathPrefix) : list byte :=
  let prefix_len := strlen (prefix p) in
  write_uint16_be (to_uint16 prefix_len) ++ memcpy (prefix p) prefix_len.

Definition encode_file (file : FileEntry) : list byte :=
  let path_len := strlen (path file) in
  write_uint16_be (to_uint16 path_len) ++ memcpy (path file) path_len ++
  (if is_duplicate file then
     let dup_len := strlen (duplicate_of file) in
     write_uint32_be 4294967295 ++
     write_uint16_be (to_uint16 dup_len) ++
     memcpy (duplicate_of file) dup_len
   else
     write_uint32_be (to_uint32 (size file)) ++
     memcpy (content file) (size file)).

(** The bytes [binary_data[0 .. offset)] that phase 3 writes.  No width
    is checked on the way. *)
Definition binary_format (archive : Archive) : list byte :=
  write_uint16_be (to_uint16 (Z.of_nat (length (prefixes archive)))) ++
  concat (map encode_prefix (prefixes archive)) ++
  write_uint32_be (to_uint32 (Z.of_nat (length (files archive)))) ++
  concat (map encode_file (files archive)).

(** [total_size] as the statistics loop sums it (kept exact: it would
    wrap only beyond 2^64 bytes of content). *)
Definition total_size (fs : list FileEntry) : Z :=
  fold_left (fun total f => total + size f) fs 0.

(** [binary_capacity = total_size + archive->count * 1024]. *)
Definition binary_capacity (archive : Archive) : Z :=
  total_size (files archive) + Z.of_nat (length (files archive)) * 1024.

(** Phase 3: the container is written into a buffer of [binary_capacity]
    bytes, and no write is checked against that capacity. *)
Definition create_binary_format (archive : Archive) : outcome (list byte) :=
  let binary_data := binary_format archive in
  if buffer_size binary_data <=? binary_capacity archive
  then Done binary_data
  else Undefined (WritePastEnd (buffer_size binary_data)
                               (binary_capacity archive)).

(** ** Writing the archive file: phase 6 of [create_archive] *)

(** The bytes written to the output file: signature, version, method,
    flags, the two sizes, the digest when [checksum] is set, the compressed
    data.  [sha256_hash] is the array that [SHA256] filled. *)
Definition archive_file (checksum : bool) (original_size : Z)
  (sha256_hash compressed_data : list byte) : list byte :=
  let compressed_size := buffer_size compressed_data in
  let flags :=
    if checksum then Z.lor FLAG_PATH_COMPRESSED FLAG_CHECKSUMMED
    else FLAG_PATH_COMPRESSED in
  KUNDA_MAGIC ++
  [byte_of_Z KUNDA_VERSION; byte_of_Z COMP_LZMA_ULTRA; byte_of_Z flags] ++
  write_uint32_be (to_uint32 original_size) ++
  write_uint32_be (to_uint32 compressed_size) ++
  (if checksum then memcpy sha256_hash 32 else []) ++
  compressed_data.

(** ** The names that are stored: [scan_directory] and [create_archive] *)

(** [snprintf(full_path, MAX_PATH_LEN, "%s/%s", dir_path, entry->d_name)],
    read back as a string. *)
Definition full_path_of (dir_path d_name : list byte) : list byte :=
  firstn (Z.to_nat (MAX_PATH_LEN - 1))
         (cstr dir_path ++ lit "/" ++ cstr d_name).

(** [while ( *rel_path == '/') rel_path++;]. *)
Fixpoint skip_slashes (s : list byte) : list byte :=
  match s with
  | c :: r => if Ascii.eqb c "/"%char then skip_slashes r else s
  | [] => []
  end.

(** [rel_path]: [full_path + strlen(base_path)], then past the leading
    slashes; [None] when that pointer lies beyond the end of the string. *)
Definition rel_path (base_path full_path : list byte) : option (list byte) :=
  if strlen base_path <=? strlen full_path
  then Some (skip_slashes
               (skipn (Z.to_nat (strlen base_path)) (cstr full_path)))
  else None.

(** [strrchr(s, c)] on the characters of a string: the suffix that begins
    at the last [c]. *)
Fixpoint strrchr (s : list byte) (c : byte) : option (list byte) :=
  match s with
  | [] => None
  | x :: r =>
      match strrchr r c with
      | Some t => Some t
      | None => if Ascii.eqb x c then Some s else None
      end
  end.

(** "Get just the filename (no path)". *)
Definition filename (input_path : list byte) : list byte :=
  match strrchr (cstr input_path) "/"%char with
  | Some slash => skipn 1 slash (* Skip the '/' *)
  | None => cstr input_path
  end.

(** ** Writing a member: the end of the loop of [extract_archive] *)

(** The tokens that the calls [strtok(full_path, "/")] and
    [strtok(NULL, "/")] return on the string [s], in order: its maximal runs
    of characters other than a slash.  [token] holds the run being read. *)
Fixpoint strtok_tokens (s token : list byte) : list (list byte) :=
  match s with
  | [] => match token with [] => [] | _ :: _ => [token] end
  | c :: r =>
      if Ascii.eqb c "/"%char then
        match token with
        | [] => strtok_tokens r []
        | _ :: _ => token :: strtok_tokens r []
        end
      else strtok_tokens r (token ++ [c])
  end.

(** The string after those calls: [strtok] has overwritten with NUL every
    slash that ended a token.  [in_token] tells whether the character
    before belongs to a token. *)
Fixpoint strtok_overwrites (s : list byte) (in_token : bool) : list byte :=
  match s with
  | [] => []
  | c :: r =>
      if Ascii.eqb c "/"%char
      then (if in_token then NUL else c) :: strtok_overwrites r false
      else c :: strtok_overwrites r true
  end.

(** [strcat(dir_path, token); mkdir(dir_path, 0755); strcat(dir_path, "/")]
    for each token: the arguments of [mkdir], in order. *)
Fixpoint mkdir_calls (dir_path : list byte) (tokens : list (list byte))
  : list (list byte) :=
  match tokens with
  | [] => []
  | token :: rest =>
      let dir_path := dir_path ++ token in
      dir_path :: mkdir_calls (dir_path ++ lit "/") rest
  end.

Record file_write := mkFileWrite {
  made : list (list byte);   (* the arguments of [mkdir], in order *)
  opened : list byte         (* the argument of [fopen] *)
}.

(** "Write file", the step made for each record that is not a duplicate:
    [full_path] is built, cut at its last slash for the directory loop, and
    the slash is put back before [fopen]; the slashes that [strtok] has
    overwritten stay overwritten, so [fopen] gets the full path only when
    there is none. *)
Definition write_file (output_directory expanded_path : list byte)
  : file_write :=
  let full_path := full_path_of output_directory expanded_path in
  match strrchr full_path "/"%char with
  | Some last_slash =>
      let parent := firstn (length full_path - length last_slash) full_path in
      mkFileWrite (mkdir_calls [] (strtok_tokens parent []))
                  (cstr (strtok_overwrites parent false ++ last_slash))
  | None => mkFileWrite [] full_path
  end.

(** ** Decoding the container: the parse of [extract_archive] *)

(** [buf + offset]. *)
Definition at_offset (buf : list byte) (offset : Z) : list byte :=
  skipn (Z.to_nat offset) buf.

Definition read16 (buf : list byte) (offset : Z) : outcome Z :=
  match read_uint16_be (at_offset buf offset) with
  | Some v => Done v
  | None => Undefined (ReadPastEnd offset 2 (buffer_size buf))
  end.

Definition read32 (buf : list byte) (offset : Z) : outcome Z :=
  match read_uint32_be (at_offset buf offset) with
  | Some v => Done v
  | None => Undefined (ReadPastEnd offset 4 (buffer_size buf))
  end.

Definition read8 (buf : list byte) (offset : Z) : outcome byte :=
  match at_offset buf offset with
  | b :: _ => Done b
  | [] => Undefined (ReadPastEnd offset 1 (buffer_size buf))
  end.

(** The [n] bytes at [buf + offset], as [memcpy] and [fwrite] read them. *)
Definition read_bytes (buf : list byte) (offset n : Z) : outcome (list byte) :=
  if offset + n <=? buffer_size buf
  then Done (memcpy (at_offset buf offset) n)
  else Undefined (ReadPastEnd offset n (buffer_size buf)).

(** The loop over the prefix table; [n] is the number of passes left. *)
Fixpoint read_prefixes (n : nat) (decompressed : list byte) (offset : Z)
  : outcome (list (list byte) * Z) :=
  match n with
  | O => Done ([], offset)
  | S n' =>
      prefix_len <- read16 decompressed offset ;;
      let offset := offset + 2 in
      p <- read_bytes decompressed offset prefix_len ;;
      let offset := offset + prefix_len in
      '(ps, offset) <- read_prefixes n' decompressed offset ;;
      Done (p :: ps, offset)
  end.

(** [snprintf(dst, n, "%s%s", a, b)], read back as a string. *)
Definition snprintf2 (n : Z) (a b : list byte) : list byte :=
  firstn (Z.to_nat (n - 1)) (cstr a ++ cstr b).

(** [prefixes[prefix_idx]]. *)
Definition prefix_at (table : list (list byte)) (prefix_idx : Z)
  : outcome (list byte) :=
  if (0 <=? prefix_idx) && (prefix_idx <? Z.of_nat (length table)) then
    match nth_error table (Z.to_nat prefix_idx) with
    | Some p => Done p
    | None => Undefined (PrefixIndexOutOfRange prefix_idx
                                               (Z.of_nat (length table)))
    end
  else Undefined (PrefixIndexOutOfRange prefix_idx (Z.of_nat (length table))).

(** "Expand compressed path": [stored] holds the [path_len] bytes copied
    from the container; the terminator the source appends is implicit. *)
Definition expand_path (table : list (list byte)) (stored : list byte)
  : outcome (list byte) :=
  let path := cstr stored in
  match path with
  | c :: rest =>
      if Ascii.eqb c "$"%char then
        match strchr rest "$"%char with
        | Some end_ =>
            let prefix_idx := atoi rest in
            p <- prefix_at table prefix_idx ;;
            Done (snprintf2 MAX_PATH_LEN p (skipn 1 end_))
        | None => Done path (* strcpy *)
        end
      else Done path
  | [] => Done path
  end.

(** A file that extraction writes: the expanded path of its record and
    the bytes passed to [fwrite].  The file that holds them is the one that
    [fopen] was called with, [opened (write_file output_directory
    expanded_path)]. *)
Record member := mkMember {
  expanded_path : list byte;
  written : list byte
}.

(** One pass of the loop over the file table: the member written, if any,
    and the offset after the record.  The file system is outside the
    source: [fopen path] tells whether [fopen (path, "wb")] gives a stream in
    this pass.  The content bytes are read by [fwrite], inside [if (out)];
    when [fopen] gives no stream the record is passed over and none of its
    content bytes is read. *)
Definition extract_file (fopen : list byte -> bool)
  (output_directory : list byte) (table : list (list byte))
  (decompressed : list byte) (offset : Z) : outcome (option member * Z) :=
  path_len <- read16 decompressed offset ;;
  let offset := offset + 2 in
  stored <- read_bytes decompressed offset path_len ;;
  if MAX_PATH_LEN <=? path_len then Undefined (PathBufferOverflow path_len)
  else
    let offset := offset + path_len in
    expanded <- expand_path table stored ;;
    content_len <- read32 decompressed offset ;;
    let offset := offset + 4 in
    if content_len =? 4294967295 then
      (* Duplicate - skip for now *)
      dup_len <- read16 decompressed offset ;;
      Done (None, offset + 2 + dup_len)
    else
      (* Write file *)
      let full_path := opened (write_file output_directory expanded) in
      if fopen full_path then
        data <- read_bytes decompressed offset content_len ;;
        Done (Some (mkMember expanded data), offset + content_len)
      else Done (None, offset + content_len).

Definition add_member (m : option member) (ms : list member) : list member :=
  match m with
  | Some x => x :: ms
  | None => ms
  end.

(** The loop over the file table, from pass [i] on; [n] is the number of
    passes left.  [fopen i path] is the answer of [fopen] in pass [i]. *)
Fixpoint extract_files (fopen : nat -> list byte -> bool)
  (output_directory : list byte) (i n : nat) (table : list (list byte))
  (decompressed : list byte) (offset : Z) : outcome (list member * Z) :=
  match n with
  | O => Done ([], offset)
  | S n' =>
      '(m, offset) <-
         extract_file (fopen i) output_directory table decompressed offset ;;
      '(ms, offset) <-
         extract_files fopen output_directory (S i) n' table decompressed
                       offset ;;
      Done (add_member m ms, offset)
  end.

Record decoded := mkDecoded {
  d_prefixes : list (list byte);   (* the table [prefixes] *)
  d_num_files : Z;                 (* [num_files], as announced *)
  d_members : list member;         (* the files written, in order *)
  d_offset : Z                     (* [offset] after the last record *)
}.

Definition decode_container (fopen : nat -> list byte -> bool)
  (output_directory decompressed : list byte) : outcome decoded :=
  num_prefixes <- read16 decompressed 0 ;;
  '(table, offset) <-
     read_prefixes (Z.to_nat num_prefixes) decompressed 2 ;;
  num_files <- read32 decompressed offset ;;
  let offset := offset + 4 in
  '(ms, offset) <-
     extract_files fopen output_directory 0 (Z.to_nat num_files) table
                   decompressed offset ;;
  Done (mkDecoded table num_files ms offset).

(** ** [extract_archive]: header, decompression, parse *)

Inductive extract_result :=
| Extracted (d : decoded)               (* [return 0] *)
| InvalidArchive                        (* "Invalid Kunda archive" *)
| DecompressionFailed                   (* "Decompression failed" *)
| ExtractUndefined (u : undefined).

(** What [extract_archive] comes to when its reads stay inside. *)
Definition result_of (m : outcome extract_result) : extract_result :=
  match m with
  | Done r => r
  | Undefined u => ExtractUndefined u
  end.

(** What the decoder comes to on the bytes that are there for it. *)
Inductive decoder_answer :=
| StreamEnd (produced : list byte)   (* [LZMA_STREAM_END], [total_out] bytes *)
| OtherAnswer                        (* any other [lzma_ret] *)
| ReadsOn.                           (* it asks for the byte after them *)

(** [lzma_decode input avail_in avail_out] stands for [lzma_auto_decoder]
    followed by [lzma_code (LZMA_FINISH)] with [next_in = archive_data +
    offset], [avail_in = compressed_size] and room for [avail_out] bytes.
    The source hands over the pointer and the count and reads none of those
    bytes itself; the decoder reads the bytes it consumes, in order.
    [input] holds the bytes of the file that lie in the window: all
    [avail_in] of them, or those up to the end of the file when it ends
    before.  A decoder that asks for the byte after [input] reads past the
    end of the file in the second case; in the first no input is left for
    it, and its answer is not [LZMA_STREAM_END].  The output buffer holds
    what the decoder produced and is not initialised beyond it: the parse
    runs over the bytes produced.  Allocation is taken to succeed. *)
Definition extract_archive
  (lzma_decode : list byte -> Z -> Z -> decoder_answer)
  (fopen : nat -> list byte -> bool)
  (archive_data output_directory : list byte) : extract_result :=
  result_of (
    magic <- read_bytes archive_data 0 8 ;;
    if negb (bytes_eqb magic KUNDA_MAGIC) then Done InvalidArchive
    else
      let offset := 8 + 1 + 1 in
      flags <- read8 archive_data offset ;;
      let offset := offset + 1 in
      original_size <- read32 archive_data offset ;;
      let offset := offset + 4 in
      compressed_size <- read32 archive_data offset ;;
      let offset := offset + 4 in
      let offset :=
        if Z.land (Z_of_byte flags) FLAG_CHECKSUMMED =? 0 then offset
        else offset + 32 (* Skip checksum *) in
      let input := memcpy (at_offset archive_data offset) compressed_size in
      match lzma_decode input compressed_size original_size with
      | StreamEnd decompressed =>
          d <- decode_container fopen output_directory decompressed ;;
          Done (Extracted d)
      | OtherAnswer => Done DecompressionFailed
      | ReadsOn =>
          if offset + compressed_size <=? buffer_size archive_data
          then Done DecompressionFailed
          else Undefined (ReadPastEnd offset compressed_size
                                      (buffer_size archive_data))
      end).

(** ** File types: [detect_file_type] *)

Inductive FileType :=
| FILE_TYPE_EMPTY
| FILE_TYPE_TEXT
| FILE_TYPE_BINARY
| FILE_TYPE_COMPRESSED.

(** [size >= n && memcmp(data, signature, n) == 0] for a signature of [n]
    bytes. *)
Definition has_signature (signature data : list byte) (size : Z) : bool :=
  (buffer_size signature <=? size) && starts_with signature data.

Definition gzip_signature : list byte := map byte_of_Z [31; 139].
Definition zip_signature : list byte := lit "PK" ++ map byte_of_Z [3; 4].
Definition bzip2_signature : list byte := lit "BZh".
Definition xz_signature : list byte :=
  byte_of_Z 253 :: lit "7zXZ" ++ [NUL].
Definition png_signature : list byte :=
  byte_of_Z 137 :: lit "PNG" ++ map byte_of_Z [13; 10; 26; 10].
Definition jpeg_signatures : list (list byte) :=
  [map byte_of_Z [255; 216]; map byte_of_Z [255; 217]].

(** [(c >= 32 && c <= 126) || c == 9 || c == 10 || c == 13]. *)
Definition is_text_char (c : byte) : bool :=
  let c := Z_of_byte c in
  ((32 <=? c) && (c <=? 126)) || (c =? 9) || (c =? 10) || (c =? 13).

(** [data] holds the [size] bytes the callers pass.  The last test is made
    in floating point, [(double)text_chars / sample_size > 0.85]; it is the
    parameter [ratio_above_85_percent], applied to the two counts. *)
Definition detect_file_type (ratio_above_85_percent : Z -> Z -> bool)
  (data : list byte) (size : Z) : FileType :=
  if size =? 0 then FILE_TYPE_EMPTY
  else if has_signature gzip_signature data size then FILE_TYPE_COMPRESSED
  else if has_signature zip_signature data size then FILE_TYPE_COMPRESSED
  else if has_signature bzip2_signature data size then FILE_TYPE_COMPRESSED
  else if has_signature xz_signature data size then FILE_TYPE_COMPRESSED
  else if has_signature png_signature data size then FILE_TYPE_COMPRESSED
  else if existsb (fun s => has_signature s data size) jpeg_signatures
       then FILE_TYPE_COMPRESSED
  else
    let sample_size := if size >? 4096 then 4096 else size in
    let text_chars :=
      Z.of_nat (length (filter is_text_char (memcpy data sample_size))) in
    if ratio_above_85_percent text_chars sample_size then FILE_TYPE_TEXT
    else FILE_TYPE_BINARY.

(** ** [compress_lzma_ultra] and [create_archive]: the phases in sequence *)





(* ================================================================== *)
(** * Part II: properties                                              *)
(* ================================================================== *)

(** ** The integer codec *)

Section Codec.

Lemma Z_of_byte_range (b : byte) : 0 <= Z_of_byte b < 256.
Proof.
  unfold Z_of_byte. pose proof (N_ascii_bounded b). lia.
Qed.

Lemma Z_of_byte_of_Z (z : Z) : Z_of_byte (byte_of_Z z) = z mod 256.
Proof.
  unfold Z_of_byte, byte_of_Z.
  assert (H : 0 <= z mod 256 < 256) by (apply Z.mod_pos_bound; lia).
  rewrite N_ascii_embedding by lia.
  apply Z2N.id. lia.
Qed.

Lemma land_255 (z : Z) : Z.land z 255 = z mod 256.
Proof. change 255 with (Z.ones 8). rewrite Z.land_ones by lia. reflexivity. Qed.

(** Joining a multiple of [2^n] with a value below [2^n] adds them. *)
Lemma lor_disjoint (a b n : Z) :
  0 <= n -> a mod 2 ^ n = 0 -> 0 <= b < 2 ^ n -> Z.lor a b = a + b.
Proof.
  intros Hn Ha Hb.
  assert (Hland : Z.land a b = 0).
  { apply Z.bits_inj'. intros m Hm.
    rewrite Z.land_spec, Z.bits_0.
    destruct (Z.lt_ge_cases m n) as [Hlt | Hge].
    - replace (Z.testbit a m) with false; [reflexivity |].
      symmetry. rewrite <- (Z.mod_pow2_bits_low a n m) by lia.
      rewrite Ha. apply Z.bits_0.
    - replace (Z.testbit b m) with false; [apply andb_false_r |].
      symmetry. rewrite <- (Z.mod_small b (2 ^ n)) by lia.
      apply Z.mod_pow2_bits_high. lia. }
  rewrite <- Z.lxor_lor by exact Hland.
  symmetry. apply Z.add_nocarry_lxor. exact Hland.
Qed.

Lemma read_write_uint16 (v : Z) (rest : list byte) :
  0 <= v < 2 ^ 16 -> read_uint16_be (write_uint16_be v ++ rest) = Some v.
Proof.
  intros Hv. unfold write_uint16_be, read_uint16_be. cbn [app]. f_equal.
  rewrite !Z_of_byte_of_Z, !land_255, !Z.mod_mod by lia.
  rewrite Z.shiftl_mul_pow2, Z.shiftr_div_pow2 by lia.
  rewrite (lor_disjoint _ _ 8); try lia.
  - change (2 ^ 8) with 256 in *. change (2 ^ 16) with 65536 in *.
    Z.div_mod_to_equations. lia.
  - apply Z.mod_mul. lia.
  - change (2 ^ 8) with 256. apply Z.mod_pos_bound. lia.
Qed.

Lemma read_write_uint32 (v : Z) (rest : list byte) :
  0 <= v < 2 ^ 32 -> read_uint32_be (write_uint32_be v ++ rest) = Some v.
Proof.
  intros Hv. unfold write_uint32_be, read_uint32_be. cbn [app]. f_equal.
  rewrite !Z_of_byte_of_Z, !land_255, !Z.mod_mod by lia.
  rewrite !Z.shiftl_mul_pow2, !Z.shiftr_div_pow2 by lia.
  change (2 ^ 8) with 256 in *. change (2 ^ 16) with 65536 in *.
  change (2 ^ 24) with 16777216 in *. change (2 ^ 32) with 4294967296 in *.
  assert (H0 : 0 <= (v / 16777216) mod 256 < 256) by (apply Z.mod_pos_bound; lia).
  assert (H1 : 0 <= (v / 65536) mod 256 < 256) by (apply Z.mod_pos_bound; lia).
  assert (H2 : 0 <= (v / 256) mod 256 < 256) by (apply Z.mod_pos_bound; lia).
  assert (H3 : 0 <= v mod 256 < 256) by (apply Z.mod_pos_bound; lia).
  assert (Hsum : v = (v / 16777216) mod 256 * 16777216
                     + (v / 65536) mod 256 * 65536
                     + (v / 256) mod 256 * 256 + v mod 256)
    by (Z.div_mod_to_equations; lia).
  set (b0 := (v / 16777216) mod 256) in *.
  set (b1 := (v / 65536) mod 256) in *.
  set (b2 := (v / 256) mod 256) in *.
  set (b3 := v mod 256) in *.
  rewrite (lor_disjoint (b0 * 16777216) (b1 * 65536) 24).
  - rewrite (lor_disjoint (b0 * 16777216 + b1 * 65536) (b2 * 256) 16).
    + rewrite (lor_disjoint _ b3 8).
      * symmetry. exact Hsum.
      * lia.
      * change (2 ^ 8) with 256.
        replace (b0 * 16777216 + b1 * 65536 + b2 * 256)
          with ((b0 * 65536 + b1 * 256 + b2) * 256) by ring.
        apply Z.mod_mul. lia.
      * change (2 ^ 8) with 256. lia.
    + lia.
    + change (2 ^ 16) with 65536.
      replace (b0 * 16777216 + b1 * 65536)
        with ((b0 * 256 + b1) * 65536) by ring.
      apply Z.mod_mul. lia.
    + change (2 ^ 16) with 65536. lia.
  - lia.
  - change (2 ^ 24) with 16777216. apply Z.mod_mul. lia.
  - change (2 ^ 24) with 16777216. lia.
Qed.

End Codec.

(** C10.  The big-endian integer codec round-trips: reading the two bytes
    that [write_uint16_be] stores for a 16-bit unsigned value yields the
    value, and reading the four bytes that [write_uint32_be] stores for a
    32-bit unsigned value yields the value. *)
Theorem uint_be_round_trip (v16 v32 : Z) :
  0 <= v16 < 2 ^ 16 ->
  0 <= v32 < 2 ^ 32 ->
  read_uint16_be (write_uint16_be v16) = Some v16 /\
  read_uint32_be (write_uint32_be v32) = Some v32.
Proof.
  intros H16 H32. split.
  - rewrite <- (app_nil_r (write_uint16_be v16)).
    apply read_write_uint16. exact H16.
  - rewrite <- (app_nil_r (write_uint32_be v32)).
    apply read_write_uint32. exact H32.
Qed.

Lemma uint_be_round_trip_witness :
  read_uint16_be (write_uint16_be 43981) = Some 43981 /\
  read_uint32_be (write_uint32_be 3735928559) = Some 3735928559.
Proof.
  apply (uint_be_round_trip 43981 3735928559); lia.
Defined.

(** ** The dictionary size *)

(** C9.  [get_optimal_dict_size] returns, and returns exactly 256 MiB: the
    fixed value 256 MiB is a power of two, so rounding leaves it, and it
    lies inside the clamp range of 64 MiB to 1536 MiB. *)
Theorem get_optimal_dict_size_is_256_MiB :
  get_optimal_dict_size = Some (256 * 1024 * 1024) /\
  round_up_loop 64 1 (256 * MiB) = Some (256 * MiB) /\
  64 * MiB <= 256 * MiB <= 1536 * MiB.
Proof.
  split; [| split].
  - vm_compute. reflexivity.
  - vm_compute. reflexivity.
  - unfold MiB. lia.
Qed.

(** ** Preset resolution *)

Section Presets.

Lemma bytes_eqb_eq (a b : list byte) : bytes_eqb a b = true <-> a = b.
Proof.
  revert b. induction a as [| x a IH]; intros [| y b]; cbn; split;
    try congruence; try reflexivity.
  - intros H. apply andb_true_iff in H as [Hxy Hab].
    apply Ascii.eqb_eq in Hxy. apply IH in Hab. congruence.
  - intros H. injection H as -> ->.
    apply andb_true_iff. split; [apply Ascii.eqb_refl | apply IH; reflexivity].
Qed.

Lemma bytes_eqb_refl (a : list byte) : bytes_eqb a a = true.
Proof. apply bytes_eqb_eq. reflexivity. Qed.

Lemma starts_with_app (p s : list byte) : starts_with p (p ++ s) = true.
Proof.
  induction p as [| x p IH]; cbn; [reflexivity |].
  rewrite Ascii.eqb_refl. exact IH.
Qed.

Lemma starts_with_shorter (p q s : list byte) :
  starts_with (p ++ q) s = true -> starts_with p s = true.
Proof.
  revert s. induction p as [| x p IH]; intros s H; [reflexivity |].
  destruct s as [| y s]; cbn in *; [discriminate |].
  apply andb_true_iff in H as [Hxy H]. rewrite Hxy. cbn. apply IH. exact H.
Qed.

Lemma ultra_starts_with_ultra (preset : list byte) :
  strcmp_eq preset (lit "ultra") = true ->
  starts_with (lit "ultra") (cstr preset) = true.
Proof.
  unfold strcmp_eq. intros H. apply bytes_eqb_eq in H. rewrite H.
  reflexivity.
Qed.

Lemma ultra_dash_starts_with_ultra (preset : list byte) :
  starts_with (lit "ultra-") (cstr preset) = true ->
  starts_with (lit "ultra") (cstr preset) = true.
Proof.
  intros H. apply (starts_with_shorter (lit "ultra") (lit "-")). exact H.
Qed.

Lemma preset_parameters_returns (preset : list byte) :
  exists preset_level dict_size,
    preset_parameters preset = Some (preset_level, dict_size).
Proof.
  unfold preset_parameters.
  destruct (strcmp_eq preset (lit "ultra")).
  - replace get_optimal_dict_size with (Some (256 * MiB))
      by (vm_compute; reflexivity).
    eauto.
  - destruct (starts_with (lit "ultra-") (cstr preset)); [eauto |].
    destruct (strcmp_eq preset (lit "max")); [eauto |].
    destruct (strcmp_eq preset (lit "balanced")); eauto.
Qed.

Lemma preset_parameters_fast (preset : list byte) :
  starts_with (lit "ultra") (cstr preset) = false ->
  strcmp_eq preset (lit "max") = false ->
  strcmp_eq preset (lit "balanced") = false ->
  preset_parameters preset = Some (3, 64 * MiB).
Proof.
  intros Hultra Hmax Hbal. unfold preset_parameters.
  destruct (strcmp_eq preset (lit "ultra")) eqn:E1.
  - apply ultra_starts_with_ultra in E1. congruence.
  - destruct (starts_with (lit "ultra-") (cstr preset)) eqn:E2.
    + apply ultra_dash_starts_with_ultra in E2. congruence.
    + rewrite Hmax, Hbal. reflexivity.
Qed.

End Presets.

(** C8, as the code has it.  The custom filter-chain encoder
    ([lzma_stream_encoder], with dictionary size, lc = 3, lp = 0, pb = 2,
    depth = 273 and BT4 written over the preset's options) is used exactly
    for the preset strings that begin with the five bytes "ultra"; every
    other preset string gets [lzma_easy_encoder], which receives the preset
    word alone.  A preset string that does not begin with "ultra" and is
    neither "max" nor "balanced" resolves to level 3 with a 64 MiB
    dictionary on the standard leveled encoder. *)
Theorem preset_resolution (preset : list byte) :
  (exists preset_level dict_size,
     preset_parameters preset = Some (preset_level, dict_size) /\
     compress_lzma_ultra_encoder preset =
       Some (if starts_with (lit "ultra") (cstr preset)
             then lzma_stream_encoder
                    (mkOptions (mkPreset preset_level true)
                               dict_size 3 0 2 273 LZMA_MF_BT4)
                    LZMA_CHECK_CRC64
             else lzma_easy_encoder (mkPreset preset_level true)
                                    LZMA_CHECK_CRC64)) /\
  (starts_with (lit "ultra") (cstr preset) = false ->
   strcmp_eq preset (lit "max") = false ->
   strcmp_eq preset (lit "balanced") = false ->
   preset_parameters preset = Some (3, 64 * MiB) /\
   compress_lzma_ultra_encoder preset =
     Some (lzma_easy_encoder (mkPreset 3 true) LZMA_CHECK_CRC64)).
Proof.
  split.
  - destruct (preset_parameters_returns preset) as (l & d & H).
    exists l, d. split; [exact H |].
    unfold compress_lzma_ultra_encoder. rewrite H.
    destruct (starts_with (lit "ultra") (cstr preset)); reflexivity.
  - intros Hultra Hmax Hbal.
    pose proof (preset_parameters_fast preset Hultra Hmax Hbal) as H.
    split; [exact H |].
    unfold compress_lzma_ultra_encoder. rewrite H, Hultra. reflexivity.
Qed.

Lemma preset_resolution_witness :
  preset_parameters (lit "fast") = Some (3, 64 * MiB) /\
  compress_lzma_ultra_encoder (lit "fast") =
    Some (lzma_easy_encoder (mkPreset 3 true) LZMA_CHECK_CRC64).
Proof.
  apply (proj2 (preset_resolution (lit "fast"))); reflexivity.
Defined.

(** C8 fails as stated: "ultrafast" is neither "ultra" nor "ultra-<N>", nor
    "max" nor "balanced"; it resolves to level 3 with a 64 MiB dictionary,
    yet the encoder is the custom filter chain with the explicit
    overrides, not the standard leveled encoder. *)
Lemma preset_ultrafast_uses_filter_chain :
  strcmp_eq (lit "ultrafast") (lit "ultra") = false /\
  starts_with (lit "ultra-") (cstr (lit "ultrafast")) = false /\
  strcmp_eq (lit "ultrafast") (lit "max") = false /\
  strcmp_eq (lit "ultrafast") (lit "balanced") = false /\
  preset_parameters (lit "ultrafast") = Some (3, 64 * MiB) /\
  compress_lzma_ultra_encoder (lit "ultrafast") =
    Some (lzma_stream_encoder
            (mkOptions (mkPreset 3 true) (64 * MiB) 3 0 2 273 LZMA_MF_BT4)
            LZMA_CHECK_CRC64).
Proof.
  repeat split; vm_compute; reflexivity.
Qed.

(** ** The prefix table of [compress_paths] *)

(** "Longest first": [b] may follow [a]. *)
Definition longer_first (a b : PathPrefix) : Prop :=
  strlen (prefix b) <= strlen (prefix a).

(** The inner loop of the sort read as a function of the entry at [i] and of
    the entries after it: the entry carried along is exchanged with every
    strictly longer entry it meets. *)
Fixpoint carry_longest (a : PathPrefix) (rest : list PathPrefix)
  : PathPrefix * list PathPrefix :=
  match rest with
  | [] => (a, [])
  | x :: r =>
      if strlen (prefix x) >? strlen (prefix a)
      then let (m, r') := carry_longest x r in (m, a :: r')
      else let (m, r') := carry_longest a r in (m, x :: r')
  end.

Section Sorting.

Lemma nth_error_middle {A} (l1 l2 : list A) (x : A) :
  nth_error (l1 ++ x :: l2) (length l1) = Some x.
Proof.
  induction l1 as [| y l1 IH]; cbn; [reflexivity | exact IH].
Qed.

Lemma set_nth_middle {A} (l1 l2 : list A) (x y : A) :
  set_nth (l1 ++ x :: l2) (length l1) y = l1 ++ y :: l2.
Proof.
  induction l1 as [| z l1 IH]; cbn; [reflexivity | rewrite IH; reflexivity].
Qed.

(** The entries before [i] and between [i] and [j] stay; the loop from [j]
    on does to the rest what [carry_longest] does. *)
Lemma sort_inner_from (done mid rest : list PathPrefix) (a : PathPrefix) :
  fold_left (exchange_if_longer (length done))
            (seq (length (done ++ a :: mid)) (length rest))
            (done ++ a :: mid ++ rest)
  = done ++ fst (carry_longest a rest) :: mid ++ snd (carry_longest a rest).
Proof.
  revert a mid. induction rest as [| x r IH]; intros a mid.
  - cbn. reflexivity.
  - cbn [length seq fold_left carry_longest].
    unfold exchange_if_longer at 2.
    rewrite nth_error_middle.
    replace (done ++ a :: mid ++ x :: r) with ((done ++ a :: mid) ++ x :: r)
      by (rewrite <- app_assoc; reflexivity).
    rewrite nth_error_middle.
    destruct (strlen (prefix x) >? strlen (prefix a)) eqn:E.
    + replace ((done ++ a :: mid) ++ x :: r) with (done ++ a :: mid ++ x :: r)
        by (rewrite <- app_assoc; reflexivity).
      rewrite set_nth_middle.
      replace (done ++ x :: mid ++ x :: r) with ((done ++ x :: mid) ++ x :: r)
        by (rewrite <- app_assoc; reflexivity).
      replace (length (done ++ a :: mid)) with (length (done ++ x :: mid))
        by (rewrite !length_app; reflexivity).
      rewrite set_nth_middle.
      replace ((done ++ x :: mid) ++ a :: r)
        with (done ++ x :: (mid ++ [a]) ++ r)
        by (rewrite <- !app_assoc; reflexivity).
      replace (S (length (done ++ x :: mid)))
        with (length (done ++ x :: mid ++ [a]))
        by (rewrite !length_app; cbn; rewrite length_app; cbn; lia).
      rewrite IH.
      destruct (carry_longest x r) as [m r']. cbn [fst snd].
      rewrite <- app_assoc. reflexivity.
    + replace ((done ++ a :: mid) ++ x :: r)
        with (done ++ a :: (mid ++ [x]) ++ r)
        by (rewrite <- !app_assoc; reflexivity).
      replace (S (length (done ++ a :: mid)))
        with (length (done ++ a :: mid ++ [x]))
        by (rewrite !length_app; cbn; rewrite length_app; cbn; lia).
      rewrite IH.
      destruct (carry_longest a r) as [m r']. cbn [fst snd].
      rewrite <- app_assoc. reflexivity.
Qed.

Lemma sort_inner_step (done rest : list PathPrefix) (a : PathPrefix) :
  sort_inner (done ++ a :: rest) (length done)
  = done ++ fst (carry_longest a rest) :: snd (carry_longest a rest).
Proof.
  unfold sort_inner.
  replace (length (done ++ a :: rest) - (length done + 1))%nat
    with (length rest) by (rewrite length_app; cbn; lia).
  replace (length done + 1)%nat with (length (done ++ a :: []))
    by (rewrite length_app; reflexivity).
  exact (sort_inner_from done [] rest a).
Qed.

Lemma carry_longest_length (a : PathPrefix) (rest : list PathPrefix) :
  length (snd (carry_longest a rest)) = length rest.
Proof.
  revert a. induction rest as [| x r IH]; intros a; cbn; [reflexivity |].
  destruct (strlen (prefix x) >? strlen (prefix a)).
  - specialize (IH x). destruct (carry_longest x r). cbn in *. lia.
  - specialize (IH a). destruct (carry_longest a r). cbn in *. lia.
Qed.

Lemma carry_longest_perm (a : PathPrefix) (rest : list PathPrefix) :
  Permutation (a :: rest)
              (fst (carry_longest a rest) :: snd (carry_longest a rest)).
Proof.
  revert a. induction rest as [| x r IH]; intros a; cbn; [reflexivity |].
  destruct (strlen (prefix x) >? strlen (prefix a)).
  - specialize (IH x). destruct (carry_longest x r) as [m r']. cbn in *.
    apply perm_trans with (a :: m :: r');
      [apply perm_skip; exact IH | apply perm_swap].
  - specialize (IH a). destruct (carry_longest a r) as [m r']. cbn in *.
    apply perm_trans with (x :: a :: r); [apply perm_swap |].
    apply perm_trans with (x :: m :: r');
      [apply perm_skip; exact IH | apply perm_swap].
Qed.

(** The entry carried to position [i] is at least as long as the one that
    was there and as every entry left behind. *)
Lemma carry_longest_longest (a : PathPrefix) (rest : list PathPrefix) :
  longer_first (fst (carry_longest a rest)) a /\
  Forall (longer_first (fst (carry_longest a rest)))
         (snd (carry_longest a rest)).
Proof.
  unfold longer_first.
  revert a. induction rest as [| x r IH]; intros a; cbn.
  - split; [lia | constructor].
  - destruct (strlen (prefix x) >? strlen (prefix a)) eqn:E.
    + specialize (IH x). destruct (carry_longest x r) as [m r']. cbn in *.
      destruct IH as [Hx Hall]. split; [lia |].
      constructor; [lia | exact Hall].
    + specialize (IH a). destruct (carry_longest a r) as [m r']. cbn in *.
      destruct IH as [Ha Hall]. split; [exact Ha |].
      constructor; [lia | exact Hall].
Qed.

Lemma sort_outer_from (n : nat) :
  forall done t : list PathPrefix,
    length t = n ->
    exists s,
      fold_left sort_inner (seq (length done) n) (done ++ t) = done ++ s /\
      Permutation t s /\ StronglySorted longer_first s.
Proof.
  induction n as [| n IH]; intros done t Hlen.
  - destruct t; [| discriminate]. exists []. cbn.
    repeat split; constructor.
  - destruct t as [| a rest]; [discriminate |]. injection Hlen as Hlen.
    cbn [seq fold_left]. rewrite sort_inner_step.
    pose proof (carry_longest_length a rest) as Hl.
    pose proof (carry_longest_perm a rest) as Hp.
    pose proof (carry_longest_longest a rest) as [_ Hall].
    destruct (carry_longest a rest) as [m r']. cbn [fst snd] in *.
    destruct (IH (done ++ [m]) r') as (s & Hs & Hperm & Hsorted); [lia |].
    exists (m :: s).
    replace (S (length done)) with (length (done ++ [m]))
      by (rewrite length_app; cbn; lia).
    replace (done ++ m :: r') with ((done ++ [m]) ++ r')
      by (rewrite <- app_assoc; reflexivity).
    rewrite Hs, <- app_assoc. split; [reflexivity |]. split.
    + rewrite Hp. apply perm_skip. exact Hperm.
    + constructor; [exact Hsorted |].
      eapply Permutation_Forall; [exact Hperm | exact Hall].
Qed.

Lemma sort_by_length_sorted (table : list PathPrefix) :
  Permutation table (sort_by_length table) /\
  StronglySorted longer_first (sort_by_length table).
Proof.
  destruct (sort_outer_from (length table) [] table eq_refl)
    as (s & Hs & Hperm & Hsorted).
  unfold sort_by_length. cbn in Hs. rewrite Hs. split; assumption.
Qed.

Lemma filter_used_counts (table : list PathPrefix) :
  Forall (fun e => 3 <= count e) (filter_used table).
Proof.
  apply Forall_forall. intros e He.
  apply filter_In in He as [_ He]. apply Z.leb_le. exact He.
Qed.

Lemma scan_prefixes_from (inputs : list (list byte * list byte)) :
  forall a : Archive,
    prefixes
      (fold_left
         (fun a pc => archive_add_file a (fst pc) (snd pc)
                        (Z.of_nat (length (snd pc))))
         inputs a) = prefixes a.
Proof.
  induction inputs as [| pc inputs IH]; intros a; cbn; [reflexivity |].
  rewrite IH. reflexivity.
Qed.

End Sorting.

(** C4.  For every list of input files, the prefix table that
    [compress_paths] leaves has only entries with [count >= 3], and its
    entries are in non-increasing order of prefix byte length: every entry
    is at least as long as every entry after it. *)
Theorem compress_paths_table (inputs : list (list byte * list byte)) :
  let table := prefixes (compress_paths (scan inputs)) in
  Forall (fun e => 3 <= count e) table /\
  StronglySorted longer_first table.
Proof.
  cbv zeta. unfold compress_paths.
  destruct (length (files (scan inputs)) <=? 1)%nat.
  - unfold scan. rewrite scan_prefixes_from. cbn.
    split; constructor.
  - cbn [prefixes].
    set (counted := fold_left count_path (map path (files (scan inputs)))
                              (prefixes (scan inputs))).
    destruct (sort_by_length_sorted (filter_used counted)) as [Hperm Hsorted].
    split; [| exact Hsorted].
    eapply Permutation_Forall; [exact Hperm | apply filter_used_counts].
Qed.

(** ** Reads of the container *)

Section Reads.

Lemma buffer_size_app (a b : list byte) :
  buffer_size (a ++ b) = buffer_size a + buffer_size b.
Proof. unfold buffer_size. rewrite length_app. lia. Qed.

Lemma buffer_size_nonneg (a : list byte) : 0 <= buffer_size a.
Proof. unfold buffer_size. lia. Qed.

Lemma at_offset_app (pre rest : list byte) :
  at_offset (pre ++ rest) (buffer_size pre) = rest.
Proof.
  unfold at_offset, buffer_size. rewrite Nat2Z.id.
  rewrite skipn_app, skipn_all, Nat.sub_diag. reflexivity.
Qed.

Lemma memcpy_app (x rest : list byte) :
  memcpy (x ++ rest) (buffer_size x) = x.
Proof.
  unfold memcpy, buffer_size. rewrite Nat2Z.id.
  rewrite firstn_app, firstn_all, Nat.sub_diag. cbn. apply app_nil_r.
Qed.

Lemma read16_at (pre rest : list byte) (v : Z) :
  0 <= v < 2 ^ 16 ->
  read16 (pre ++ write_uint16_be v ++ rest) (buffer_size pre) = Done v.
Proof.
  intros Hv. unfold read16. rewrite at_offset_app, read_write_uint16 by exact Hv.
  reflexivity.
Qed.

Lemma read32_at (pre rest : list byte) (v : Z) :
  0 <= v < 2 ^ 32 ->
  read32 (pre ++ write_uint32_be v ++ rest) (buffer_size pre) = Done v.
Proof.
  intros Hv. unfold read32. rewrite at_offset_app, read_write_uint32 by exact Hv.
  reflexivity.
Qed.

Lemma read_bytes_at (pre x rest : list byte) :
  read_bytes (pre ++ x ++ rest) (buffer_size pre) (buffer_size x) = Done x.
Proof.
  unfold read_bytes. rewrite !buffer_size_app.
  pose proof (buffer_size_nonneg rest).
  replace (buffer_size pre + buffer_size x <=?
           buffer_size pre + (buffer_size x + buffer_size rest)) with true
    by (symmetry; apply Z.leb_le; lia).
  rewrite at_offset_app, memcpy_app. reflexivity.
Qed.

Lemma Some_eq {A} (a b : A) : Some a = Some b -> a = b.
Proof. congruence. Qed.

Lemma read_uint16_be_nonneg (buf : list byte) (v : Z) :
  read_uint16_be buf = Some v -> 0 <= v.
Proof.
  unfold read_uint16_be. intros H.
  destruct buf as [| b0 [| b1 r]]; try discriminate H.
  apply Some_eq in H. subst v.
  pose proof (Z_of_byte_range b0). pose proof (Z_of_byte_range b1).
  rewrite Z.lor_nonneg, Z.shiftl_nonneg. lia.
Qed.

Lemma read_uint32_be_nonneg (buf : list byte) (v : Z) :
  read_uint32_be buf = Some v -> 0 <= v.
Proof.
  unfold read_uint32_be. intros H.
  destruct buf as [| b0 [| b1 [| b2 [| b3 r]]]]; try discriminate H.
  apply Some_eq in H. subst v.
  pose proof (Z_of_byte_range b0). pose proof (Z_of_byte_range b1).
  pose proof (Z_of_byte_range b2). pose proof (Z_of_byte_range b3).
  rewrite !Z.lor_nonneg, !Z.shiftl_nonneg. lia.
Qed.

Lemma read16_nonneg (buf : list byte) (offset v : Z) :
  read16 buf offset = Done v -> 0 <= v.
Proof.
  unfold read16. destruct (read_uint16_be (at_offset buf offset)) eqn:E;
    [| discriminate].
  intros [= <-]. eapply read_uint16_be_nonneg. exact E.
Qed.

Lemma read32_nonneg (buf : list byte) (offset v : Z) :
  read32 buf offset = Done v -> 0 <= v.
Proof.
  unfold read32. destruct (read_uint32_be (at_offset buf offset)) eqn:E;
    [| discriminate].
  intros [= <-]. eapply read_uint32_be_nonneg. exact E.
Qed.

Lemma at_offset_length (buf : list byte) (offset : Z) :
  length (at_offset buf offset) = (length buf - Z.to_nat offset)%nat.
Proof. unfold at_offset. apply length_skipn. Qed.

Lemma read32_in_bounds (buf : list byte) (offset v : Z) :
  read32 buf offset = Done v -> offset + 4 <= buffer_size buf.
Proof.
  unfold read32. pose proof (at_offset_length buf offset) as H.
  destruct (at_offset buf offset) as [| b0 [| b1 [| b2 [| b3 r]]]];
    cbn in *; try discriminate.
  intros _. unfold buffer_size. lia.
Qed.

Lemma read_bytes_in_bounds (buf x : list byte) (offset n : Z) :
  read_bytes buf offset n = Done x -> offset + n <= buffer_size buf.
Proof.
  unfold read_bytes. destruct (offset + n <=? buffer_size buf) eqn:E;
    [| discriminate].
  intros _. apply Z.leb_le. exact E.
Qed.

(** *** A read of a buffer and of the same buffer with more bytes after it *)

Lemma at_offset_extend (b rest : list byte) (offset : Z) :
  at_offset (b ++ rest) offset
  = at_offset b offset ++ skipn (Z.to_nat offset - length b) rest.
Proof. unfold at_offset. apply skipn_app. Qed.

Lemma read16_extend (b rest : list byte) (offset : Z) :
  read16 b offset = Undefined (ReadPastEnd offset 2 (buffer_size b)) \/
  read16 (b ++ rest) offset = read16 b offset.
Proof.
  unfold read16. rewrite at_offset_extend.
  destruct (at_offset b offset) as [| b0 [| b1 r]]; cbn;
    [left; reflexivity | left; reflexivity | right; reflexivity].
Qed.

Lemma read32_extend (b rest : list byte) (offset : Z) :
  read32 b offset = Undefined (ReadPastEnd offset 4 (buffer_size b)) \/
  read32 (b ++ rest) offset = read32 b offset.
Proof.
  unfold read32. rewrite at_offset_extend.
  destruct (at_offset b offset) as [| b0 [| b1 [| b2 [| b3 r]]]]; cbn;
    try (left; reflexivity). right; reflexivity.
Qed.

Lemma read_bytes_extend (b rest : list byte) (offset n : Z) :
  0 <= offset ->
  read_bytes b offset n = Undefined (ReadPastEnd offset n (buffer_size b)) \/
  read_bytes (b ++ rest) offset n = read_bytes b offset n.
Proof.
  intros Hoff. unfold read_bytes. rewrite buffer_size_app.
  pose proof (buffer_size_nonneg rest).
  destruct (offset + n <=? buffer_size b) eqn:E; [right | left; reflexivity].
  apply Z.leb_le in E.
  replace (offset + n <=? buffer_size b + buffer_size rest) with true
    by (symmetry; apply Z.leb_le; lia).
  f_equal. unfold memcpy. rewrite at_offset_extend.
  rewrite firstn_app.
  replace (Z.to_nat n - length (at_offset b offset))%nat with 0%nat.
  - cbn. apply app_nil_r.
  - unfold at_offset, buffer_size in *. rewrite length_skipn. lia.
Qed.

End Reads.

(** ** Well-formed archives *)

(** The field holds the characters of a C string: no NUL among them. *)
Definition c_string (s : list byte) : Prop := cstr s = s.

(** The stored paths that the parse expands: a dollar sign first and
    another one after it. *)
Definition reference_token (p : list byte) : bool :=
  match p with
  | c :: rest =>
      Ascii.eqb c "$"%char &&
      match strchr rest "$"%char with Some _ => true | None => false end
  | [] => false
  end.

Definition wf_prefix (p : PathPrefix) : Prop :=
  c_string (prefix p) /\ strlen (prefix p) < 2 ^ 16.

(** A file entry as the C struct can hold it, whose fields fit the widths of
    the layout: the path is a C string shorter than [MAX_PATH_LEN]; a
    duplicate names a path shorter than 2^16; otherwise [size] is the number
    of content bytes, below [0xFFFFFFFF]. *)
Definition wf_file (f : FileEntry) : Prop :=
  c_string (path f) /\ strlen (path f) < MAX_PATH_LEN /\
  if is_duplicate f then strlen (duplicate_of f) < 2 ^ 16
  else size f = buffer_size (content f) /\ size f < 4294967295.

Definition literal_path (f : FileEntry) : Prop :=
  reference_token (path f) = false.

Definition wf_archive (a : Archive) : Prop :=
  Z.of_nat (length (prefixes a)) < 2 ^ 16 /\
  Z.of_nat (length (files a)) < 2 ^ 32 /\
  Forall wf_prefix (prefixes a) /\
  Forall wf_file (files a) /\
  Forall literal_path (files a).

(** The container fits the buffer that [create_archive] allocates. *)
Definition fits_buffer (a : Archive) : Prop :=
  buffer_size (binary_format a) <= binary_capacity a.

(** What extraction is to write for a file entry. *)
Definition member_of (f : FileEntry) : member :=
  mkMember (path f) (content f).

(** Whether [fopen] gives a stream for the entry [f] when its record is
    met in pass [i]: [fopen] is called with the path that the write step
    makes of the path of [f]. *)
Definition opens (fopen : nat -> list byte -> bool)
  (output_directory : list byte) (i : nat) (f : FileEntry) : bool :=
  fopen i (opened (write_file output_directory (path f))).

Definition written_for (fopen : nat -> list byte -> bool)
  (output_directory : list byte) (i : nat) (f : FileEntry) : option member :=
  if is_duplicate f then None
  else if opens fopen output_directory i f then Some (member_of f)
  else None.

(** The members written for the entries [fs], met from pass [i] on. *)
Fixpoint members_of (fopen : nat -> list byte -> bool)
  (output_directory : list byte) (i : nat) (fs : list FileEntry)
  : list member :=
  match fs with
  | [] => []
  | f :: fs =>
      add_member (written_for fopen output_directory i f)
                 (members_of fopen output_directory (S i) fs)
  end.

(** The entries of [fs] that are written, in order: those that are not
    duplicates and for which [fopen] gives a stream in the pass, counted
    from 0, in which they are met. *)
Definition written_entries (fopen : nat -> list byte -> bool)
  (output_directory : list byte) (fs : list FileEntry) : list FileEntry :=
  map snd
      (filter (fun jf => negb (is_duplicate (snd jf)) &&
                         opens fopen output_directory (fst jf) (snd jf))
              (combine (seq 0 (length fs)) fs)).

(** ** Decoding what was encoded *)

Section RoundTrip.

Variable fopen : nat -> list byte -> bool.
Variable output_directory : list byte.

Lemma memcpy_strlen (s : list byte) : memcpy s (strlen s) = cstr s.
Proof.
  unfold memcpy, strlen. rewrite Nat2Z.id.
  induction s as [| c r IH]; cbn; [reflexivity |].
  destruct (Ascii.eqb c NUL); cbn; [reflexivity | rewrite IH; reflexivity].
Qed.

Lemma strlen_range (s : list byte) : 0 <= strlen s.
Proof. unfold strlen. lia. Qed.

Lemma strlen_c_string (s : list byte) :
  c_string s -> strlen s = buffer_size s.
Proof. unfold c_string, strlen, buffer_size. intros ->. reflexivity. Qed.

Lemma to_uint16_small (v : Z) : 0 <= v < 2 ^ 16 -> to_uint16 v = v.
Proof. intros H. unfold to_uint16. apply Z.mod_small. exact H. Qed.

Lemma to_uint32_small (v : Z) : 0 <= v < 2 ^ 32 -> to_uint32 v = v.
Proof. intros H. unfold to_uint32. apply Z.mod_small. exact H. Qed.

Lemma buffer_size_write16 (v : Z) : buffer_size (write_uint16_be v) = 2.
Proof. reflexivity. Qed.

Lemma buffer_size_write32 (v : Z) : buffer_size (write_uint32_be v) = 4.
Proof. reflexivity. Qed.

Lemma read16_in (buf pre rest : list byte) (offset v : Z) :
  buf = pre ++ write_uint16_be v ++ rest ->
  offset = buffer_size pre ->
  0 <= v < 2 ^ 16 ->
  read16 buf offset = Done v.
Proof. intros -> -> Hv. apply read16_at. exact Hv. Qed.

Lemma read32_in (buf pre rest : list byte) (offset v : Z) :
  buf = pre ++ write_uint32_be v ++ rest ->
  offset = buffer_size pre ->
  0 <= v < 2 ^ 32 ->
  read32 buf offset = Done v.
Proof. intros -> -> Hv. apply read32_at. exact Hv. Qed.

Lemma read_bytes_in (buf pre x rest : list byte) (offset n : Z) :
  buf = pre ++ x ++ rest ->
  offset = buffer_size pre ->
  n = buffer_size x ->
  read_bytes buf offset n = Done x.
Proof. intros -> -> ->. apply read_bytes_at. Qed.

Lemma expand_path_literal (table : list (list byte)) (p : list byte) :
  c_string p -> reference_token p = false -> expand_path table p = Done p.
Proof.
  unfold c_string, reference_token, expand_path. intros Hc Href.
  rewrite Hc. destruct p as [| c rest]; [reflexivity |].
  destruct (Ascii.eqb c "$"%char); [| reflexivity].
  destruct (strchr rest "$"%char); [discriminate | reflexivity].
Qed.

Lemma encode_prefix_wf (p : PathPrefix) :
  wf_prefix p ->
  encode_prefix p = write_uint16_be (buffer_size (prefix p)) ++ prefix p.
Proof.
  intros [Hc Hlen]. unfold encode_prefix.
  pose proof (strlen_range (prefix p)).
  rewrite memcpy_strlen, to_uint16_small by lia.
  rewrite Hc, (strlen_c_string _ Hc). reflexivity.
Qed.

Lemma read_prefixes_encoded (ps : list PathPrefix) :
  Forall wf_prefix ps ->
  forall (buf pre rest : list byte) (offset : Z),
    buf = pre ++ concat (map encode_prefix ps) ++ rest ->
    offset = buffer_size pre ->
    read_prefixes (length ps) buf offset
    = Done (map prefix ps,
            offset + buffer_size (concat (map encode_prefix ps))).
Proof.
  induction 1 as [| p ps Hp Hps IH]; intros buf pre rest offset Hbuf Hoff.
  - cbn. f_equal. f_equal. unfold buffer_size. cbn. lia.
  - cbn [length map concat read_prefixes] in *.
    rewrite (encode_prefix_wf p Hp) in *.
    destruct Hp as [Hc Hlen]. rewrite (strlen_c_string _ Hc) in Hlen.
    pose proof (buffer_size_nonneg (prefix p)).
    set (tail := concat (map encode_prefix ps)) in *.
    set (w16 := write_uint16_be (buffer_size (prefix p))) in *.
    assert (Hw16 : buffer_size w16 = 2) by reflexivity.
    rewrite (read16_in buf pre (prefix p ++ tail ++ rest) _
                       (buffer_size (prefix p)));
      [| rewrite Hbuf, <- !app_assoc; reflexivity | exact Hoff | lia].
    cbn [bind].
    rewrite (read_bytes_in buf (pre ++ w16) (prefix p) (tail ++ rest));
      [| rewrite Hbuf, <- !app_assoc; reflexivity
       | rewrite buffer_size_app, Hw16, Hoff; reflexivity
       | reflexivity].
    cbn [bind].
    rewrite (IH buf (pre ++ w16 ++ prefix p) rest);
      [| rewrite Hbuf, <- !app_assoc; reflexivity
       | rewrite !buffer_size_app, Hw16, Hoff; lia].
    cbn [bind]. f_equal. f_equal.
    rewrite !buffer_size_app, Hw16. lia.
Qed.

Lemma encode_file_wf (f : FileEntry) :
  wf_file f ->
  encode_file f
  = write_uint16_be (buffer_size (path f)) ++ path f ++
    (if is_duplicate f
     then write_uint32_be 4294967295 ++
          write_uint16_be (strlen (duplicate_of f)) ++ cstr (duplicate_of f)
     else write_uint32_be (size f) ++ content f).
Proof.
  intros (Hc & Hlen & Htail). unfold encode_file.
  pose proof (strlen_range (path f)). unfold MAX_PATH_LEN in Hlen.
  rewrite memcpy_strlen, to_uint16_small by lia.
  rewrite Hc, (strlen_c_string _ Hc).
  destruct (is_duplicate f).
  - pose proof (strlen_range (duplicate_of f)).
    rewrite memcpy_strlen, to_uint16_small by lia. reflexivity.
  - destruct Htail as [Hsize Hmax].
    pose proof (buffer_size_nonneg (content f)).
    rewrite to_uint32_small by lia.
    rewrite Hsize at 2. unfold memcpy, buffer_size. rewrite Nat2Z.id.
    rewrite firstn_all. reflexivity.
Qed.

Lemma extract_file_encoded (table : list (list byte)) (f : FileEntry)
  (i : nat) (buf pre rest : list byte) (offset : Z) :
  wf_file f -> literal_path f ->
  buf = pre ++ encode_file f ++ rest ->
  offset = buffer_size pre ->
  extract_file (fopen i) output_directory table buf offset
  = Done (written_for fopen output_directory i f,
          offset + buffer_size (encode_file f)).
Proof.
  intros Hwf Hlit Hbuf Hoff. rewrite (encode_file_wf f Hwf) in *.
  destruct Hwf as (Hc & Hlen & Htail).
  rewrite (strlen_c_string _ Hc) in Hlen. unfold MAX_PATH_LEN in Hlen.
  pose proof (buffer_size_nonneg (path f)).
  unfold extract_file, written_for, opens, member_of.
  set (w16 := write_uint16_be (buffer_size (path f))) in *.
  assert (Hw16 : buffer_size w16 = 2) by reflexivity.
  destruct (is_duplicate f).
  - pose proof (strlen_range (duplicate_of f)).
    set (dup := cstr (duplicate_of f)) in *.
    set (w32 := write_uint32_be 4294967295) in *.
    set (wdup := write_uint16_be (strlen (duplicate_of f))) in *.
    assert (Hw32 : buffer_size w32 = 4) by reflexivity.
    assert (Hwdup : buffer_size wdup = 2) by reflexivity.
    assert (Hdup : buffer_size dup = strlen (duplicate_of f)) by reflexivity.
    rewrite (read16_in buf pre (path f ++ w32 ++ wdup ++ dup ++ rest) _
                       (buffer_size (path f)));
      [| rewrite Hbuf, <- !app_assoc; reflexivity | exact Hoff | lia].
    cbn [bind].
    rewrite (read_bytes_in buf (pre ++ w16) (path f)
                           (w32 ++ wdup ++ dup ++ rest));
      [| rewrite Hbuf, <- !app_assoc; reflexivity
       | rewrite buffer_size_app, Hw16, Hoff; reflexivity
       | reflexivity].
    cbn [bind].
    replace (MAX_PATH_LEN <=? buffer_size (path f)) with false
      by (symmetry; apply Z.leb_gt; unfold MAX_PATH_LEN; lia).
    rewrite (expand_path_literal _ _ Hc Hlit). cbn [bind].
    rewrite (read32_in buf (pre ++ w16 ++ path f) (wdup ++ dup ++ rest) _
                       4294967295);
      [| rewrite Hbuf, <- !app_assoc; reflexivity
       | rewrite !buffer_size_app, Hw16, Hoff; lia
       | lia].
    cbn [bind]. rewrite Z.eqb_refl.
    rewrite (read16_in buf (pre ++ w16 ++ path f ++ w32) (dup ++ rest) _
                       (strlen (duplicate_of f)));
      [| rewrite Hbuf, <- !app_assoc; reflexivity
       | rewrite !buffer_size_app, Hw16, Hw32, Hoff; lia
       | lia].
    cbn [bind]. f_equal. f_equal.
    rewrite !buffer_size_app, Hw16, Hw32, Hwdup, Hdup. lia.
  - destruct Htail as [Hsize Hmax].
    pose proof (buffer_size_nonneg (content f)).
    set (w32 := write_uint32_be (size f)) in *.
    assert (Hw32 : buffer_size w32 = 4) by reflexivity.
    rewrite (read16_in buf pre (path f ++ w32 ++ content f ++ rest) _
                       (buffer_size (path f)));
      [| rewrite Hbuf, <- !app_assoc; reflexivity | exact Hoff | lia].
    cbn [bind].
    rewrite (read_bytes_in buf (pre ++ w16) (path f)
                           (w32 ++ content f ++ rest));
      [| rewrite Hbuf, <- !app_assoc; reflexivity
       | rewrite buffer_size_app, Hw16, Hoff; reflexivity
       | reflexivity].
    cbn [bind].
    replace (MAX_PATH_LEN <=? buffer_size (path f)) with false
      by (symmetry; apply Z.leb_gt; unfold MAX_PATH_LEN; lia).
    rewrite (expand_path_literal _ _ Hc Hlit). cbn [bind].
    rewrite (read32_in buf (pre ++ w16 ++ path f) (content f ++ rest) _
                       (size f));
      [| rewrite Hbuf, <- !app_assoc; reflexivity
       | rewrite !buffer_size_app, Hw16, Hoff; lia
       | lia].
    cbn [bind].
    replace (size f =? 4294967295) with false
      by (symmetry; apply Z.eqb_neq; lia).
    cbv zeta.
    destruct (fopen i (opened (write_file output_directory (path f)))).
    + rewrite (read_bytes_in buf (pre ++ w16 ++ path f ++ w32) (content f)
                             rest);
        [| rewrite Hbuf, <- !app_assoc; reflexivity
         | rewrite !buffer_size_app, Hw16, Hw32, Hoff; lia
         | exact Hsize].
      cbn [bind]. f_equal. f_equal.
      rewrite !buffer_size_app, Hw16, Hw32. lia.
    + f_equal. f_equal. rewrite !buffer_size_app, Hw16, Hw32. lia.
Qed.

Lemma extract_files_encoded (table : list (list byte)) (fs : list FileEntry) :
  Forall wf_file fs -> Forall literal_path fs ->
  forall (i : nat) (buf pre rest : list byte) (offset : Z),
    buf = pre ++ concat (map encode_file fs) ++ rest ->
    offset = buffer_size pre ->
    extract_files fopen output_directory i (length fs) table buf offset
    = Done (members_of fopen output_directory i fs,
            offset + buffer_size (concat (map encode_file fs))).
Proof.
  induction fs as [| f fs IH];
    intros Hwf Hlit i buf pre rest offset Hbuf Hoff.
  - cbn. f_equal. f_equal. unfold buffer_size. cbn. lia.
  - inversion Hwf as [| ? ? Hf Hfs]; subst.
    inversion Hlit as [| ? ? Lf Lfs]; subst.
    cbn [length map concat extract_files members_of].
    set (tail := concat (map encode_file fs)) in *.
    rewrite (extract_file_encoded table f i _ pre (tail ++ rest) _ Hf Lf);
      [| rewrite <- !app_assoc; reflexivity | reflexivity].
    cbn [bind].
    rewrite (IH Hfs Lfs (S i) _ (pre ++ encode_file f) rest);
      [| rewrite <- !app_assoc; reflexivity
       | rewrite !buffer_size_app; reflexivity].
    cbn [bind]. f_equal. f_equal.
    rewrite !buffer_size_app. lia.
Qed.

(** Decoding the container of a well-formed archive gives back its
    prefixes, writes its files that are not duplicates and for which
    [fopen] gives a stream, in order, and stops at the end of the
    container. *)
Lemma decode_binary_format (a : Archive) :
  wf_archive a ->
  decode_container fopen output_directory (binary_format a)
  = Done (mkDecoded (map prefix (prefixes a))
                    (Z.of_nat (length (files a)))
                    (members_of fopen output_directory 0 (files a))
                    (buffer_size (binary_format a))).
Proof.
  intros (Hnp & Hnf & Hps & Hfs & Hlit).
  unfold decode_container.
  set (buf := binary_format a).
  assert (Hbuf : buf = binary_format a) by reflexivity.
  unfold binary_format in Hbuf.
  rewrite to_uint16_small, to_uint32_small in Hbuf by lia.
  set (np := Z.of_nat (length (prefixes a))) in *.
  set (nf := Z.of_nat (length (files a))) in *.
  set (eps := concat (map encode_prefix (prefixes a))) in *.
  set (efs := concat (map encode_file (files a))) in *.
  assert (Hw16 : buffer_size (write_uint16_be np) = 2) by reflexivity.
  assert (Hw32 : buffer_size (write_uint32_be nf) = 4) by reflexivity.
  rewrite (read16_in buf [] (eps ++ write_uint32_be nf ++ efs) _ np);
    [| exact Hbuf | reflexivity | lia].
  cbn [bind]. unfold np at 1. rewrite Nat2Z.id.
  rewrite (read_prefixes_encoded _ Hps buf (write_uint16_be np)
                                 (write_uint32_be nf ++ efs));
    [| exact Hbuf | reflexivity].
  cbn [bind]. fold eps.
  rewrite (read32_in buf (write_uint16_be np ++ eps) efs _ nf);
    [| rewrite Hbuf, <- !app_assoc; reflexivity
     | rewrite !buffer_size_app, Hw16; reflexivity
     | lia].
  cbn [bind]. unfold nf at 1. rewrite Nat2Z.id.
  rewrite (extract_files_encoded _ _ Hfs Hlit 0%nat buf
             (write_uint16_be np ++ eps ++ write_uint32_be nf) []);
    [| rewrite Hbuf, <- !app_assoc, app_nil_r; reflexivity
     | rewrite !buffer_size_app, Hw16, Hw32; lia].
  cbn [bind]. fold efs. f_equal. f_equal.
  rewrite Hbuf, !buffer_size_app, Hw16, Hw32. lia.
Qed.

End RoundTrip.

(** ** Decoding a buffer that stops early *)

(** The outcome is a read past the end of [b]. *)
Definition past_end {A} (r : outcome A) (b : list byte) : Prop :=
  exists offset n, r = Undefined (ReadPastEnd offset n (buffer_size b)).

Section Truncation.

Variables b rest : list byte.
Variable fopen : nat -> list byte -> bool.
Variable output_directory : list byte.

(** Each function either reads past the end of [b], or does on [b] what
    it does on [b] followed by [rest]. *)

Lemma read_prefixes_extend (n : nat) :
  forall offset : Z,
    0 <= offset ->
    past_end (read_prefixes n b offset) b \/
    read_prefixes n (b ++ rest) offset = read_prefixes n b offset.
Proof.
  induction n as [| n IH]; intros offset Hoff; [right; reflexivity |].
  cbn [read_prefixes].
  destruct (read16_extend b rest offset) as [H | H].
  { left. rewrite H. eexists. eexists. reflexivity. }
  rewrite H. destruct (read16 b offset) as [len | u] eqn:E; cbn [bind];
    [| right; reflexivity].
  apply read16_nonneg in E.
  destruct (read_bytes_extend b rest (offset + 2) len) as [H2 | H2]; [lia | |].
  { left. rewrite H2. eexists. eexists. reflexivity. }
  rewrite H2. destruct (read_bytes b (offset + 2) len) as [p | u];
    cbn [bind]; [| right; reflexivity].
  destruct (IH (offset + 2 + len)) as [(o & m & H3) | H3]; [lia | |].
  { left. rewrite H3. eexists. eexists. reflexivity. }
  rewrite H3. right. reflexivity.
Qed.

Lemma extract_file_extend (out : list byte -> bool)
  (table : list (list byte)) (offset : Z) :
  0 <= offset ->
  past_end (extract_file out output_directory table b offset) b \/
  extract_file out output_directory table (b ++ rest) offset
  = extract_file out output_directory table b offset.
Proof.
  intros Hoff. unfold extract_file.
  destruct (read16_extend b rest offset) as [H | H].
  { left. rewrite H. eexists. eexists. reflexivity. }
  rewrite H. destruct (read16 b offset) as [path_len | u] eqn:E; cbn [bind];
    [| right; reflexivity].
  apply read16_nonneg in E.
  destruct (read_bytes_extend b rest (offset + 2) path_len) as [H2 | H2];
    [lia | |].
  { left. rewrite H2. eexists. eexists. reflexivity. }
  rewrite H2. destruct (read_bytes b (offset + 2) path_len) as [stored | u];
    cbn [bind]; [| right; reflexivity].
  destruct (MAX_PATH_LEN <=? path_len); [right; reflexivity |].
  destruct (expand_path table stored) as [expanded | u]; cbn [bind];
    [| right; reflexivity].
  destruct (read32_extend b rest (offset + 2 + path_len)) as [H3 | H3].
  { left. rewrite H3. eexists. eexists. reflexivity. }
  rewrite H3.
  destruct (read32 b (offset + 2 + path_len)) as [content_len | u] eqn:E3;
    cbn [bind]; [| right; reflexivity].
  apply read32_nonneg in E3.
  destruct (content_len =? 4294967295).
  - destruct (read16_extend b rest (offset + 2 + path_len + 4)) as [H4 | H4].
    { left. rewrite H4. eexists. eexists. reflexivity. }
    rewrite H4. right. reflexivity.
  - cbv zeta.
    destruct (out (opened (write_file output_directory expanded)));
      [| right; reflexivity].
    destruct (read_bytes_extend b rest (offset + 2 + path_len + 4) content_len)
      as [H4 | H4]; [lia | |].
    { left. rewrite H4. eexists. eexists. reflexivity. }
    rewrite H4. right. reflexivity.
Qed.

(** The offset only moves forward. *)
Lemma extract_file_forward (out : list byte -> bool)
  (table : list (list byte)) (offset : Z)
  (m : option member) (offset' : Z) :
  extract_file out output_directory table b offset = Done (m, offset') ->
  offset <= offset'.
Proof.
  unfold extract_file.
  destruct (read16 b offset) as [path_len | u] eqn:E1; cbn [bind];
    [| discriminate].
  apply read16_nonneg in E1.
  destruct (read_bytes b (offset + 2) path_len) as [stored | u];
    cbn [bind]; [| discriminate].
  destruct (MAX_PATH_LEN <=? path_len); [discriminate |].
  destruct (expand_path table stored) as [expanded | u]; cbn [bind];
    [| discriminate].
  destruct (read32 b (offset + 2 + path_len)) as [content_len | u] eqn:E3;
    cbn [bind]; [| discriminate].
  apply read32_nonneg in E3.
  destruct (content_len =? 4294967295).
  - destruct (read16 b (offset + 2 + path_len + 4)) as [dup_len | u] eqn:E4;
      cbn [bind]; [| discriminate].
    apply read16_nonneg in E4. intros [= _ <-]. lia.
  - cbv zeta.
    destruct (out (opened (write_file output_directory expanded)));
      [| intros [= _ <-]; lia].
    destruct (read_bytes b (offset + 2 + path_len + 4) content_len);
      cbn [bind]; [| discriminate].
    intros [= _ <-]. lia.
Qed.

Lemma extract_files_extend (table : list (list byte)) (n : nat) :
  forall (i : nat) (offset : Z),
    0 <= offset ->
    past_end (extract_files fopen output_directory i n table b offset) b \/
    extract_files fopen output_directory i n table (b ++ rest) offset
    = extract_files fopen output_directory i n table b offset.
Proof.
  induction n as [| n IH]; intros i offset Hoff; [right; reflexivity |].
  cbn [extract_files].
  destruct (extract_file_extend (fopen i) table offset Hoff)
    as [(o & m & H) | H].
  { left. rewrite H. eexists. eexists. reflexivity. }
  rewrite H.
  destruct (extract_file (fopen i) output_directory table b offset)
    as [[m offset'] | u] eqn:E;
    cbn [bind]; [| right; reflexivity].
  apply extract_file_forward in E.
  destruct (IH (S i) offset') as [(o & k & H2) | H2]; [lia | |].
  { left. rewrite H2. eexists. eexists. reflexivity. }
  rewrite H2. right. reflexivity.
Qed.

Lemma read_prefixes_forward (n : nat) :
  forall (offset : Z) (ps : list (list byte)) (offset' : Z),
    read_prefixes n b offset = Done (ps, offset') -> offset <= offset'.
Proof.
  induction n as [| n IH]; intros offset ps offset'; cbn [read_prefixes].
  - intros [= _ <-]. lia.
  - destruct (read16 b offset) as [len | u] eqn:E1; cbn [bind];
      [| discriminate].
    apply read16_nonneg in E1.
    destruct (read_bytes b (offset + 2) len); cbn [bind]; [| discriminate].
    destruct (read_prefixes n b (offset + 2 + len)) as [[ps' o'] | u] eqn:E2;
      cbn [bind]; [| discriminate].
    apply IH in E2. intros [= _ <-]. lia.
Qed.

Lemma decode_container_extend :
  past_end (decode_container fopen output_directory b) b \/
  decode_container fopen output_directory (b ++ rest)
  = decode_container fopen output_directory b.
Proof.
  unfold decode_container.
  destruct (read16_extend b rest 0) as [H | H].
  { left. rewrite H. eexists. eexists. reflexivity. }
  rewrite H. destruct (read16 b 0) as [num_prefixes | u]; cbn [bind];
    [| right; reflexivity].
  destruct (read_prefixes_extend (Z.to_nat num_prefixes) 2)
    as [(o & m & H2) | H2]; [lia | |].
  { left. rewrite H2. eexists. eexists. reflexivity. }
  rewrite H2.
  destruct (read_prefixes (Z.to_nat num_prefixes) b 2)
    as [[table offset] | u] eqn:E2; cbn [bind]; [| right; reflexivity].
  apply read_prefixes_forward in E2.
  destruct (read32_extend b rest offset) as [H3 | H3].
  { left. rewrite H3. eexists. eexists. reflexivity. }
  rewrite H3. destruct (read32 b offset) as [num_files | u]; cbn [bind];
    [| right; reflexivity].
  destruct (extract_files_extend table (Z.to_nat num_files) 0 (offset + 4))
    as [(o & m & H4) | H4]; [lia | |].
  { left. rewrite H4. eexists. eexists. reflexivity. }
  rewrite H4. right. reflexivity.
Qed.

(** A record that is written ends inside the buffer. *)
Lemma extract_file_written_inside (out : list byte -> bool)
  (table : list (list byte)) (offset : Z)
  (m : member) (offset' : Z) :
  extract_file out output_directory table b offset = Done (Some m, offset') ->
  offset' <= buffer_size b.
Proof.
  unfold extract_file.
  destruct (read16 b offset) as [path_len | u]; cbn [bind]; [| discriminate].
  destruct (read_bytes b (offset + 2) path_len) as [stored | u];
    cbn [bind]; [| discriminate].
  destruct (MAX_PATH_LEN <=? path_len); [discriminate |].
  destruct (expand_path table stored) as [expanded | u]; cbn [bind];
    [| discriminate].
  destruct (read32 b (offset + 2 + path_len)) as [content_len | u];
    cbn [bind]; [| discriminate].
  destruct (content_len =? 4294967295).
  - destruct (read16 b (offset + 2 + path_len + 4)); cbn [bind]; discriminate.
  - cbv zeta.
    destruct (out (opened (write_file output_directory expanded)));
      [| discriminate].
    destruct (read_bytes b (offset + 2 + path_len + 4) content_len) eqn:E;
      cbn [bind]; [| discriminate].
    apply read_bytes_in_bounds in E. intros [= _ <-]. exact E.
Qed.

Lemma extract_files_count (table : list (list byte)) (n : nat) :
  forall (i : nat) (offset : Z) (ms : list member) (offset' : Z),
    extract_files fopen output_directory i n table b offset
    = Done (ms, offset') ->
    (length ms <= n)%nat.
Proof.
  induction n as [| n IH]; intros i offset ms offset'; cbn [extract_files].
  - intros [= <- _]. cbn. lia.
  - destruct (extract_file (fopen i) output_directory table b offset)
      as [[m o1] | u]; cbn [bind]; [| discriminate].
    destruct (extract_files fopen output_directory (S i) n table b o1)
      as [[ms' o2] | u] eqn:E;
      cbn [bind]; [| discriminate].
    apply IH in E. intros [= <- _]. destruct m; cbn; lia.
Qed.

(** When every record is written, the parse ends inside the buffer. *)
Lemma extract_files_all_written_inside (table : list (list byte)) (n : nat) :
  forall (i : nat) (offset : Z) (ms : list member) (offset' : Z),
    extract_files fopen output_directory i n table b offset
    = Done (ms, offset') ->
    length ms = n ->
    offset <= buffer_size b ->
    offset' <= buffer_size b.
Proof.
  induction n as [| n IH]; intros i offset ms offset'; cbn [extract_files].
  - intros [= _ <-] _ H. exact H.
  - destruct (extract_file (fopen i) output_directory table b offset)
      as [[m o1] | u] eqn:E1;
      cbn [bind]; [| discriminate].
    destruct (extract_files fopen output_directory (S i) n table b o1)
      as [[ms' o2] | u] eqn:E2;
      cbn [bind]; [| discriminate].
    intros [= <- <-] Hlen _.
    pose proof (extract_files_count _ _ _ _ _ _ E2) as Hcount.
    destruct m as [m |]; cbn in Hlen; [| lia].
    apply extract_file_written_inside in E1.
    eapply IH; [exact E2 | lia | exact E1].
Qed.

Lemma decode_container_all_written_inside (d : decoded) :
  decode_container fopen output_directory b = Done d ->
  length (d_members d) = Z.to_nat (d_num_files d) ->
  d_offset d <= buffer_size b.
Proof.
  unfold decode_container.
  destruct (read16 b 0) as [num_prefixes | u]; cbn [bind]; [| discriminate].
  destruct (read_prefixes (Z.to_nat num_prefixes) b 2)
    as [[table offset] | u]; cbn [bind]; [| discriminate].
  destruct (read32 b offset) as [num_files | u] eqn:E3; cbn [bind];
    [| discriminate].
  apply read32_in_bounds in E3.
  destruct (extract_files fopen output_directory 0 (Z.to_nat num_files) table
                           b (offset + 4))
    as [[ms offset'] | u] eqn:E4; cbn [bind]; [| discriminate].
  intros [= <-]. cbn [d_members d_num_files d_offset]. intros Hlen.
  eapply extract_files_all_written_inside; [exact E4 | exact Hlen | exact E3].
Qed.

End Truncation.

(** A buffer on which the parse writes every record it announces, cut
    before the end of the parse: the parse of the cut buffer reads past
    its end. *)
Lemma decode_container_cut (fopen : nat -> list byte -> bool)
  (output_directory full : list byte) (d : decoded) (k : nat) :
  decode_container fopen output_directory full = Done d ->
  length (d_members d) = Z.to_nat (d_num_files d) ->
  Z.of_nat k < d_offset d ->
  past_end (decode_container fopen output_directory (firstn k full))
           (firstn k full).
Proof.
  intros Hfull Hall Hk.
  destruct (decode_container_extend (firstn k full) (skipn k full)
                                    fopen output_directory)
    as [H | H]; [exact H |].
  rewrite firstn_skipn, Hfull in H. symmetry in H.
  pose proof (decode_container_all_written_inside _ _ _ _ H Hall) as Hin.
  unfold buffer_size in Hin. rewrite length_firstn in Hin. lia.
Qed.

(** ** Examples *)

Definition entry (p c : string) : list byte * list byte := (lit p, lit c).

(** The directory of the specification's scenario, scanned and analysed. *)
Definition scenario : Archive :=
  compress_paths
    (scan [entry "a/b/f1" "x"; entry "a/b/f2" "";
           entry "a/c/f3" "y"; entry "a/b/f4" "x"]).


(** The single file [$5$x], empty. *)
Definition lone_dollar_archive : Archive :=
  compress_paths (scan [entry "$5$x" ""]).

(** A single empty file whose name has 1100 bytes. *)
Definition long_name_archive : Archive :=
  compress_paths (scan [(repeat "a"%char 1100, [])]).

(** A file and a duplicate of it. *)
Definition duplicate_archive : Archive :=
  mkArchive [mkFileEntry (lit "a") (lit "x") 1 false [];
             mkFileEntry (lit "b") [] 0 true (lit "a")]
            [].

(** Three files that lie in the directory itself. *)
Definition flat_archive : Archive :=
  compress_paths (scan [entry "f1" "x"; entry "f2" ""; entry "f3" "y"]).

(** Two file systems, for the output directory [extracted]: one in which
    [extracted] is a directory, so that [fopen] gives a stream for every path
    but that one, and one in which [fopen] gives a stream for every path. *)
Definition extracted_is_a_directory (i : nat) (p : list byte) : bool :=
  negb (bytes_eqb p (lit "extracted")).

Definition every_path_opens (i : nat) (p : list byte) : bool := true.


Ltac solve_wf :=
  try match goal with
    | |- wf_archive ?a =>
        let a' := eval vm_compute in a in change (wf_archive a')
    end;
  repeat match goal with
    | |- _ /\ _ => split
    | |- Forall _ _ => constructor
    | |- wf_archive _ => unfold wf_archive; cbn [files prefixes]
    | |- wf_prefix _ => unfold wf_prefix; cbn [prefix]
    | |- wf_file _ =>
        unfold wf_file; cbn [path content size is_duplicate duplicate_of]
    | |- literal_path _ => unfold literal_path; cbn [path]
    | |- c_string _ => unfold c_string
    end;
  try (vm_compute; reflexivity).

Section Members.

Variable fopen : nat -> list byte -> bool.
Variable output_directory : list byte.

Lemma members_of_cons (i : nat) (f : FileEntry) (fs : list FileEntry) :
  members_of fopen output_directory i (f :: fs)
  = add_member (written_for fopen output_directory i f)
               (members_of fopen output_directory (S i) fs).
Proof. reflexivity. Qed.

Lemma members_of_filter (fs : list FileEntry) :
  forall i : nat,
    members_of fopen output_directory i fs
    = map member_of
        (map snd
           (filter (fun jf => negb (is_duplicate (snd jf)) &&
                              opens fopen output_directory (fst jf) (snd jf))
                   (combine (seq i (length fs)) fs))).
Proof.
  induction fs as [| f fs IH]; intros i; [reflexivity |].
  rewrite members_of_cons, IH. unfold written_for.
  cbn [length seq combine filter fst snd].
  destruct (is_duplicate f); [reflexivity |]. cbn [negb andb].
  destruct (opens fopen output_directory i f); reflexivity.
Qed.

Lemma members_of_written (fs : list FileEntry) :
  members_of fopen output_directory 0 fs
  = map member_of (written_entries fopen output_directory fs).
Proof. apply members_of_filter. Qed.

Lemma members_of_length (fs : list FileEntry) :
  forall i : nat,
    (length (members_of fopen output_directory i fs) <= length fs)%nat.
Proof.
  induction fs as [| f fs IH]; intros i; [cbn; lia |].
  rewrite members_of_cons. specialize (IH (S i)).
  destruct (written_for fopen output_directory i f); cbn in *; lia.
Qed.

(** When [fopen] gives a stream for every entry that is not a duplicate,
    these are the entries written. *)
Lemma members_of_all_open (fs : list FileEntry) :
  (forall i f, In f fs -> is_duplicate f = false ->
               opens fopen output_directory i f = true) ->
  forall i : nat,
    members_of fopen output_directory i fs
    = map member_of (filter (fun f => negb (is_duplicate f)) fs).
Proof.
  induction fs as [| f fs IH]; intros Hopen i; [reflexivity |].
  rewrite members_of_cons, IH
    by (intros j g Hg; apply Hopen; right; exact Hg).
  unfold written_for. cbn [filter].
  destruct (is_duplicate f) eqn:E; [reflexivity |].
  rewrite (Hopen i f (or_introl eq_refl) E). reflexivity.
Qed.

Lemma filter_no_duplicates (fs : list FileEntry) :
  Forall (fun f => is_duplicate f = false) fs ->
  filter (fun f => negb (is_duplicate f)) fs = fs.
Proof.
  induction 1 as [| f fs Hf Hfs IH]; [reflexivity |].
  cbn [filter]. rewrite Hf, IH. reflexivity.
Qed.

End Members.

Lemma create_binary_format_fits (a : Archive) :
  fits_buffer a -> create_binary_format a = Done (binary_format a).
Proof.
  unfold fits_buffer, create_binary_format. cbv zeta. intros H.
  apply Z.leb_le in H. rewrite H. reflexivity.
Qed.

(** ** Truncated containers *)

(** C1, as the code has it.  The parse validates no length field and has
    no error exit.  For a well-formed archive without duplicate records
    whose container fits the encoder's buffer, the encoder produces the
    container, and on the container cut at any byte offset before its end
    the parse does not stop with an error: it reads past the end of the
    supplied buffer, or it runs to its end with the offset beyond the buffer,
    having passed over a record for which [fopen] gave no stream, whose
    content it therefore did not read.  When [fopen] gives a stream for every
    record, it reads past the end at every cut. *)
Theorem decode_truncated_reads_past_end
  (fopen : nat -> list byte -> bool) (output_directory : list byte)
  (a : Archive) :
  wf_archive a ->
  Forall (fun f => is_duplicate f = false) (files a) ->
  fits_buffer a ->
  exists data,
    create_binary_format a = Done data /\
    forall k : nat,
      (k < length data)%nat ->
      ((exists offset n,
          decode_container fopen output_directory (firstn k data)
          = Undefined (ReadPastEnd offset n (Z.of_nat k))) \/
       (exists d,
          decode_container fopen output_directory (firstn k data) = Done d /\
          Z.of_nat k < d_offset d /\
          (length (d_members d) < length (files a))%nat)) /\
      ((forall i f, In f (files a) ->
                    opens fopen output_directory i f = true) ->
       exists offset n,
         decode_container fopen output_directory (firstn k data)
         = Undefined (ReadPastEnd offset n (Z.of_nat k))).
Proof.
  intros Hwf Hnodup Hfits. exists (binary_format a).
  split; [apply create_binary_format_fits; exact Hfits |].
  intros k Hk.
  pose proof (decode_binary_format fopen output_directory a Hwf) as Hfull.
  set (cut := firstn k (binary_format a)).
  assert (Hcut : buffer_size cut = Z.of_nat k)
    by (unfold cut, buffer_size; rewrite length_firstn; lia).
  assert (Hcases :
    (exists offset n,
       decode_container fopen output_directory cut
       = Undefined (ReadPastEnd offset n (Z.of_nat k))) \/
    (decode_container fopen output_directory cut
     = Done (mkDecoded (map prefix (prefixes a))
                       (Z.of_nat (length (files a)))
                       (members_of fopen output_directory 0 (files a))
                       (buffer_size (binary_format a))) /\
     (length (members_of fopen output_directory 0 (files a))
      < length (files a))%nat)).
  { destruct (decode_container_extend cut (skipn k (binary_format a))
                                      fopen output_directory)
      as [(offset & n & H) | H].
    - left. exists offset, n. rewrite H, Hcut. reflexivity.
    - right. unfold cut in H at 1. rewrite firstn_skipn, Hfull in H.
      symmetry in H. split; [exact H |].
      pose proof (members_of_length fopen output_directory (files a) 0)
        as Hle.
      destruct (Nat.eq_dec
                  (length (members_of fopen output_directory 0 (files a)))
                  (length (files a))) as [Heq | Hne]; [| lia].
      exfalso.
      pose proof (decode_container_all_written_inside
                    cut fopen output_directory _ H) as Hin.
      cbn [d_members d_num_files d_offset] in Hin.
      rewrite Nat2Z.id in Hin. specialize (Hin Heq).
      unfold buffer_size in Hin, Hcut. lia. }
  split.
  - destruct Hcases as [H | [H Hlen]]; [left; exact H | right].
    eexists. split; [exact H |]. cbn [d_offset d_members].
    split; [unfold buffer_size; lia | exact Hlen].
  - intros Hopen. destruct Hcases as [H | [_ Hlen]]; [exact H |].
    exfalso.
    rewrite (members_of_all_open fopen output_directory (files a)) in Hlen
      by (intros i f Hf _; apply Hopen; exact Hf).
    rewrite (filter_no_duplicates _ Hnodup), length_map in Hlen. lia.
Qed.

Lemma decode_truncated_reads_past_end_witness :
  (exists data,
     create_binary_format scenario = Done data /\
     forall k : nat,
       (k < length data)%nat ->
       (exists offset n,
          decode_container extracted_is_a_directory (lit "extracted")
                           (firstn k data)
          = Undefined (ReadPastEnd offset n (Z.of_nat k))) \/
       (exists d,
          decode_container extracted_is_a_directory (lit "extracted")
                           (firstn k data) = Done d /\
          Z.of_nat k < d_offset d /\
          (length (d_members d) < length (files scenario))%nat)) /\
  (exists data,
     create_binary_format flat_archive = Done data /\
     forall k : nat,
       (k < length data)%nat ->
       exists offset n,
         decode_container extracted_is_a_directory (lit "extracted")
                          (firstn k data)
         = Undefined (ReadPastEnd offset n (Z.of_nat k))).
Proof.
  split.
  - destruct (decode_truncated_reads_past_end extracted_is_a_directory
                (lit "extracted") scenario)
      as (data & Hcreate & Hcut);
      [solve_wf | repeat constructor | vm_compute; discriminate |].
    exists data. split; [exact Hcreate |].
    intros k Hk. exact (proj1 (Hcut k Hk)).
  - destruct (decode_truncated_reads_past_end extracted_is_a_directory
                (lit "extracted") flat_archive)
      as (data & Hcreate & Hcut);
      [solve_wf | repeat constructor | vm_compute; discriminate |].
    exists data. split; [exact Hcreate |].
    intros k Hk. apply (proj2 (Hcut k Hk)).
    intros i f Hin. vm_compute in Hin.
    destruct Hin as [<- | [<- | [<- | []]]]; reflexivity.
Defined.

(** C1 fails as stated: on the two-byte buffer that announces one prefix
    and stops, and on the scenario's container cut after twenty bytes, the
    parse does not stop with an error; it reads two bytes at offset 2 of a
    2-byte buffer, and six bytes at offset 18 of a 20-byte buffer, whatever
    [fopen] answers.  On that container cut before its last byte, with
    [extracted] a directory, it does not stop with an error either: it runs
    to its end, with the offset 67 in a buffer of 66 bytes. *)
Lemma decode_reads_past_end_of_cut_buffer :
  (forall fopen output_directory,
     decode_container fopen output_directory [zero; one]
     = Undefined (ReadPastEnd 2 2 2)) /\
  (forall fopen output_directory,
     decode_container fopen output_directory
                      (firstn 20 (binary_format scenario))
     = Undefined (ReadPastEnd 18 6 20)) /\
  decode_container extracted_is_a_directory (lit "extracted")
                   (firstn 66 (binary_format scenario))
  = Done (mkDecoded [lit "a/b/"; lit "a/"] 4 [] 67).
Proof.
  split; [| split].
  - intros fopen output_directory. reflexivity.
  - intros fopen output_directory. vm_compute. reflexivity.
  - vm_compute. reflexivity.
Qed.

(** ** Round trip *)




(** ** Duplicate records *)

(** C7, as the code has it.  A record whose four-byte length field is
    [0xFFFFFFFF] is skipped.  Whenever the parse of such a record completes,
    it has written no member, and the offset is past the length-prefixed
    string that follows the field; and it does complete when the stored path
    fits the path buffer and expands and the two-byte length of that string
    lies inside the buffer.  The reference is not resolved, and nothing is
    kept for later. *)
Theorem duplicate_record_is_skipped (fopen : list byte -> bool)
  (output_directory : list byte) (table : list (list byte))
  (buf : list byte) (offset path_len : Z) :
  read16 buf offset = Done path_len ->
  read32 buf (offset + 2 + path_len) = Done 4294967295 ->
  (forall m offset',
     extract_file fopen output_directory table buf offset
     = Done (m, offset') ->
     m = None /\
     exists dup_len,
       read16 buf (offset + 2 + path_len + 4) = Done dup_len /\
       offset' = offset + 2 + path_len + 4 + 2 + dup_len) /\
  (forall stored expanded dup_len,
     read_bytes buf (offset + 2) path_len = Done stored ->
     path_len < MAX_PATH_LEN ->
     expand_path table stored = Done expanded ->
     read16 buf (offset + 2 + path_len + 4) = Done dup_len ->
     extract_file fopen output_directory table buf offset
     = Done (None, offset + 2 + path_len + 4 + 2 + dup_len)).
Proof.
  intros H16 H32. split.
  - intros m offset'. unfold extract_file. rewrite H16. cbn [bind].
    destruct (read_bytes buf (offset + 2) path_len) as [stored | u];
      cbn [bind]; [| discriminate].
    destruct (MAX_PATH_LEN <=? path_len); [discriminate |].
    destruct (expand_path table stored) as [expanded | u]; cbn [bind];
      [| discriminate].
    rewrite H32. cbn [bind]. rewrite Z.eqb_refl.
    destruct (read16 buf (offset + 2 + path_len + 4)) as [dup_len | u];
      cbn [bind]; [| discriminate].
    intros [= <- <-]. split; [reflexivity |].
    exists dup_len. split; reflexivity.
  - intros stored expanded dup_len Hstored Hfits Hexpanded Hdup.
    unfold extract_file. rewrite H16. cbn [bind]. rewrite Hstored. cbn [bind].
    replace (MAX_PATH_LEN <=? path_len) with false
      by (symmetry; apply Z.leb_gt; exact Hfits).
    rewrite Hexpanded. cbn [bind]. rewrite H32. cbn [bind].
    rewrite Z.eqb_refl, Hdup. reflexivity.
Qed.

Lemma duplicate_record_is_skipped_witness :
  extract_file (extracted_is_a_directory 1) (lit "extracted") []
               (binary_format duplicate_archive) 14
  = Done (None, 24).
Proof.
  refine (proj2 (duplicate_record_is_skipped
                   (extracted_is_a_directory 1) (lit "extracted")
                   [] (binary_format duplicate_archive) 14 1 _ _)
                (lit "b") (lit "b") 1 _ _ _ _);
    vm_compute; reflexivity.
Defined.

(** C7 fails as stated: for a file [a] with content [x] followed by a
    duplicate [b] of [a], the parse writes [a] alone; no member [b] is
    written, with the content of [a] or otherwise. *)
Lemma duplicate_member_is_not_written :
  wf_archive duplicate_archive /\
  decode_container extracted_is_a_directory (lit "extracted")
                   (binary_format duplicate_archive)
  = Done (mkDecoded [] 2 [mkMember (lit "a") (lit "x")] 24).
Proof.
  split; [solve_wf | vm_compute; reflexivity].
Qed.

(** X1.  Decoding the container of a well-formed archive goes through its
    records in order and writes exactly those that are not duplicates and
    for which [fopen] gives a stream; a duplicate record produces no member.
    When [fopen] gives a stream for every record that is not a duplicate,
    those are the records written. *)
Theorem decode_writes_non_duplicates
  (fopen : nat -> list byte -> bool) (output_directory : list byte)
  (a : Archive) :
  wf_archive a ->
  exists d,
    decode_container fopen output_directory (binary_format a) = Done d /\
    d_members d
    = map member_of (written_entries fopen output_directory (files a)) /\
    ((forall i f, In f (files a) -> is_duplicate f = false ->
                  opens fopen output_directory i f = true) ->
     d_members d
     = map member_of (filter (fun f => negb (is_duplicate f)) (files a))).
Proof.
  intros Hwf. eexists.
  split; [apply decode_binary_format; exact Hwf |].
  cbn [d_members]. split; [apply members_of_written |].
  intros Hopen. apply members_of_all_open. exact Hopen.
Qed.

Lemma decode_writes_non_duplicates_witness :
  exists d,
    decode_container extracted_is_a_directory (lit "extracted")
                     (binary_format duplicate_archive) = Done d /\
    d_members d = [mkMember (lit "a") (lit "x")].
Proof.
  destruct (decode_writes_non_duplicates extracted_is_a_directory
              (lit "extracted") duplicate_archive)
    as (d & Hdecode & _ & Hall); [solve_wf |].
  exists d. split; [exact Hdecode |].
  rewrite Hall; [reflexivity |].
  intros i f Hin _. vm_compute in Hin.
  destruct Hin as [<- | [<- | []]]; reflexivity.
Defined.

(** Phase 3 of [create_archive] can write past the buffer it allocated:
    the container of a single empty file whose name has 1100 bytes takes
    1112 bytes, and the buffer has 1024. *)
Theorem create_archive_overruns_buffer :
  create_binary_format long_name_archive
  = Undefined (WritePastEnd 1112 1024).
Proof. vm_compute. reflexivity. Qed.


(** ** Path expansion *)

(** The number that a string of decimal digits denotes. *)
Definition decimal (digits : list byte) : Z :=
  fold_left (fun acc c => acc * 10 + (Z_of_byte c - 48)) digits 0.

(** A prefix as long as the C struct can hold: 4094 letters and a slash. *)
Definition long_prefix : list byte := repeat "a"%char 4094 ++ lit "/".

Section Expansion.

Lemma isdigit_not_space (c : byte) : isdigit c = true -> isspace c = false.
Proof.
  unfold isdigit, isspace. cbv zeta. intros H.
  apply andb_true_iff in H as [H1 H2].
  apply Z.leb_le in H1. apply Z.leb_le in H2.
  apply orb_false_iff. split.
  - apply Z.eqb_neq. lia.
  - apply andb_false_iff. right. apply Z.leb_gt. lia.
Qed.

Lemma isdigit_not (c d : byte) :
  isdigit d = false -> isdigit c = true -> Ascii.eqb c d = false.
Proof.
  intros Hd Hc. destruct (Ascii.eqb_spec c d) as [-> |]; [congruence |].
  reflexivity.
Qed.

Lemma atoi_digits_stops (digits rest : list byte) (stop : byte) :
  Forall (fun c => isdigit c = true) digits ->
  isdigit stop = false ->
  forall acc,
    atoi_digits acc (digits ++ stop :: rest)
    = fold_left (fun acc c => acc * 10 + (Z_of_byte c - 48)) digits acc.
Proof.
  intros Hds Hstop. induction Hds as [| d ds Hd Hds IH]; intros acc; cbn.
  - rewrite Hstop. reflexivity.
  - rewrite Hd. apply IH.
Qed.

Lemma decimal_from_nonneg (digits : list byte) :
  Forall (fun c => isdigit c = true) digits ->
  forall acc, 0 <= acc ->
    0 <= fold_left (fun acc c => acc * 10 + (Z_of_byte c - 48)) digits acc.
Proof.
  induction 1 as [| d ds Hd Hds IH]; intros acc Hacc; cbn; [exact Hacc |].
  apply IH. unfold isdigit in Hd. cbv zeta in Hd.
  apply andb_true_iff in Hd as [H1 _]. apply Z.leb_le in H1. lia.
Qed.

(** A number that fits an [int] comes back from [strtol] and from the
    conversion as it is. *)
Lemma to_int_of_long (v : Z) :
  - 2 ^ 31 <= v < 2 ^ 31 ->
  to_int (Z.max (- 2 ^ 63) (Z.min (2 ^ 63 - 1) v)) = v.
Proof.
  intros H. change (2 ^ 31) with 2147483648 in H.
  change (2 ^ 63) with 9223372036854775808.
  rewrite Z.min_r, Z.max_r by lia.
  unfold to_int. change (2 ^ 31) with 2147483648.
  change (2 ^ 32) with 4294967296.
  rewrite Z.mod_small by lia. lia.
Qed.

Lemma atoi_decimal (digits rest : list byte) :
  Forall (fun c => isdigit c = true) digits ->
  decimal digits <= 2147483647 ->
  atoi (digits ++ "$"%char :: rest) = decimal digits.
Proof.
  intros Hds Hint.
  assert (Hnonneg : 0 <= decimal digits)
    by (apply decimal_from_nonneg; [exact Hds | lia]).
  unfold atoi, strtol. cbv zeta.
  replace (match skip_spaces (digits ++ "$"%char :: rest) with
           | [] => 0
           | c :: r =>
               if Ascii.eqb c "-"%char then - atoi_digits 0 r
               else if Ascii.eqb c "+"%char then atoi_digits 0 r
               else atoi_digits 0 (c :: r)
           end) with (decimal digits).
  - apply to_int_of_long. change (2 ^ 31) with 2147483648. lia.
  - unfold decimal.
    rewrite <- (atoi_digits_stops digits rest "$"%char Hds eq_refl 0).
    destruct Hds as [| d ds Hd Hds]; [reflexivity |].
    cbn [app skip_spaces]. rewrite (isdigit_not_space d Hd).
    rewrite (isdigit_not d "-"%char eq_refl Hd).
    rewrite (isdigit_not d "+"%char eq_refl Hd).
    reflexivity.
Qed.

Lemma strchr_after_digits (digits rest : list byte) :
  Forall (fun c => isdigit c = true) digits ->
  strchr (digits ++ "$"%char :: rest) "$"%char = Some ("$"%char :: rest).
Proof.
  induction 1 as [| d ds Hd Hds IH]; cbn; [reflexivity |].
  rewrite (isdigit_not d "$"%char eq_refl Hd). exact IH.
Qed.

Lemma cstr_digits (digits rest : list byte) :
  Forall (fun c => isdigit c = true) digits ->
  cstr (digits ++ rest) = digits ++ cstr rest.
Proof.
  induction 1 as [| d ds Hd Hds IH]; cbn; [reflexivity |].
  rewrite (isdigit_not d NUL eq_refl Hd), IH. reflexivity.
Qed.

Lemma prefix_at_nth (table : list (list byte)) (idx : Z) :
  0 <= idx ->
  prefix_at table idx
  = match nth_error table (Z.to_nat idx) with
    | Some p => Done p
    | None => Undefined (PrefixIndexOutOfRange idx (Z.of_nat (length table)))
    end.
Proof.
  intros Hidx. unfold prefix_at.
  destruct (idx <? Z.of_nat (length table)) eqn:E.
  - replace (0 <=? idx) with true by (symmetry; apply Z.leb_le; exact Hidx).
    reflexivity.
  - rewrite andb_false_r. apply Z.ltb_ge in E.
    replace (nth_error table (Z.to_nat idx)) with (@None (list byte));
      [reflexivity |].
    symmetry. apply nth_error_None. lia.
Qed.

End Expansion.

(** C6, as the code has it.  A stored path that is not a reference token
    (it does not begin with a dollar sign, or no other dollar sign follows)
    is used verbatim, as a C string.  In a stored path that begins with a
    dollar sign, decimal digits, a dollar sign and a suffix, the digits,
    when their number fits an [int], are the index into the prefix table; no
    range check is made: with an index inside the table the real path is the
    referenced prefix followed by the suffix, cut to [MAX_PATH_LEN - 1]
    bytes, and with an index outside it the parse reads the table out of
    range and has no error exit. *)
Theorem expand_path_cases (table : list (list byte))
  (stored digits suffix : list byte) :
  (reference_token (cstr stored) = false ->
   expand_path table stored = Done (cstr stored)) /\
  (Forall (fun c => isdigit c = true) digits ->
   decimal digits <= 2147483647 ->
   c_string suffix ->
   expand_path table (lit "$" ++ digits ++ lit "$" ++ suffix)
   = match nth_error table (Z.to_nat (decimal digits)) with
     | Some p => Done (firstn 4095 (cstr p ++ suffix))
     | None => Undefined (PrefixIndexOutOfRange
                            (decimal digits) (Z.of_nat (length table)))
     end).
Proof.
  split.
  - unfold reference_token, expand_path. cbv zeta.
    destruct (cstr stored) as [| c rest]; [reflexivity |].
    destruct (Ascii.eqb c "$"%char); [| reflexivity].
    destruct (strchr rest "$"%char); [discriminate | reflexivity].
  - intros Hds Hint Hsuffix. unfold expand_path. cbv zeta.
    change (lit "$" ++ digits ++ lit "$" ++ suffix)
      with ("$"%char :: digits ++ "$"%char :: suffix).
    change (cstr ("$"%char :: digits ++ "$"%char :: suffix))
      with ("$"%char :: cstr (digits ++ "$"%char :: suffix)).
    rewrite (cstr_digits _ _ Hds).
    change (cstr ("$"%char :: suffix)) with ("$"%char :: cstr suffix).
    rewrite Hsuffix. cbn [Ascii.eqb Bool.eqb].
    rewrite (strchr_after_digits _ _ Hds), (atoi_decimal _ _ Hds Hint).
    rewrite prefix_at_nth
      by (apply decimal_from_nonneg; [exact Hds | lia]).
    destruct (nth_error table (Z.to_nat (decimal digits))); cbn [bind];
      [| reflexivity].
    unfold snprintf2. cbn [skipn]. rewrite Hsuffix. reflexivity.
Qed.

Lemma expand_path_cases_witness :
  expand_path [lit "a/"] (lit "plain.txt") = Done (lit "plain.txt") /\
  expand_path [lit "a/"] (lit "$" ++ lit "0" ++ lit "$" ++ lit "x")
  = Done (lit "a/x").
Proof.
  destruct (expand_path_cases [lit "a/"] (lit "plain.txt") (lit "0") (lit "x"))
    as [Hverbatim Hreference].
  split.
  - apply Hverbatim. reflexivity.
  - apply Hreference.
    + repeat constructor.
    + vm_compute. discriminate.
    + reflexivity.
Defined.

(** C6 fails as stated: with an empty prefix table the stored path [$5$x]
    does not end the parse with an error, the table is read at index 5 (so
    for the container of the single file [$5$x], whatever [fopen] answers);
    and with a prefix of 4095 bytes the real path for [$0$x] is the prefix
    alone, the suffix is cut off. *)
Lemma expand_path_unchecked_index :
  expand_path [] (lit "$5$x") = Undefined (PrefixIndexOutOfRange 5 0) /\
  create_binary_format lone_dollar_archive
  = Done (binary_format lone_dollar_archive) /\
  (forall fopen output_directory,
     decode_container fopen output_directory
                      (binary_format lone_dollar_archive)
     = Undefined (PrefixIndexOutOfRange 5 0)) /\
  expand_path [long_prefix] (lit "$0$x") = Done long_prefix.
Proof.
  split; [vm_compute; reflexivity |].
  split; [vm_compute; reflexivity |].
  split; [intros fopen output_directory; vm_compute; reflexivity |].
  vm_compute. reflexivity.
Qed.

(** ** The stored digest *)

Section Digest.

Variable lzma_decode : list byte -> Z -> Z -> decoder_answer.
Variable fopen : nat -> list byte -> bool.
Variable output_directory : list byte.

Lemma read8_in (buf pre rest : list byte) (offset : Z) (x : byte) :
  buf = pre ++ x :: rest ->
  offset = buffer_size pre ->
  read8 buf offset = Done x.
Proof.
  intros -> ->. unfold read8. rewrite at_offset_app. reflexivity.
Qed.

(** The bytes handed to the decoder, when they are all in the buffer. *)
Lemma decoder_input_in (buf pre x rest : list byte) (offset n : Z) :
  buf = pre ++ x ++ rest ->
  offset = buffer_size pre ->
  n = buffer_size x ->
  memcpy (at_offset buf offset) n = x.
Proof. intros -> -> ->. rewrite at_offset_app. apply memcpy_app. Qed.

(** Extraction of a file written with a checksum: the 32 digest bytes are
    stepped over; what happens is decided by the decoder on the compressed
    data and by the parse of what it produces. *)
Lemma extract_checksummed (original_size : Z)
  (sha256_hash compressed_data : list byte) :
  length sha256_hash = 32%nat ->
  buffer_size compressed_data < 2 ^ 32 ->
  extract_archive lzma_decode fopen
    (archive_file true original_size sha256_hash compressed_data)
    output_directory
  = match lzma_decode compressed_data (buffer_size compressed_data)
                      (to_uint32 original_size) with
    | StreamEnd decompressed =>
        result_of (d <- decode_container fopen output_directory decompressed ;;
                   Done (Extracted d))
    | OtherAnswer | ReadsOn => DecompressionFailed
    end.
Proof.
  intros Hhash Hsize.
  pose proof (buffer_size_nonneg compressed_data) as Hnonneg.
  assert (Hosz : 0 <= to_uint32 original_size < 2 ^ 32)
    by (apply Z.mod_pos_bound; lia).
  unfold extract_archive.
  set (file := archive_file true original_size sha256_hash compressed_data).
  assert (Hfile : file
    = KUNDA_MAGIC ++
      [byte_of_Z KUNDA_VERSION; byte_of_Z COMP_LZMA_ULTRA] ++
      [byte_of_Z 6] ++
      write_uint32_be (to_uint32 original_size) ++
      write_uint32_be (buffer_size compressed_data) ++
      sha256_hash ++ compressed_data).
  { unfold file, archive_file. cbv zeta.
    rewrite (to_uint32_small (buffer_size compressed_data)) by lia.
    unfold memcpy. change (Z.to_nat 32) with 32%nat.
    rewrite <- Hhash, firstn_all. reflexivity. }
  clearbody file.
  set (w1 := write_uint32_be (to_uint32 original_size)) in *.
  set (w2 := write_uint32_be (buffer_size compressed_data)) in *.
  set (vm := [byte_of_Z KUNDA_VERSION; byte_of_Z COMP_LZMA_ULTRA]) in *.
  assert (H1 : buffer_size w1 = 4) by reflexivity.
  assert (H2 : buffer_size w2 = 4) by reflexivity.
  assert (Hh : buffer_size sha256_hash = 32)
    by (unfold buffer_size; rewrite Hhash; reflexivity).
  rewrite (read_bytes_in file [] KUNDA_MAGIC
             (vm ++ [byte_of_Z 6] ++ w1 ++ w2 ++ sha256_hash
                 ++ compressed_data));
    [| exact Hfile | reflexivity | reflexivity].
  cbn [bind]. rewrite bytes_eqb_refl. cbn [negb].
  rewrite (read8_in file (KUNDA_MAGIC ++ vm)
                    (w1 ++ w2 ++ sha256_hash ++ compressed_data) _
                    (byte_of_Z 6));
    [| rewrite Hfile, <- !app_assoc; reflexivity | reflexivity].
  cbn [bind].
  rewrite (read32_in file (KUNDA_MAGIC ++ vm ++ [byte_of_Z 6])
                     (w2 ++ sha256_hash ++ compressed_data) _
                     (to_uint32 original_size));
    [| rewrite Hfile, <- !app_assoc; reflexivity | reflexivity | exact Hosz].
  cbn [bind].
  rewrite (read32_in file (KUNDA_MAGIC ++ vm ++ [byte_of_Z 6] ++ w1)
                     (sha256_hash ++ compressed_data) _
                     (buffer_size compressed_data));
    [| rewrite Hfile, <- !app_assoc; reflexivity
     | rewrite !buffer_size_app, H1; reflexivity
     | lia].
  cbn [bind].
  replace (Z.land (Z_of_byte (byte_of_Z 6)) FLAG_CHECKSUMMED =? 0) with false
    by (vm_compute; reflexivity).
  cbv iota.
  rewrite (decoder_input_in file
             (KUNDA_MAGIC ++ vm ++ [byte_of_Z 6] ++ w1 ++ w2 ++ sha256_hash)
             compressed_data []);
    [| rewrite Hfile, <- !app_assoc, app_nil_r; reflexivity
     | rewrite !buffer_size_app, H1, H2, Hh; reflexivity
     | reflexivity].
  destruct (lzma_decode compressed_data (buffer_size compressed_data)
                        (to_uint32 original_size));
    try reflexivity.
  replace (8 + 1 + 1 + 1 + 4 + 4 + 32 + buffer_size compressed_data
           <=? buffer_size file) with true; [reflexivity |].
  symmetry. apply Z.leb_le.
  rewrite Hfile, !buffer_size_app, H1, H2, Hh.
  change (buffer_size KUNDA_MAGIC) with 8. change (buffer_size vm) with 2.
  change (buffer_size [byte_of_Z 6]) with 1. lia.
Qed.

End Digest.

(** Two archive files with the checksummed flag and the same compressed
    data: one stores 32 zero bytes as digest, the other 32 bytes [0xFF]. *)
Definition digest_zeros : list byte := repeat zero 32.
Definition digest_ones : list byte := repeat "255"%char 32.
Definition some_payload : list byte := lit "compressed payload".

(** A stand-in decoder that answers the scenario's container. *)
Definition answers_scenario (input : list byte) (avail_in avail_out : Z)
  : decoder_answer := StreamEnd (binary_format scenario).

(** C5, as the code has it.  When the checksummed flag is set, extraction
    steps over the 32 stored digest bytes and neither recomputes nor
    compares a digest: for every decoder, every output directory and all
    answers of [fopen], the result of extracting an archive file written
    with a checksum is the same whatever the 32 stored bytes are. *)
Theorem extract_ignores_stored_digest
  (lzma_decode : list byte -> Z -> Z -> decoder_answer)
  (fopen : nat -> list byte -> bool) (output_directory : list byte)
  (original_size : Z) (hash1 hash2 compressed_data : list byte) :
  length hash1 = 32%nat ->
  length hash2 = 32%nat ->
  buffer_size compressed_data < 2 ^ 32 ->
  extract_archive lzma_decode fopen
    (archive_file true original_size hash1 compressed_data) output_directory
  = extract_archive lzma_decode fopen
      (archive_file true original_size hash2 compressed_data)
      output_directory.
Proof.
  intros H1 H2 Hsize.
  rewrite !extract_checksummed by assumption. reflexivity.
Qed.

Lemma extract_ignores_stored_digest_witness :
  extract_archive answers_scenario every_path_opens
    (archive_file true 67 digest_zeros some_payload) (lit "extracted")
  = extract_archive answers_scenario every_path_opens
      (archive_file true 67 digest_ones some_payload) (lit "extracted").
Proof.
  apply (extract_ignores_stored_digest answers_scenario every_path_opens
           (lit "extracted") 67 digest_zeros digest_ones some_payload).
  - reflexivity.
  - reflexivity.
  - vm_compute. reflexivity.
Defined.

(** C5 fails as stated: the two archive files differ in their stored
    digest only, so at most one of them stores the digest of its compressed
    data; every decoder extracts them alike, and with a decoder that
    answers the scenario's container, when [fopen] gives a stream for every
    record, both extractions go through the write step for the four
    files. *)
Lemma extraction_accepts_any_digest :
  archive_file true 67 digest_zeros some_payload
    <> archive_file true 67 digest_ones some_payload /\
  (forall lzma_decode fopen output_directory,
     extract_archive lzma_decode fopen
       (archive_file true 67 digest_zeros some_payload) output_directory
     = extract_archive lzma_decode fopen
         (archive_file true 67 digest_ones some_payload) output_directory) /\
  extract_archive answers_scenario every_path_opens
    (archive_file true 67 digest_ones some_payload) (lit "extracted")
  = Extracted (mkDecoded (map prefix (prefixes scenario)) 4
                         (map member_of (files scenario)) 67).
Proof.
  split; [| split].
  - vm_compute. discriminate.
  - intros lzma_decode fopen output_directory.
    rewrite !extract_checksummed;
      [reflexivity | | | |]; try reflexivity; vm_compute; reflexivity.
  - vm_compute. reflexivity.
Qed.

(** ** Lengths that do not fit their field *)

(** A file of [0xFFFFFFFF] zero bytes, named [f]. *)
Definition big_content : list byte :=
  zero :: zero :: repeat zero (Z.to_nat 4294967293).

Definition big_file : FileEntry :=
  mkFileEntry (lit "f") big_content 4294967295 false [].

Definition sentinel : list byte :=
  ["255"%char; "255"%char; "255"%char; "255"%char].

Section Overflow.

Lemma big_content_size : buffer_size big_content = 4294967295.
Proof.
  unfold buffer_size, big_content. rewrite !length_cons, repeat_length.
  rewrite !Nat2Z.inj_succ, Z2Nat.id by lia. reflexivity.
Qed.

Lemma memcpy_all (c : list byte) (n : Z) :
  n = buffer_size c -> memcpy c n = c.
Proof.
  intros ->. unfold memcpy, buffer_size. rewrite Nat2Z.id. apply firstn_all.
Qed.

(** The container of an archive that holds the one file [f], without
    prefixes. *)
Lemma binary_format_one_file (c : list byte) (n : Z) :
  binary_format (mkArchive [mkFileEntry (lit "f") c n false []] [])
  = write_uint16_be 0 ++ write_uint32_be 1 ++
    write_uint16_be 1 ++ lit "f" ++ write_uint32_be (to_uint32 n) ++
    memcpy c n.
Proof.
  unfold binary_format, encode_file.
  cbn [files prefixes path content size is_duplicate map concat app].
  rewrite memcpy_strlen, app_nil_r. reflexivity.
Qed.

Lemma binary_format_sentinel_size (c : list byte) :
  buffer_size c = 4294967295 ->
  binary_format (mkArchive [mkFileEntry (lit "f") c 4294967295 false []] [])
  = write_uint16_be 0 ++ write_uint32_be 1 ++
    write_uint16_be 1 ++ lit "f" ++ sentinel ++ c.
Proof.
  intros Hc. rewrite binary_format_one_file.
  rewrite (memcpy_all c) by (symmetry; exact Hc).
  replace (write_uint32_be (to_uint32 4294967295)) with sentinel
    by (vm_compute; reflexivity).
  reflexivity.
Qed.

(** The parse takes that record for a duplicate: it reads the first two
    content bytes as the length of a reference, and writes nothing. *)
Lemma sentinel_size_taken_for_duplicate (fopen : nat -> list byte -> bool)
  (output_directory : list byte) (b0 b1 : byte) (r : list byte) :
  buffer_size (b0 :: b1 :: r) = 4294967295 ->
  decode_container fopen output_directory
    (binary_format
       (mkArchive [mkFileEntry (lit "f") (b0 :: b1 :: r) 4294967295 false []]
                  []))
  = Done (mkDecoded [] 1 []
            (15 + Z.lor (Z.shiftl (Z_of_byte b0) 8) (Z_of_byte b1))).
Proof.
  intros Hc. rewrite (binary_format_sentinel_size _ Hc).
  set (c := b0 :: b1 :: r) in *.
  set (buf := write_uint16_be 0 ++ write_uint32_be 1 ++
              write_uint16_be 1 ++ lit "f" ++ sentinel ++ c).
  assert (Hbuf : buf = write_uint16_be 0 ++ write_uint32_be 1 ++
                       write_uint16_be 1 ++ lit "f" ++ sentinel ++ c)
    by reflexivity.
  clearbody buf.
  unfold decode_container.
  rewrite (read16_in buf [] _ 0 0 Hbuf); [| reflexivity | lia].
  cbn [bind Z.to_nat read_prefixes].
  rewrite (read32_in buf (write_uint16_be 0)
                     (write_uint16_be 1 ++ lit "f" ++ sentinel ++ c) _ 1);
    [| exact Hbuf | reflexivity | lia].
  cbn [bind]. change (Z.to_nat 1) with 1%nat. cbn [extract_files].
  unfold extract_file.
  rewrite (read16_in buf (write_uint16_be 0 ++ write_uint32_be 1)
                     (lit "f" ++ sentinel ++ c) _ 1);
    [| rewrite Hbuf, <- !app_assoc; reflexivity | reflexivity | lia].
  cbn [bind].
  rewrite (read_bytes_in buf
             (write_uint16_be 0 ++ write_uint32_be 1 ++ write_uint16_be 1)
             (lit "f") (sentinel ++ c));
    [| rewrite Hbuf, <- !app_assoc; reflexivity | reflexivity | reflexivity].
  cbn [bind].
  replace (MAX_PATH_LEN <=? 1) with false by reflexivity.
  replace (expand_path [] (lit "f")) with (Done (lit "f")) by reflexivity.
  cbn [bind].
  rewrite (read32_in buf
             (write_uint16_be 0 ++ write_uint32_be 1 ++ write_uint16_be 1
                ++ lit "f") c _ 4294967295);
    [| rewrite Hbuf, <- !app_assoc; reflexivity | reflexivity | lia].
  cbn [bind]. rewrite Z.eqb_refl.
  assert (Hdup : read16 buf (2 + 4 + 2 + 1 + 4)
                 = Done (Z.lor (Z.shiftl (Z_of_byte b0) 8) (Z_of_byte b1))).
  { unfold read16.
    replace (at_offset buf (2 + 4 + 2 + 1 + 4)) with c; [reflexivity |].
    rewrite Hbuf.
    replace (write_uint16_be 0 ++ write_uint32_be 1 ++ write_uint16_be 1
               ++ lit "f" ++ sentinel ++ c)
      with ((write_uint16_be 0 ++ write_uint32_be 1 ++ write_uint16_be 1
               ++ lit "f" ++ sentinel) ++ c)
      by (rewrite <- !app_assoc; reflexivity).
    symmetry.
    exact (at_offset_app
             (write_uint16_be 0 ++ write_uint32_be 1 ++ write_uint16_be 1
                ++ lit "f" ++ sentinel) c). }
  replace (6 + 2 + 1 + 4) with (2 + 4 + 2 + 1 + 4) by reflexivity.
  rewrite Hdup. cbn [bind add_member]. reflexivity.
Qed.

(** That container fits the buffer allocated for it. *)
Lemma one_file_fits (c : list byte) (n : Z) :
  buffer_size c = n ->
  fits_buffer (mkArchive [mkFileEntry (lit "f") c n false []] []).
Proof.
  intros Hc. unfold fits_buffer.
  rewrite binary_format_one_file.
  rewrite (memcpy_all c n) by (symmetry; exact Hc).
  rewrite !buffer_size_app, !buffer_size_write16, !buffer_size_write32, Hc.
  unfold binary_capacity, total_size.
  cbn [files fold_left size length].
  change (buffer_size (lit "f")) with 1. lia.
Qed.

End Overflow.

(** C2, as the code has it.  The encoder checks no width and has no
    failing exit for one.  For every file list that contains a record that
    is not a duplicate and whose content length is exactly [0xFFFFFFFF], and
    whose container fits the encoder's buffer, the encoder produces the
    container, with that record written as its path length, its path, the
    four bytes [FF FF FF FF] and its content. *)
Theorem encode_writes_sentinel_length (ps : list PathPrefix)
  (before after : list FileEntry) (f : FileEntry) :
  is_duplicate f = false ->
  size f = 4294967295 ->
  fits_buffer (mkArchive (before ++ f :: after) ps) ->
  create_binary_format (mkArchive (before ++ f :: after) ps)
  = Done
      ((write_uint16_be (to_uint16 (Z.of_nat (length ps))) ++
        concat (map encode_prefix ps) ++
        write_uint32_be
          (to_uint32 (Z.of_nat (length (before ++ f :: after)))) ++
        concat (map encode_file before)) ++
       (write_uint16_be (to_uint16 (strlen (path f))) ++ cstr (path f) ++
        sentinel ++ memcpy (content f) 4294967295) ++
       concat (map encode_file after)).
Proof.
  intros Hdup Hsize Hfits.
  rewrite (create_binary_format_fits _ Hfits). f_equal.
  unfold binary_format. cbn [files prefixes].
  rewrite map_app, concat_app. cbn [map concat].
  unfold encode_file at 2. rewrite Hdup, Hsize, memcpy_strlen.
  replace (write_uint32_be (to_uint32 4294967295)) with sentinel
    by (vm_compute; reflexivity).
  rewrite <- !app_assoc. reflexivity.
Qed.

Lemma encode_writes_sentinel_length_witness :
  create_binary_format (mkArchive ([] ++ big_file :: []) [])
  = Done
      ((write_uint16_be (to_uint16 (Z.of_nat (length (@nil PathPrefix)))) ++
        concat (map encode_prefix []) ++
        write_uint32_be
          (to_uint32 (Z.of_nat (length ([] ++ big_file :: [])))) ++
        concat (map encode_file [])) ++
       (write_uint16_be (to_uint16 (strlen (path big_file))) ++
        cstr (path big_file) ++
        sentinel ++ memcpy (content big_file) 4294967295) ++
       concat (map encode_file [])).
Proof.
  apply (encode_writes_sentinel_length [] [] [] big_file).
  - reflexivity.
  - reflexivity.
  - exact (one_file_fits big_content 4294967295 big_content_size).
Defined.

(** C2 fails as stated: for the file [f] of [0xFFFFFFFF] zero bytes the
    encoder does not fail; it produces a container whose length field for
    [f] is [FF FF FF FF], and the parse of that container takes the record
    for a duplicate and writes no file, whatever [fopen] would answer. *)
Lemma encode_accepts_sentinel_length :
  is_duplicate big_file = false /\
  size big_file = buffer_size (content big_file) /\
  size big_file = 4294967295 /\
  create_binary_format (mkArchive [big_file] [])
  = Done (write_uint16_be 0 ++ write_uint32_be 1 ++
          write_uint16_be 1 ++ lit "f" ++ sentinel ++ big_content) /\
  (forall fopen output_directory,
     decode_container fopen output_directory
                      (binary_format (mkArchive [big_file] []))
     = Done (mkDecoded [] 1 [] 15)).
Proof.
  split; [reflexivity |].
  split; [symmetry; exact big_content_size |].
  split; [reflexivity |].
  split.
  - unfold big_file.
    rewrite (create_binary_format_fits _
               (one_file_fits big_content 4294967295 big_content_size)).
    rewrite (binary_format_sentinel_size big_content big_content_size).
    reflexivity.
  - intros fopen output_directory.
    exact (sentinel_size_taken_for_duplicate fopen output_directory
             zero zero _ big_content_size).
Qed.

(* ================================================================== *)
(** * Part III: further properties of the program                      *)
(* ================================================================== *)

(** ** More on the integer codec *)

Section CodecBounds.

Lemma byte_of_Z_of_byte (b : byte) : byte_of_Z (Z_of_byte b) = b.
Proof.
  unfold byte_of_Z. pose proof (Z_of_byte_range b) as H.
  rewrite Z.mod_small by lia. unfold Z_of_byte.
  rewrite N2Z.id. apply ascii_N_embedding.
Qed.

Lemma read_uint16_be_value (b0 b1 : byte) (rest : list byte) :
  read_uint16_be (b0 :: b1 :: rest)
  = Some (Z_of_byte b0 * 256 + Z_of_byte b1).
Proof.
  unfold read_uint16_be. f_equal.
  pose proof (Z_of_byte_range b0). pose proof (Z_of_byte_range b1).
  rewrite Z.shiftl_mul_pow2 by lia. change (2 ^ 8) with 256.
  apply (lor_disjoint _ _ 8); [lia | apply Z.mod_mul; lia |].
  change (2 ^ 8) with 256. lia.
Qed.

Lemma read_uint32_be_value (b0 b1 b2 b3 : byte) (rest : list byte) :
  read_uint32_be (b0 :: b1 :: b2 :: b3 :: rest)
  = Some (Z_of_byte b0 * 16777216 + Z_of_byte b1 * 65536
          + Z_of_byte b2 * 256 + Z_of_byte b3).
Proof.
  unfold read_uint32_be. f_equal.
  pose proof (Z_of_byte_range b0). pose proof (Z_of_byte_range b1).
  pose proof (Z_of_byte_range b2). pose proof (Z_of_byte_range b3).
  rewrite !Z.shiftl_mul_pow2 by lia.
  change (2 ^ 8) with 256. change (2 ^ 16) with 65536.
  change (2 ^ 24) with 16777216.
  rewrite (lor_disjoint (Z_of_byte b0 * 16777216) (Z_of_byte b1 * 65536) 24).
  - rewrite (lor_disjoint _ (Z_of_byte b2 * 256) 16).
    + apply (lor_disjoint _ _ 8); [lia | | change (2 ^ 8) with 256; lia].
      change (2 ^ 8) with 256.
      replace (Z_of_byte b0 * 16777216 + Z_of_byte b1 * 65536
               + Z_of_byte b2 * 256)
        with ((Z_of_byte b0 * 65536 + Z_of_byte b1 * 256 + Z_of_byte b2)
              * 256) by ring.
      apply Z.mod_mul. lia.
    + lia.
    + change (2 ^ 16) with 65536.
      replace (Z_of_byte b0 * 16777216 + Z_of_byte b1 * 65536)
        with ((Z_of_byte b0 * 256 + Z_of_byte b1) * 65536) by ring.
      apply Z.mod_mul. lia.
    + change (2 ^ 16) with 65536. lia.
  - lia.
  - change (2 ^ 24) with 16777216. apply Z.mod_mul. lia.
  - change (2 ^ 24) with 16777216. lia.
Qed.

Lemma write_uint16_be_low_bits (v : Z) :
  write_uint16_be v = write_uint16_be (to_uint16 v).
Proof.
  unfold write_uint16_be, to_uint16. rewrite !land_255.
  rewrite !Z.shiftr_div_pow2 by lia.
  change (2 ^ 8) with 256. change (2 ^ 16) with 65536.
  f_equal; [| f_equal]; f_equal; Z.div_mod_to_equations; lia.
Qed.

Lemma write_uint32_be_low_bits (v : Z) :
  write_uint32_be v = write_uint32_be (to_uint32 v).
Proof.
  unfold write_uint32_be, to_uint32. rewrite !land_255.
  rewrite !Z.shiftr_div_pow2 by lia.
  change (2 ^ 8) with 256. change (2 ^ 16) with 65536.
  change (2 ^ 24) with 16777216. change (2 ^ 32) with 4294967296.
  repeat (f_equal; try (f_equal; Z.div_mod_to_equations; lia)).
Qed.

End CodecBounds.

(** X3.  What the readers return fits the width: whenever
    [read_uint16_be] returns, on any buffer, its value is below 2^16, and
    whenever [read_uint32_be] returns, on any buffer, its value is below
    2^32; neither is negative. *)
Theorem read_uint_be_range (buf16 buf32 : list byte) (v16 v32 : Z) :
  (read_uint16_be buf16 = Some v16 -> 0 <= v16 < 2 ^ 16) /\
  (read_uint32_be buf32 = Some v32 -> 0 <= v32 < 2 ^ 32).
Proof.
  split.
  - intros H16.
    destruct buf16 as [| b0 [| b1 rest]]; try discriminate H16.
    rewrite read_uint16_be_value in H16. apply Some_eq in H16. subst.
    pose proof (Z_of_byte_range b0). pose proof (Z_of_byte_range b1).
    change (2 ^ 16) with 65536. lia.
  - intros H32.
    destruct buf32 as [| b0 [| b1 [| b2 [| b3 rest]]]]; try discriminate H32.
    rewrite read_uint32_be_value in H32. apply Some_eq in H32. subst.
    pose proof (Z_of_byte_range b0). pose proof (Z_of_byte_range b1).
    pose proof (Z_of_byte_range b2). pose proof (Z_of_byte_range b3).
    change (2 ^ 32) with 4294967296. lia.
Qed.

Lemma read_uint_be_range_witness :
  0 <= 65535 < 2 ^ 16 /\ 0 <= 4294967295 < 2 ^ 32.
Proof.
  destruct (read_uint_be_range ["255"%char; "255"%char] sentinel
                               65535 4294967295) as [H16 H32].
  split; [apply H16 | apply H32]; vm_compute; reflexivity.
Defined.

(** X4.  Writing back what was read restores the bytes: for every buffer,
    whenever [read_uint16_be] returns a value, [write_uint16_be] of that
    value gives the first two bytes of the buffer, and whenever
    [read_uint32_be] returns a value, [write_uint32_be] of that value gives
    the first four. *)
Theorem write_read_uint_be (buf16 buf32 : list byte) (v16 v32 : Z) :
  (read_uint16_be buf16 = Some v16 ->
   write_uint16_be v16 = firstn 2 buf16) /\
  (read_uint32_be buf32 = Some v32 ->
   write_uint32_be v32 = firstn 4 buf32).
Proof.
  split.
  - intros H16.
    destruct buf16 as [| b0 [| b1 rest]]; try discriminate H16.
    rewrite read_uint16_be_value in H16. apply Some_eq in H16. subst.
    pose proof (Z_of_byte_range b0). pose proof (Z_of_byte_range b1).
    cbn [firstn].
    unfold write_uint16_be. rewrite !land_255.
    rewrite Z.shiftr_div_pow2 by lia. change (2 ^ 8) with 256.
    replace [b0; b1]
      with [byte_of_Z (Z_of_byte b0); byte_of_Z (Z_of_byte b1)]
      by (rewrite !byte_of_Z_of_byte; reflexivity).
    f_equal; [| f_equal]; f_equal; Z.div_mod_to_equations; lia.
  - intros H32.
    destruct buf32 as [| b0 [| b1 [| b2 [| b3 rest]]]]; try discriminate H32.
    rewrite read_uint32_be_value in H32. apply Some_eq in H32. subst.
    pose proof (Z_of_byte_range b0). pose proof (Z_of_byte_range b1).
    pose proof (Z_of_byte_range b2). pose proof (Z_of_byte_range b3).
    cbn [firstn].
    unfold write_uint32_be. rewrite !land_255.
    rewrite !Z.shiftr_div_pow2 by lia.
    change (2 ^ 8) with 256. change (2 ^ 16) with 65536.
    change (2 ^ 24) with 16777216.
    replace [b0; b1; b2; b3]
      with [byte_of_Z (Z_of_byte b0); byte_of_Z (Z_of_byte b1);
            byte_of_Z (Z_of_byte b2); byte_of_Z (Z_of_byte b3)]
      by (rewrite !byte_of_Z_of_byte; reflexivity).
    repeat (f_equal; try (f_equal; Z.div_mod_to_equations; lia)).
Qed.

Lemma write_read_uint_be_witness :
  write_uint16_be 258 = firstn 2 (map byte_of_Z [1; 2; 3]) /\
  write_uint32_be 16909060 = firstn 4 (map byte_of_Z [1; 2; 3; 4; 5]).
Proof.
  destruct (write_read_uint_be (map byte_of_Z [1; 2; 3])
                               (map byte_of_Z [1; 2; 3; 4; 5])
                               258 16909060) as [H16 H32].
  split; [apply H16 | apply H32]; vm_compute; reflexivity.
Defined.

(** X5.  The writers keep the low bits of any integer and nothing else:
    for every integer [v], reading what [write_uint16_be v] stored gives
    [v mod 2^16], and reading what [write_uint32_be v] stored gives
    [v mod 2^32].  A length that does not fit its field is so written
    reduced, without notice. *)
Theorem read_write_uint_be_any (v : Z) :
  read_uint16_be (write_uint16_be v) = Some (v mod 2 ^ 16) /\
  read_uint32_be (write_uint32_be v) = Some (v mod 2 ^ 32).
Proof.
  split.
  - rewrite write_uint16_be_low_bits.
    rewrite <- (app_nil_r (write_uint16_be (to_uint16 v))).
    apply read_write_uint16. apply Z.mod_pos_bound. lia.
  - rewrite write_uint32_be_low_bits.
    rewrite <- (app_nil_r (write_uint32_be (to_uint32 v))).
    apply read_write_uint32. apply Z.mod_pos_bound. lia.
Qed.

(** ** The counting pass of [compress_paths] *)

Definition bytes_eq_dec : forall a b : list byte, {a = b} + {a <> b} :=
  list_eq_dec ascii_dec.

(** The number of times a prefix occurs among the prefixes handed to the
    counting loop. *)
Definition occurrences (occ : list (list byte)) (q : list byte) : Z :=
  Z.of_nat (count_occ bytes_eq_dec occ q).

(** What the counting loop keeps true of the table, after the prefixes
    [occ] have gone through it. *)
Record counted_table (table : list PathPrefix) (occ : list (list byte))
  : Prop := {
  counted_entries :
    Forall (fun e => c_string (prefix e) /\
                     count e = occurrences occ (prefix e)) table;
  counted_distinct : NoDup (map prefix table);
  counted_all : Z.of_nat (length table) < MAX_PREFIXES ->
                incl occ (map prefix table);
  counted_seen : incl (map prefix table) occ;
  counted_capacity : Z.of_nat (length table) <= MAX_PREFIXES
}.

(** The first entry that [find_prefix] finds, incremented. *)
Fixpoint bump (table : list PathPrefix) (p : list byte)
  : option (list PathPrefix) :=
  match table with
  | [] => None
  | e :: r =>
      if strcmp_eq (prefix e) p
      then Some (mkPathPrefix (prefix e) (count e + 1) :: r)
      else option_map (cons e) (bump r p)
  end.

Section Counting.

Lemma c_string_iff (s : list byte) :
  c_string s <-> Forall (fun c => Ascii.eqb c NUL = false) s.
Proof.
  unfold c_string. induction s as [| c r IH]; cbn.
  - split; [constructor | reflexivity].
  - destruct (Ascii.eqb c NUL) eqn:E; split.
    + discriminate.
    + intros H. inversion H; subst. congruence.
    + intros [= H]. constructor; [exact E | apply IH; exact H].
    + intros H. inversion H; subst. f_equal. apply IH. assumption.
Qed.

Lemma cstr_c_string (s : list byte) : c_string (cstr s).
Proof.
  apply c_string_iff. induction s as [| c r IH]; cbn; [constructor |].
  destruct (Ascii.eqb c NUL) eqn:E; constructor; assumption.
Qed.

Lemma c_string_firstn (n : nat) (s : list byte) :
  c_string s -> c_string (firstn n s).
Proof.
  rewrite !c_string_iff. intros H. apply Forall_forall. intros c Hc.
  rewrite Forall_forall in H. apply H.
  rewrite <- (firstn_skipn n s). apply in_or_app. left. exact Hc.
Qed.

Lemma strcmp_eq_c_string (a b : list byte) :
  c_string a -> c_string b -> (strcmp_eq a b = true <-> a = b).
Proof.
  unfold c_string, strcmp_eq. intros -> ->. apply bytes_eqb_eq.
Qed.

Lemma find_prefix_bump (p : list byte) (table : list PathPrefix) :
  forall j,
    match find_prefix table p j with
    | Some found =>
        exists i, found = (j + i)%nat /\
                  bump table p = Some (increment_at table i)
    | None => bump table p = None
    end.
Proof.
  induction table as [| e r IH]; intros j; cbn; [reflexivity |].
  destruct (strcmp_eq (prefix e) p).
  - exists 0%nat. split; [lia | reflexivity].
  - specialize (IH (S j)). destruct (find_prefix r p (S j)) as [found |].
    + destruct IH as (i & Hfound & Hbump). exists (S i).
      split; [lia |]. rewrite Hbump. reflexivity.
    + rewrite IH. reflexivity.
Qed.

Lemma count_prefix_bump (table : list PathPrefix) (p : list byte) :
  count_prefix table p
  = match bump table p with
    | Some t => t
    | None => if Z.of_nat (length table) <? MAX_PREFIXES
              then table ++ [mkPathPrefix p 1] else table
    end.
Proof.
  unfold count_prefix. pose proof (find_prefix_bump p table 0) as H.
  destruct (find_prefix table p 0) as [found |].
  - destruct H as (i & -> & ->). reflexivity.
  - rewrite H. reflexivity.
Qed.

(** [bump] succeeds exactly when some entry has the prefix, and then the
    table is the old one with that one entry counted once more. *)
Lemma bump_some (table t : list PathPrefix) (p : list byte) :
  Forall (fun e => c_string (prefix e)) table -> c_string p ->
  bump table p = Some t ->
  exists l1 e l2,
    table = l1 ++ e :: l2 /\ prefix e = p /\
    t = l1 ++ mkPathPrefix p (count e + 1) :: l2.
Proof.
  intros Htable Hp. revert t.
  induction Htable as [| e r He Hr IH]; intros t; cbn; [discriminate |].
  destruct (strcmp_eq (prefix e) p) eqn:E.
  - intros [= <-]. apply (strcmp_eq_c_string _ _ He Hp) in E.
    exists [], e, r. rewrite E. repeat split.
  - destruct (bump r p) as [t' |]; cbn; [| discriminate].
    intros [= <-]. destruct (IH t' eq_refl) as (l1 & e' & l2 & -> & <- & ->).
    exists (e :: l1), e', l2. repeat split.
Qed.

Lemma bump_none (table : list PathPrefix) (p : list byte) :
  Forall (fun e => c_string (prefix e)) table -> c_string p ->
  bump table p = None -> ~ In p (map prefix table).
Proof.
  intros Htable Hp.
  induction Htable as [| e r He Hr IH]; cbn; [tauto |].
  destruct (strcmp_eq (prefix e) p) eqn:E; [discriminate |].
  destruct (bump r p); cbn; [discriminate |].
  intros _ [H | H]; [| exact (IH eq_refl H)].
  apply (strcmp_eq_c_string _ _ He Hp) in H. congruence.
Qed.

Lemma occurrences_snoc (occ : list (list byte)) (p q : list byte) :
  occurrences (occ ++ [p]) q
  = occurrences occ q + (if bytes_eq_dec p q then 1 else 0).
Proof.
  unfold occurrences. rewrite count_occ_app. cbn.
  destruct (bytes_eq_dec p q); lia.
Qed.

Lemma occurrences_absent (occ : list (list byte)) (q : list byte) :
  ~ In q occ -> occurrences occ q = 0.
Proof.
  intros H. unfold occurrences.
  rewrite (proj1 (count_occ_not_In bytes_eq_dec occ q) H). reflexivity.
Qed.

Lemma occurrences_present (occ : list (list byte)) (q : list byte) :
  0 < occurrences occ q -> In q occ.
Proof.
  unfold occurrences. intros H.
  apply (count_occ_In bytes_eq_dec). lia.
Qed.

(** One pass of the counting loop keeps the table counted. *)
Lemma count_prefix_counted (table : list PathPrefix)
  (occ : list (list byte)) (p : list byte) :
  counted_table table occ -> c_string p ->
  counted_table (count_prefix table p) (occ ++ [p]).
Proof.
  intros [Hentries Hdistinct Hall Hseen Hcap] Hp.
  assert (Hcs : Forall (fun e => c_string (prefix e)) table).
  { eapply Forall_impl; [| exact Hentries]. intros e [H _]. exact H. }
  rewrite count_prefix_bump. destruct (bump table p) as [t |] eqn:Hbump.
  - destruct (bump_some _ _ _ Hcs Hp Hbump) as (l1 & e & l2 & -> & <- & ->).
    rewrite map_app in Hdistinct. cbn [map] in Hdistinct.
    pose proof (NoDup_remove_2 _ _ _ Hdistinct) as Hfresh.
    apply Forall_app in Hentries as [H1 H2].
    inversion H2 as [| ? ? [Hec Hecount] H2']; subst.
    assert (Hother : forall l, (forall x, In x l -> In x (l1 ++ l2)) ->
              Forall (fun e0 => c_string (prefix e0) /\
                                count e0 = occurrences occ (prefix e0)) l ->
              Forall (fun e0 => c_string (prefix e0) /\
                                count e0
                                = occurrences (occ ++ [prefix e]) (prefix e0))
                     l).
    { intros l Hin Hl. apply Forall_forall. intros x Hx.
      rewrite Forall_forall in Hl. destruct (Hl x Hx) as [Hxc Hxcount].
      split; [exact Hxc |]. rewrite occurrences_snoc, Hxcount.
      destruct (bytes_eq_dec (prefix e) (prefix x)) as [Heq |]; [| lia].
      exfalso. apply Hfresh. rewrite Heq, <- map_app.
      apply in_map. apply Hin. exact Hx. }
    constructor.
    + apply Forall_app. split.
      * apply Hother; [intros x Hx; apply in_or_app; left; exact Hx | exact H1].
      * constructor.
        -- cbn [prefix count]. split; [exact Hec |].
           rewrite occurrences_snoc, Hecount.
           destruct (bytes_eq_dec (prefix e) (prefix e)); [lia | congruence].
        -- apply Hother;
             [intros x Hx; apply in_or_app; right; exact Hx | exact H2'].
    + rewrite map_app. cbn [map prefix]. exact Hdistinct.
    + rewrite length_app in *. cbn [length] in *. intros Hroom.
      rewrite map_app. cbn [map prefix].
      apply incl_app.
      * specialize (Hall Hroom). rewrite map_app in Hall. exact Hall.
      * intros x [<- | []]. apply in_or_app. right. left. reflexivity.
    + rewrite map_app in *. cbn [map prefix] in *.
      apply incl_appl. exact Hseen.
    + rewrite length_app in *. cbn [length] in *. exact Hcap.
  - pose proof (bump_none _ _ Hcs Hp Hbump) as Hfresh.
    assert (Hold :
              Forall (fun e0 => c_string (prefix e0) /\
                                count e0 = occurrences (occ ++ [p]) (prefix e0))
                     table).
    { apply Forall_forall. intros x Hx.
      rewrite Forall_forall in Hentries.
      destruct (Hentries x Hx) as [Hxc Hxcount].
      split; [exact Hxc |]. rewrite occurrences_snoc, Hxcount.
      destruct (bytes_eq_dec p (prefix x)) as [Heq |]; [| lia].
      exfalso. apply Hfresh. rewrite Heq. apply in_map. exact Hx. }
    destruct (Z.of_nat (length table) <? MAX_PREFIXES) eqn:Hroom.
    + apply Z.ltb_lt in Hroom. constructor.
      * apply Forall_app. split; [exact Hold |].
        constructor; [| constructor]. cbn [prefix count].
        split; [exact Hp |]. rewrite occurrences_snoc.
        rewrite occurrences_absent.
        -- destruct (bytes_eq_dec p p); [lia | congruence].
        -- intros Hin. apply Hfresh. apply (Hall Hroom). exact Hin.
      * rewrite map_app. cbn [map prefix].
        apply NoDup_app; [exact Hdistinct | repeat constructor; tauto |].
        intros x Hx [<- | []]. exact (Hfresh Hx).
      * intros _. rewrite map_app. cbn [map prefix].
        apply incl_app.
        -- apply incl_appl. exact (Hall Hroom).
        -- intros x [<- | []]. apply in_or_app. right. left. reflexivity.
      * rewrite map_app. cbn [map prefix].
        apply incl_app; [apply incl_appl; exact Hseen |].
        intros x [<- | []]. apply in_or_app. right. left. reflexivity.
      * rewrite length_app. cbn [length]. lia.
    + apply Z.ltb_ge in Hroom. constructor.
      * exact Hold.
      * exact Hdistinct.
      * intros H. lia.
      * apply incl_appl. exact Hseen.
      * exact Hcap.
Qed.

Lemma counted_empty : counted_table [] [].
Proof.
  constructor; cbn.
  - constructor.
  - constructor.
  - intros _ x H. exact H.
  - intros x H. exact H.
  - unfold MAX_PREFIXES. lia.
Qed.

Lemma fold_count_prefix_counted (ps : list (list byte)) :
  Forall c_string ps ->
  forall table occ,
    counted_table table occ ->
    counted_table (fold_left count_prefix ps table) (occ ++ ps).
Proof.
  induction 1 as [| p ps Hp Hps IH]; intros table occ Hinv; cbn.
  - rewrite app_nil_r. exact Hinv.
  - replace (occ ++ p :: ps) with ((occ ++ [p]) ++ ps)
      by (rewrite <- app_assoc; reflexivity).
    apply IH. apply count_prefix_counted; assumption.
Qed.

Lemma directory_prefixes_c_string (p : list byte) :
  Forall c_string (directory_prefixes p).
Proof.
  unfold directory_prefixes. cbv zeta. apply Forall_forall. intros q Hq.
  apply in_map_iff in Hq as (k & <- & _).
  apply c_string_firstn. apply cstr_c_string.
Qed.

(** The prefixes that go through the counting loop, in order. *)
Lemma fold_count_path_counted (paths : list (list byte)) :
  forall table occ,
    counted_table table occ ->
    counted_table (fold_left count_path paths table)
                  (occ ++ concat (map directory_prefixes paths)).
Proof.
  induction paths as [| p paths IH]; intros table occ Hinv; cbn.
  - rewrite app_nil_r. exact Hinv.
  - rewrite app_assoc. apply IH. unfold count_path.
    apply fold_count_prefix_counted;
      [apply directory_prefixes_c_string | exact Hinv].
Qed.

End Counting.

(** ** What the prefix table holds *)

Definition ends_with_slash (q : list byte) : bool :=
  match rev q with
  | c :: _ => Ascii.eqb c "/"%char
  | [] => false
  end.

(** [q] is one of the directory prefixes of the path [p]: it ends in a
    slash and [p] starts with it. *)
Definition directory_prefix_of (q p : list byte) : bool :=
  ends_with_slash q && starts_with q (cstr p).

(** The paths as [archive_add_file] stored them. *)
Definition stored_paths (inputs : list (list byte * list byte))
  : list (list byte) :=
  map (fun pc => strncpy (fst pc) (MAX_PATH_LEN - 1)) inputs.

Section PrefixTable.

Lemma starts_with_iff (p s : list byte) :
  starts_with p s = true <-> exists rest, s = p ++ rest.
Proof.
  split.
  - revert s. induction p as [| x p IH]; intros s H.
    + exists s. reflexivity.
    + destruct s as [| y s]; cbn in H; [discriminate |].
      apply andb_true_iff in H as [Hxy H]. apply Ascii.eqb_eq in Hxy.
      destruct (IH s H) as [rest ->]. exists rest. subst. reflexivity.
  - intros [rest ->]. apply starts_with_app.
Qed.

Lemma slash_offsets_In (s : list byte) :
  forall j i,
    In i (slash_offsets s j) <->
    exists k, i = (j + k)%nat /\ nth_error s k = Some "/"%char.
Proof.
  induction s as [| c r IH]; intros j i; cbn [slash_offsets].
  - split; [intros [] | intros (k & _ & H)]. destruct k; discriminate.
  - destruct (Ascii.eqb_spec c "/"%char) as [-> | Hc].
    + cbn [In]. rewrite IH. split.
      * intros [<- | (k & -> & Hk)].
        -- exists 0%nat. split; [lia | reflexivity].
        -- exists (S k). split; [lia | exact Hk].
      * intros ([| k] & -> & Hk).
        -- left. lia.
        -- right. exists k. split; [lia | exact Hk].
    + rewrite IH. split.
      * intros (k & -> & Hk). exists (S k). split; [lia | exact Hk].
      * intros ([| k] & -> & Hk).
        -- cbn in Hk. congruence.
        -- exists k. split; [lia | exact Hk].
Qed.

Lemma slash_offsets_NoDup (s : list byte) :
  forall j, NoDup (slash_offsets s j).
Proof.
  induction s as [| c r IH]; intros j; cbn [slash_offsets]; [constructor |].
  destruct (Ascii.eqb c "/"%char); [| apply IH].
  constructor; [| apply IH].
  intros H. apply slash_offsets_In in H as (k & Hk & _). lia.
Qed.

Lemma firstn_succ_nth (s : list byte) (k : nat) (c : byte) :
  nth_error s k = Some c -> firstn (k + 1) s = firstn k s ++ [c].
Proof.
  revert k. induction s as [| x r IH]; intros [| k]; cbn; try discriminate.
  - intros [= ->]. reflexivity.
  - intros H. rewrite (IH k H). reflexivity.
Qed.

Lemma directory_prefixes_In (q p : list byte) :
  In q (directory_prefixes p) <-> directory_prefix_of q p = true.
Proof.
  unfold directory_prefixes, directory_prefix_of. cbv zeta.
  set (s := cstr p). rewrite in_map_iff. split.
  - intros (k & <- & Hk). apply slash_offsets_In in Hk as (k' & -> & Hk).
    cbn [Nat.add] in *. apply andb_true_iff. split.
    + unfold ends_with_slash. rewrite (firstn_succ_nth _ _ _ Hk), rev_unit.
      reflexivity.
    + apply starts_with_iff. exists (skipn (k' + 1) s).
      symmetry. apply firstn_skipn.
  - intros H. apply andb_true_iff in H as [Hend Hstart].
    apply starts_with_iff in Hstart as [rest Hs].
    unfold ends_with_slash in Hend.
    destruct (rev q) as [| c r] eqn:Hrev; [discriminate |].
    apply Ascii.eqb_eq in Hend. subst c.
    assert (Hq : q = rev r ++ ["/"%char]).
    { rewrite <- (rev_involutive q), Hrev. reflexivity. }
    exists (length (rev r)). split.
    + rewrite Hs, Hq, <- app_assoc. cbn [app].
      replace (length (rev r) + 1)%nat
        with (length (rev r ++ ["/"%char]))
        by (rewrite length_app; reflexivity).
      change (rev r ++ "/"%char :: rest)
        with (rev r ++ ["/"%char] ++ rest).
      rewrite app_assoc, firstn_app, firstn_all, Nat.sub_diag. cbn.
      apply app_nil_r.
    + apply slash_offsets_In. exists (length (rev r)). split; [lia |].
      rewrite Hs, Hq, <- app_assoc. cbn [app]. apply nth_error_middle.
Qed.

Lemma directory_prefixes_NoDup (p : list byte) :
  NoDup (directory_prefixes p).
Proof.
  unfold directory_prefixes. cbv zeta. set (s := cstr p).
  apply NoDup_map_NoDup_ForallPairs; [| apply slash_offsets_NoDup].
  intros x y Hx Hy Heq.
  apply slash_offsets_In in Hx as (kx & -> & Hkx).
  apply slash_offsets_In in Hy as (ky & -> & Hky).
  assert (kx < length s)%nat by (apply nth_error_Some; congruence).
  assert (ky < length s)%nat by (apply nth_error_Some; congruence).
  apply (f_equal (@length byte)) in Heq. rewrite !length_firstn in Heq. lia.
Qed.

Lemma occurrences_directory_prefixes (q p : list byte) :
  occurrences (directory_prefixes p) q
  = if directory_prefix_of q p then 1 else 0.
Proof.
  unfold occurrences.
  pose proof (proj1 (NoDup_count_occ bytes_eq_dec (directory_prefixes p))
                    (directory_prefixes_NoDup p) q) as Hle.
  destruct (directory_prefix_of q p) eqn:E.
  - apply directory_prefixes_In in E.
    apply (count_occ_In bytes_eq_dec) in E. lia.
  - assert (H : ~ In q (directory_prefixes p)).
    { intros H. apply directory_prefixes_In in H. congruence. }
    rewrite (proj1 (count_occ_not_In bytes_eq_dec _ q) H). reflexivity.
Qed.

Lemma occurrences_app (l1 l2 : list (list byte)) (q : list byte) :
  occurrences (l1 ++ l2) q = occurrences l1 q + occurrences l2 q.
Proof. unfold occurrences. rewrite count_occ_app. lia. Qed.

Lemma occurrences_all_directory_prefixes (paths : list (list byte))
  (q : list byte) :
  occurrences (concat (map directory_prefixes paths)) q
  = Z.of_nat (length (filter (directory_prefix_of q) paths)).
Proof.
  induction paths as [| p paths IH]; cbn [map concat filter];
    [reflexivity |].
  rewrite occurrences_app, IH, occurrences_directory_prefixes.
  destruct (directory_prefix_of q p); cbn [length]; lia.
Qed.

Lemma scan_files_from (inputs : list (list byte * list byte)) :
  forall a : Archive,
    files
      (fold_left
         (fun a pc => archive_add_file a (fst pc) (snd pc)
                        (Z.of_nat (length (snd pc))))
         inputs a)
    = files a ++
      map (fun pc => mkFileEntry (strncpy (fst pc) (MAX_PATH_LEN - 1))
                                 (snd pc) (Z.of_nat (length (snd pc)))
                                 false [])
          inputs.
Proof.
  induction inputs as [| pc inputs IH]; intros a; cbn [fold_left map].
  - symmetry. apply app_nil_r.
  - rewrite IH. cbn [archive_add_file files]. rewrite <- app_assoc.
    reflexivity.
Qed.

Lemma scan_files (inputs : list (list byte * list byte)) :
  files (scan inputs)
  = map (fun pc => mkFileEntry (strncpy (fst pc) (MAX_PATH_LEN - 1))
                               (snd pc) (Z.of_nat (length (snd pc)))
                               false [])
        inputs.
Proof. unfold scan. rewrite scan_files_from. reflexivity. Qed.

Lemma scan_paths (inputs : list (list byte * list byte)) :
  map path (files (scan inputs)) = stored_paths inputs.
Proof.
  rewrite scan_files, map_map. reflexivity.
Qed.

Lemma compress_paths_files (a : Archive) :
  files (compress_paths a) = files a.
Proof.
  unfold compress_paths. destruct (length (files a) <=? 1)%nat; reflexivity.
Qed.

(** The table that [compress_paths] leaves for a scanned directory: empty
    for at most one file, else the counted table, filtered and sorted. *)
Lemma compress_paths_scan (inputs : list (list byte * list byte)) :
  exists counted,
    counted_table counted
      (concat (map directory_prefixes (stored_paths inputs))) /\
    ((length inputs <= 1)%nat /\
       prefixes (compress_paths (scan inputs)) = [] \/
     (1 < length inputs)%nat /\
       Permutation (filter_used counted)
                   (prefixes (compress_paths (scan inputs)))).
Proof.
  exists (fold_left count_path (stored_paths inputs) []). split.
  - exact (fold_count_path_counted (stored_paths inputs) [] []
                                   counted_empty).
  - unfold compress_paths. rewrite scan_paths.
    assert (Hlen : length (files (scan inputs)) = length inputs)
      by (rewrite scan_files; apply length_map).
    rewrite Hlen.
    destruct (length inputs <=? 1)%nat eqn:E.
    + left. apply Nat.leb_le in E. split; [exact E |].
      unfold scan. rewrite scan_prefixes_from. reflexivity.
    + right. apply Nat.leb_gt in E. split; [exact E |].
      cbn [prefixes].
      replace (prefixes (scan inputs)) with (@nil PathPrefix)
        by (unfold scan; rewrite scan_prefixes_from; reflexivity).
      apply sort_by_length_sorted.
Qed.

Lemma filter_length_le {A} (f : A -> bool) (l : list A) :
  (length (filter f l) <= length l)%nat.
Proof.
  induction l as [| x l IH]; cbn; [lia |]. destruct (f x); cbn; lia.
Qed.

Lemma NoDup_map_filter {A B} (f : A -> B) (g : A -> bool) (l : list A) :
  NoDup (map f l) -> NoDup (map f (filter g l)).
Proof.
  induction l as [| x l IH]; cbn; [intros H; exact H |].
  intros H. inversion H as [| ? ? Hx Hl]; subst.
  destruct (g x); cbn; [| apply IH; exact Hl].
  constructor; [| apply IH; exact Hl].
  intros Hin. apply Hx. apply in_map_iff in Hin as (y & Hy & Hin).
  apply in_map_iff. exists y. split; [exact Hy |].
  apply filter_In in Hin. tauto.
Qed.

(** Every entry of the final table was counted, has a C string for
    prefix, and its count is the number of stored paths under it. *)
Lemma compress_paths_entry (inputs : list (list byte * list byte))
  (e : PathPrefix) :
  In e (prefixes (compress_paths (scan inputs))) ->
  c_string (prefix e) /\
  3 <= count e /\
  count e
  = Z.of_nat (length (filter (directory_prefix_of (prefix e))
                             (stored_paths inputs))).
Proof.
  intros Hin.
  destruct (compress_paths_scan inputs)
    as (counted & Hcounted & [[_ Hnil] | [_ Hperm]]).
  - rewrite Hnil in Hin. destruct Hin.
  - apply (Permutation_in _ (Permutation_sym Hperm)) in Hin.
    apply filter_In in Hin as [Hin Hcount]. apply Z.leb_le in Hcount.
    pose proof (counted_entries _ _ Hcounted) as Hentries.
    rewrite Forall_forall in Hentries.
    destruct (Hentries e Hin) as [Hc Hocc].
    rewrite occurrences_all_directory_prefixes in Hocc. tauto.
Qed.

End PrefixTable.

Section PrefixTableFacts.

Lemma stored_path_short (inputs : list (list byte * list byte))
  (p : list byte) :
  In p (stored_paths inputs) ->
  c_string p /\ Z.of_nat (length p) < MAX_PATH_LEN.
Proof.
  unfold stored_paths. intros H. apply in_map_iff in H as (pc & <- & _).
  unfold strncpy. split.
  - apply c_string_firstn, cstr_c_string.
  - rewrite length_firstn. unfold MAX_PATH_LEN. lia.
Qed.

Lemma filter_nonempty_In {A} (f : A -> bool) (l : list A) :
  (0 < length (filter f l))%nat -> exists x, In x l /\ f x = true.
Proof.
  destruct (filter f l) as [| x r] eqn:E; cbn; [lia |]. intros _.
  exists x. apply filter_In. rewrite E. left. reflexivity.
Qed.

Lemma directory_prefix_shorter (q p : list byte) :
  directory_prefix_of q p = true ->
  ends_with_slash q = true /\ (length q <= length (cstr p))%nat.
Proof.
  unfold directory_prefix_of. intros H.
  apply andb_true_iff in H as [Hend Hstart]. split; [exact Hend |].
  apply starts_with_iff in Hstart as [rest ->]. rewrite length_app. lia.
Qed.

End PrefixTableFacts.

(** X6.  The count of every entry that [compress_paths] retains for a
    scanned directory is the number of stored paths that lie under the
    entry's prefix (that start with it, the prefix ending in a slash), and
    that number is at least three.  The cap on the table does not distort
    the counts of the entries that are in it. *)
Theorem compress_paths_counts (inputs : list (list byte * list byte))
  (e : PathPrefix) :
  In e (prefixes (compress_paths (scan inputs))) ->
  count e
  = Z.of_nat (length (filter (directory_prefix_of (prefix e))
                             (stored_paths inputs))) /\
  3 <= count e.
Proof.
  intros Hin. destruct (compress_paths_entry inputs e Hin) as (_ & H3 & Hc).
  split; assumption.
Qed.

Lemma compress_paths_counts_witness :
  3 = Z.of_nat
        (length
           (filter (directory_prefix_of (lit "a/b/"))
                   (stored_paths
                      [entry "a/b/f1" "x"; entry "a/b/f2" "";
                       entry "a/c/f3" "y"; entry "a/b/f4" "x"]))) /\
  3 <= 3.
Proof.
  apply (compress_paths_counts
           [entry "a/b/f1" "x"; entry "a/b/f2" "";
            entry "a/c/f3" "y"; entry "a/b/f4" "x"]
           (mkPathPrefix (lit "a/b/") 3)).
  vm_compute. left. reflexivity.
Defined.

(** The shape of the table. *)
Lemma compress_paths_shape (inputs : list (list byte * list byte)) :
  let table := prefixes (compress_paths (scan inputs)) in
  Z.of_nat (length table) <= MAX_PREFIXES /\
  NoDup (map prefix table) /\
  Forall (fun e => c_string (prefix e) /\
                   ends_with_slash (prefix e) = true /\
                   strlen (prefix e) < MAX_PATH_LEN) table.
Proof.
  cbv zeta. split; [| split].
  - destruct (compress_paths_scan inputs)
      as (counted & Hcounted & [[_ ->] | [_ Hperm]]).
    + cbn. unfold MAX_PREFIXES. lia.
    + rewrite <- (Permutation_length Hperm).
      pose proof (counted_capacity _ _ Hcounted).
      pose proof (filter_length_le (fun e => 3 <=? count e) counted).
      unfold filter_used. lia.
  - destruct (compress_paths_scan inputs)
      as (counted & Hcounted & [[_ ->] | [_ Hperm]]).
    + constructor.
    + apply (Permutation_NoDup (Permutation_map prefix Hperm)).
      apply NoDup_map_filter. exact (counted_distinct _ _ Hcounted).
  - apply Forall_forall. intros e Hin.
    destruct (compress_paths_entry inputs e Hin) as (Hc & H3 & Hcount).
    split; [exact Hc |].
    destruct (filter_nonempty_In (directory_prefix_of (prefix e))
                                 (stored_paths inputs))
      as (p & Hp & Hdir); [lia |].
    destruct (directory_prefix_shorter _ _ Hdir) as [Hend Hlen].
    split; [exact Hend |].
    destruct (stored_path_short inputs p Hp) as [Hpc Hpl].
    rewrite Hpc in Hlen. rewrite (strlen_c_string _ Hc).
    unfold buffer_size. lia.
Qed.

(** X7.  The table that [compress_paths] leaves for a scanned directory
    never has more than [MAX_PREFIXES] entries, no prefix appears in it
    twice, and every prefix in it is a C string that ends in a slash and is
    shorter than [MAX_PATH_LEN]. *)
Theorem compress_paths_table_shape (inputs : list (list byte * list byte)) :
  let table := prefixes (compress_paths (scan inputs)) in
  Z.of_nat (length table) <= MAX_PREFIXES /\
  NoDup (map prefix table) /\
  Forall (fun e => c_string (prefix e) /\
                   ends_with_slash (prefix e) = true /\
                   strlen (prefix e) < MAX_PATH_LEN) table.
Proof. exact (compress_paths_shape inputs). Qed.

(** X8.  When the stored paths have fewer than [MAX_PREFIXES] distinct
    directory prefixes, the table that [compress_paths] leaves holds
    exactly the directory prefixes that at least three stored paths lie
    under. *)
Theorem compress_paths_retains_shared_prefixes
  (inputs : list (list byte * list byte)) (q : list byte) :
  Z.of_nat
    (length (nodup bytes_eq_dec
                   (concat (map directory_prefixes (stored_paths inputs)))))
  < MAX_PREFIXES ->
  (In q (map prefix (prefixes (compress_paths (scan inputs)))) <->
   (3 <= length (filter (directory_prefix_of q) (stored_paths inputs)))%nat).
Proof.
  intros Hfew. split.
  - intros Hin. apply in_map_iff in Hin as (e & <- & Hin).
    destruct (compress_paths_entry inputs e Hin) as (_ & H3 & Hcount). lia.
  - intros H3.
    destruct (compress_paths_scan inputs)
      as (counted & Hcounted & [[Hone Hnil] | [_ Hperm]]).
    + exfalso.
      pose proof (filter_length_le (directory_prefix_of q)
                                   (stored_paths inputs)) as Hle.
      unfold stored_paths in Hle at 2. rewrite length_map in Hle. lia.
    + set (occ := concat (map directory_prefixes (stored_paths inputs))) in *.
      assert (Hroom : Z.of_nat (length counted) < MAX_PREFIXES).
      { assert (Hle : (length (map prefix counted)
                       <= length (nodup bytes_eq_dec occ))%nat).
        { apply NoDup_incl_length;
            [exact (counted_distinct _ _ Hcounted) |].
          intros x Hx. apply nodup_In.
          exact (counted_seen _ _ Hcounted x Hx). }
        rewrite length_map in Hle. lia. }
      assert (Hq : In q occ).
      { apply occurrences_present. unfold occ.
        rewrite occurrences_all_directory_prefixes. lia. }
      apply (counted_all _ _ Hcounted Hroom) in Hq.
      apply in_map_iff in Hq as (e & <- & He).
      apply in_map. apply (Permutation_in _ Hperm).
      apply filter_In. split; [exact He |]. apply Z.leb_le.
      pose proof (counted_entries _ _ Hcounted) as Hentries.
      rewrite Forall_forall in Hentries.
      destruct (Hentries e He) as [_ Hocc]. rewrite Hocc. unfold occ.
      rewrite occurrences_all_directory_prefixes. lia.
Qed.

Lemma compress_paths_retains_shared_prefixes_witness :
  In (lit "a/")
     (map prefix
          (prefixes
             (compress_paths
                (scan [entry "a/b/f1" "x"; entry "a/b/f2" "";
                       entry "a/c/f3" "y"; entry "a/b/f4" "x"])))) <->
  (3 <= length
          (filter (directory_prefix_of (lit "a/"))
                  (stored_paths
                     [entry "a/b/f1" "x"; entry "a/b/f2" "";
                      entry "a/c/f3" "y"; entry "a/b/f4" "x"])))%nat.
Proof.
  apply (compress_paths_retains_shared_prefixes
           [entry "a/b/f1" "x"; entry "a/b/f2" "";
            entry "a/c/f3" "y"; entry "a/b/f4" "x"] (lit "a/")).
  vm_compute. reflexivity.
Defined.

(** ** The header of the archive file *)

Section Header.

Variable lzma_decode : list byte -> Z -> Z -> decoder_answer.
Variable fopen : nat -> list byte -> bool.
Variable output_directory : list byte.

Lemma extract_plain (original_size : Z)
  (sha256_hash compressed_data : list byte) :
  buffer_size compressed_data < 2 ^ 32 ->
  extract_archive lzma_decode fopen
    (archive_file false original_size sha256_hash compressed_data)
    output_directory
  = match lzma_decode compressed_data (buffer_size compressed_data)
                      (to_uint32 original_size) with
    | StreamEnd decompressed =>
        result_of (d <- decode_container fopen output_directory decompressed ;;
                   Done (Extracted d))
    | OtherAnswer | ReadsOn => DecompressionFailed
    end.
Proof.
  intros Hsize.
  pose proof (buffer_size_nonneg compressed_data) as Hnonneg.
  assert (Hosz : 0 <= to_uint32 original_size < 2 ^ 32)
    by (apply Z.mod_pos_bound; lia).
  unfold extract_archive.
  set (file := archive_file false original_size sha256_hash compressed_data).
  assert (Hfile : file
    = KUNDA_MAGIC ++
      [byte_of_Z KUNDA_VERSION; byte_of_Z COMP_LZMA_ULTRA] ++
      [byte_of_Z 4] ++
      write_uint32_be (to_uint32 original_size) ++
      write_uint32_be (buffer_size compressed_data) ++
      compressed_data).
  { unfold file, archive_file. cbv zeta.
    rewrite (to_uint32_small (buffer_size compressed_data)) by lia.
    reflexivity. }
  clearbody file.
  set (w1 := write_uint32_be (to_uint32 original_size)) in *.
  set (w2 := write_uint32_be (buffer_size compressed_data)) in *.
  set (vm := [byte_of_Z KUNDA_VERSION; byte_of_Z COMP_LZMA_ULTRA]) in *.
  assert (H1 : buffer_size w1 = 4) by reflexivity.
  assert (H2 : buffer_size w2 = 4) by reflexivity.
  rewrite (read_bytes_in file [] KUNDA_MAGIC
             (vm ++ [byte_of_Z 4] ++ w1 ++ w2 ++ compressed_data));
    [| exact Hfile | reflexivity | reflexivity].
  cbn [bind]. rewrite bytes_eqb_refl. cbn [negb].
  rewrite (read8_in file (KUNDA_MAGIC ++ vm)
                    (w1 ++ w2 ++ compressed_data) _
                    (byte_of_Z 4));
    [| rewrite Hfile, <- !app_assoc; reflexivity | reflexivity].
  cbn [bind].
  rewrite (read32_in file (KUNDA_MAGIC ++ vm ++ [byte_of_Z 4])
                     (w2 ++ compressed_data) _
                     (to_uint32 original_size));
    [| rewrite Hfile, <- !app_assoc; reflexivity | reflexivity | exact Hosz].
  cbn [bind].
  rewrite (read32_in file (KUNDA_MAGIC ++ vm ++ [byte_of_Z 4] ++ w1)
                     compressed_data _
                     (buffer_size compressed_data));
    [| rewrite Hfile, <- !app_assoc; reflexivity
     | rewrite !buffer_size_app, H1; reflexivity
     | lia].
  cbn [bind].
  replace (Z.land (Z_of_byte (byte_of_Z 4)) FLAG_CHECKSUMMED =? 0) with true
    by (vm_compute; reflexivity).
  cbv iota.
  rewrite (decoder_input_in file
             (KUNDA_MAGIC ++ vm ++ [byte_of_Z 4] ++ w1 ++ w2)
             compressed_data []);
    [| rewrite Hfile, <- !app_assoc, app_nil_r; reflexivity
     | rewrite !buffer_size_app, H1, H2; reflexivity
     | reflexivity].
  destruct (lzma_decode compressed_data (buffer_size compressed_data)
                        (to_uint32 original_size));
    try reflexivity.
  replace (8 + 1 + 1 + 1 + 4 + 4 + buffer_size compressed_data
           <=? buffer_size file) with true; [reflexivity |].
  symmetry. apply Z.leb_le.
  rewrite Hfile, !buffer_size_app, H1, H2.
  change (buffer_size KUNDA_MAGIC) with 8. change (buffer_size vm) with 2.
  change (buffer_size [byte_of_Z 4]) with 1. lia.
Qed.

(** Extraction of a file that [create_archive] wrote, with or without a
    checksum. *)
Lemma extract_archive_file (checksum : bool) (original_size : Z)
  (sha256_hash compressed_data : list byte) :
  length sha256_hash = 32%nat ->
  buffer_size compressed_data < 2 ^ 32 ->
  extract_archive lzma_decode fopen
    (archive_file checksum original_size sha256_hash compressed_data)
    output_directory
  = match lzma_decode compressed_data (buffer_size compressed_data)
                      (to_uint32 original_size) with
    | StreamEnd decompressed =>
        result_of (d <- decode_container fopen output_directory decompressed ;;
                   Done (Extracted d))
    | OtherAnswer | ReadsOn => DecompressionFailed
    end.
Proof.
  intros Hhash Hsize. destruct checksum.
  - apply extract_checksummed; assumption.
  - apply extract_plain; assumption.
Qed.

(** The result is "Invalid Kunda archive" exactly when the first eight
    bytes are there and are not the signature. *)
Lemma extract_archive_invalid (archive_data : list byte) :
  extract_archive lzma_decode fopen archive_data output_directory
  = InvalidArchive <->
  8 <= buffer_size archive_data /\ firstn 8 archive_data <> KUNDA_MAGIC.
Proof.
  unfold extract_archive, read_bytes.
  change (0 + 8) with 8.
  destruct (8 <=? buffer_size archive_data) eqn:E8; cbn [bind result_of].
  - apply Z.leb_le in E8.
    change (memcpy (at_offset archive_data 0) 8) with (firstn 8 archive_data).
    destruct (bytes_eqb (firstn 8 archive_data) KUNDA_MAGIC) eqn:Em;
      cbn [negb].
    + apply bytes_eqb_eq in Em. split; [| intros [_ H]; contradiction].
      intros H. exfalso. revert H.
      destruct (read8 archive_data (8 + 1 + 1)); cbn [bind result_of];
        [| discriminate].
      destruct (read32 archive_data (8 + 1 + 1 + 1)); cbn [bind result_of];
        [| discriminate].
      destruct (read32 archive_data (8 + 1 + 1 + 1 + 4));
        cbn [bind result_of]; [| discriminate].
      cbv zeta.
      match goal with
      | |- context [lzma_decode ?input ?avail_in ?avail_out] =>
          destruct (lzma_decode input avail_in avail_out)
            as [decompressed | |]
      end.
      * destruct (decode_container fopen output_directory decompressed);
          cbn [bind result_of]; discriminate.
      * cbn [result_of]. discriminate.
      * match goal with
        | |- context [if ?c then _ else _] => destruct c
        end; cbn [result_of]; discriminate.
    + split; [| reflexivity]. intros _. split; [exact E8 |].
      intros H. apply bytes_eqb_eq in H. congruence.
  - apply Z.leb_gt in E8. split; [discriminate | intros [H _]; lia].
Qed.

End Header.

(** X10.  [extract_archive] answers "Invalid Kunda archive" exactly when
    the file has at least eight bytes and they are not the signature
    [KUNDA\0\0\0]; the version and method bytes and the flag bits other
    than the checksum flag take no part in that answer.  A file shorter
    than eight bytes is not rejected: the comparison reads past its end. *)
Theorem extract_archive_invalid_signature
  (lzma_decode : list byte -> Z -> Z -> decoder_answer)
  (fopen : nat -> list byte -> bool)
  (archive_data output_directory : list byte) :
  (extract_archive lzma_decode fopen archive_data output_directory
   = InvalidArchive <->
   8 <= buffer_size archive_data /\ firstn 8 archive_data <> KUNDA_MAGIC) /\
  (buffer_size archive_data < 8 ->
   extract_archive lzma_decode fopen archive_data output_directory
   = ExtractUndefined (ReadPastEnd 0 8 (buffer_size archive_data))).
Proof.
  split; [apply extract_archive_invalid |].
  intros Hshort. unfold extract_archive, read_bytes. change (0 + 8) with 8.
  replace (8 <=? buffer_size archive_data) with false
    by (symmetry; apply Z.leb_gt; exact Hshort).
  reflexivity.
Qed.

Lemma extract_archive_invalid_signature_witness :
  extract_archive answers_scenario every_path_opens (lit "KUNDA")
                  (lit "extracted")
  = ExtractUndefined (ReadPastEnd 0 8 (buffer_size (lit "KUNDA"))).
Proof.
  apply (proj2 (extract_archive_invalid_signature answers_scenario
                  every_path_opens (lit "KUNDA") (lit "extracted"))).
  vm_compute. reflexivity.
Defined.

(** X19.  The header that phase 6 of [create_archive] writes is read back
    field by field, with or without a digest: for compressed data of fewer
    than 2^32 bytes, extraction hands the decoder exactly the compressed
    data, their number, and as room for its output the original size modulo
    2^32; its result is "Decompression failed" when the decoder does not
    report the end of the stream, and otherwise that of the parse of what
    the decoder produced. *)
Theorem header_round_trip
  (lzma_decode : list byte -> Z -> Z -> decoder_answer)
  (fopen : nat -> list byte -> bool) (output_directory : list byte)
  (checksum : bool) (original_size : Z)
  (sha256_hash compressed_data : list byte) :
  length sha256_hash = 32%nat ->
  buffer_size compressed_data < 2 ^ 32 ->
  extract_archive lzma_decode fopen
    (archive_file checksum original_size sha256_hash compressed_data)
    output_directory
  = match lzma_decode compressed_data (buffer_size compressed_data)
                      (original_size mod 2 ^ 32) with
    | StreamEnd decompressed =>
        result_of (d <- decode_container fopen output_directory decompressed ;;
                   Done (Extracted d))
    | OtherAnswer | ReadsOn => DecompressionFailed
    end.
Proof. apply extract_archive_file. Qed.

Lemma header_round_trip_witness :
  extract_archive answers_scenario every_path_opens
    (archive_file false (2 ^ 32 + 67) digest_zeros some_payload)
    (lit "extracted")
  = match answers_scenario some_payload (buffer_size some_payload)
                           ((2 ^ 32 + 67) mod 2 ^ 32) with
    | StreamEnd decompressed =>
        result_of (d <- decode_container every_path_opens (lit "extracted")
                                         decompressed ;;
                   Done (Extracted d))
    | OtherAnswer | ReadsOn => DecompressionFailed
    end.
Proof.
  apply (header_round_trip answers_scenario every_path_opens
           (lit "extracted") false (2 ^ 32 + 67) digest_zeros some_payload).
  - reflexivity.
  - vm_compute. reflexivity.
Defined.

Section HeaderCut.

Lemma read8_extend (b rest : list byte) (offset : Z) :
  read8 b offset = Undefined (ReadPastEnd offset 1 (buffer_size b)) \/
  read8 (b ++ rest) offset = read8 b offset.
Proof.
  unfold read8. rewrite at_offset_extend.
  destruct (at_offset b offset) as [| b0 r]; cbn;
    [left; reflexivity | right; reflexivity].
Qed.

(** The header that phase 6 writes, field by field. *)
Lemma archive_file_layout (checksum : bool) (original_size : Z)
  (sha256_hash compressed_data : list byte) :
  length sha256_hash = 32%nat ->
  buffer_size compressed_data < 2 ^ 32 ->
  exists flags digest,
    Z.land (Z_of_byte flags) FLAG_CHECKSUMMED
    = (if checksum then 2 else 0) /\
    buffer_size digest = (if checksum then 32 else 0) /\
    archive_file checksum original_size sha256_hash compressed_data
    = KUNDA_MAGIC ++
      [byte_of_Z KUNDA_VERSION; byte_of_Z COMP_LZMA_ULTRA] ++ [flags] ++
      write_uint32_be (to_uint32 original_size) ++
      write_uint32_be (buffer_size compressed_data) ++
      digest ++ compressed_data.
Proof.
  intros Hhash Hsize.
  pose proof (buffer_size_nonneg compressed_data) as Hnonneg.
  unfold archive_file. cbv zeta.
  rewrite (to_uint32_small (buffer_size compressed_data)) by lia.
  destruct checksum.
  - exists (byte_of_Z 6), sha256_hash. split; [reflexivity |].
    split; [unfold buffer_size; rewrite Hhash; reflexivity |].
    unfold memcpy. change (Z.to_nat 32) with 32%nat.
    rewrite <- Hhash, firstn_all. reflexivity.
  - exists (byte_of_Z 4), []. split; [reflexivity |].
    split; reflexivity.
Qed.

(** The bytes handed to the decoder when the file is cut: those of the
    compressed data that lie before the cut. *)
Lemma decoder_input_cut (file pre compressed_data : list byte) (k h : nat)
  (offset n : Z) :
  file = pre ++ compressed_data ->
  h = length pre ->
  offset = Z.of_nat h ->
  n = buffer_size compressed_data ->
  (k < length file)%nat ->
  memcpy (at_offset (firstn k file) offset) n
  = firstn (k - h) compressed_data.
Proof.
  intros -> -> -> -> Hk. unfold memcpy, at_offset, buffer_size.
  rewrite !Nat2Z.id.
  rewrite skipn_firstn_comm, skipn_app, skipn_all, Nat.sub_diag.
  cbn [app skipn]. rewrite firstn_firstn. f_equal.
  rewrite length_app in Hk. lia.
Qed.

Lemma firstn_past (pre tail : list byte) (k : nat) :
  (length pre <= k)%nat ->
  firstn k (pre ++ tail) = pre ++ firstn (k - length pre) tail.
Proof.
  intros Hk. rewrite firstn_app, firstn_all2 by exact Hk. reflexivity.
Qed.

End HeaderCut.

(** A stand-in decoder that does not recognise its input. *)
Definition format_error (input : list byte) (avail_in avail_out : Z)
  : decoder_answer := OtherAnswer.

(** X11.  [extract_archive] checks no header field against the size of the
    file, and does not itself diagnose a file that [create_archive] wrote
    and that was cut at a byte offset.  Cut inside the 19 bytes of the
    header, extraction reads past the end of the bytes it has.  Cut later,
    the decoder is handed the position after the header and
    [compressed_size] as the header announces it, though only the bytes
    before the cut are there, and the result is the decoder's: the parse of
    what it produced when it reports the end of the stream, "Decompression
    failed" on any other answer, and a read past the end of the file when
    the decoder goes on reading. *)
Theorem extract_truncated_archive_file
  (lzma_decode : list byte -> Z -> Z -> decoder_answer)
  (fopen : nat -> list byte -> bool) (output_directory : list byte)
  (checksum : bool) (original_size : Z)
  (sha256_hash compressed_data : list byte) (k : nat) :
  length sha256_hash = 32%nat ->
  buffer_size compressed_data < 2 ^ 32 ->
  (k < length (archive_file checksum original_size sha256_hash
                            compressed_data))%nat ->
  ((k < 19)%nat ->
   exists offset n,
     extract_archive lzma_decode fopen
       (firstn k (archive_file checksum original_size sha256_hash
                               compressed_data))
       output_directory
     = ExtractUndefined (ReadPastEnd offset n (Z.of_nat k))) /\
  ((19 <= k)%nat ->
   extract_archive lzma_decode fopen
     (firstn k (archive_file checksum original_size sha256_hash
                             compressed_data))
     output_directory
   = match lzma_decode
             (firstn (k - (if checksum then 51 else 19)) compressed_data)
             (buffer_size compressed_data) (to_uint32 original_size) with
     | StreamEnd decompressed =>
         result_of (d <- decode_container fopen output_directory
                                          decompressed ;;
                    Done (Extracted d))
     | OtherAnswer => DecompressionFailed
     | ReadsOn =>
         ExtractUndefined
           (ReadPastEnd (if checksum then 51 else 19)
                        (buffer_size compressed_data) (Z.of_nat k))
     end).
Proof.
  intros Hhash Hsize Hk.
  pose proof (buffer_size_nonneg compressed_data) as Hnonneg.
  assert (Hosz : 0 <= to_uint32 original_size < 2 ^ 32)
    by (apply Z.mod_pos_bound; lia).
  destruct (archive_file_layout checksum original_size sha256_hash
              compressed_data Hhash Hsize)
    as (flags & digest & Hflags & Hdigest & Hfile).
  set (file := archive_file checksum original_size sha256_hash
                            compressed_data) in *.
  clearbody file.
  set (w1 := write_uint32_be (to_uint32 original_size)) in *.
  set (w2 := write_uint32_be (buffer_size compressed_data)) in *.
  set (vm := [byte_of_Z KUNDA_VERSION; byte_of_Z COMP_LZMA_ULTRA]) in *.
  assert (H1 : buffer_size w1 = 4) by reflexivity.
  assert (H2 : buffer_size w2 = 4) by reflexivity.
  assert (Hb : buffer_size (firstn k file) = Z.of_nat k)
    by (unfold buffer_size; rewrite length_firstn; lia).
  assert (Hlen : buffer_size file
                 = 19 + buffer_size digest + buffer_size compressed_data).
  { rewrite Hfile, !buffer_size_app, H1, H2.
    change (buffer_size KUNDA_MAGIC) with 8.
    change (buffer_size vm) with 2.
    change (buffer_size [flags]) with 1. lia. }
  split.
  - intros Hshort.
    set (b := firstn k file) in *. set (rest := skipn k file).
    assert (Hsplit : b ++ rest = file) by apply firstn_skipn.
    unfold extract_archive.
    destruct (read_bytes_extend b rest 0 8) as [H | H]; [lia | |].
    { rewrite H, Hb. cbn [bind result_of]. eauto. }
    rewrite <- H, Hsplit.
    rewrite (read_bytes_in file [] KUNDA_MAGIC
               (vm ++ [flags] ++ w1 ++ w2 ++ digest ++ compressed_data));
      [| exact Hfile | reflexivity | reflexivity].
    cbn [bind]. rewrite bytes_eqb_refl. cbn [negb].
    destruct (read8_extend b rest (8 + 1 + 1)) as [H8 | H8].
    { rewrite H8, Hb. cbn [bind result_of]. eauto. }
    rewrite <- H8, Hsplit.
    rewrite (read8_in file (KUNDA_MAGIC ++ vm)
                      (w1 ++ w2 ++ digest ++ compressed_data) _ flags);
      [| rewrite Hfile, <- !app_assoc; reflexivity | reflexivity].
    cbn [bind].
    destruct (read32_extend b rest (8 + 1 + 1 + 1)) as [H32 | H32].
    { rewrite H32, Hb. cbn [bind result_of]. eauto. }
    rewrite <- H32, Hsplit.
    rewrite (read32_in file (KUNDA_MAGIC ++ vm ++ [flags])
                       (w2 ++ digest ++ compressed_data) _
                       (to_uint32 original_size));
      [| rewrite Hfile, <- !app_assoc; reflexivity | reflexivity
       | exact Hosz].
    cbn [bind].
    destruct (read32_extend b rest (8 + 1 + 1 + 1 + 4)) as [H32' | H32'].
    { rewrite H32', Hb. cbn [bind result_of]. eauto. }
    exfalso. rewrite Hsplit in H32'.
    rewrite (read32_in file (KUNDA_MAGIC ++ vm ++ [flags] ++ w1)
                       (digest ++ compressed_data) _
                       (buffer_size compressed_data)) in H32';
      [| rewrite Hfile, <- !app_assoc; reflexivity
       | rewrite !buffer_size_app, H1; reflexivity
       | lia].
    symmetry in H32'. apply read32_in_bounds in H32'. lia.
  - intros Hlong.
    assert (Hcut : firstn k file
                   = KUNDA_MAGIC ++ vm ++ [flags] ++ w1 ++ w2 ++
                     firstn (k - 19) (digest ++ compressed_data)).
    { rewrite Hfile.
      transitivity (firstn k ((KUNDA_MAGIC ++ vm ++ [flags] ++ w1 ++ w2)
                              ++ digest ++ compressed_data));
        [rewrite <- !app_assoc; reflexivity |].
      rewrite firstn_past by exact Hlong.
      rewrite <- !app_assoc. reflexivity. }
    assert (Hpre : file = (KUNDA_MAGIC ++ vm ++ [flags] ++ w1 ++ w2 ++ digest)
                          ++ compressed_data)
      by (rewrite Hfile, <- !app_assoc; reflexivity).
    assert (Hh : (if checksum then 51%nat else 19%nat)
                 = length (KUNDA_MAGIC ++ vm ++ [flags] ++ w1 ++ w2 ++ digest)).
    { rewrite !length_app. unfold buffer_size in Hdigest.
      change (length KUNDA_MAGIC) with 8%nat. change (length vm) with 2%nat.
      change (length [flags]) with 1%nat. change (length w1) with 4%nat.
      change (length w2) with 4%nat. destruct checksum; lia. }
    unfold extract_archive.
    rewrite (read_bytes_in (firstn k file) [] KUNDA_MAGIC
               (vm ++ [flags] ++ w1 ++ w2 ++
                firstn (k - 19) (digest ++ compressed_data)));
      [| exact Hcut | reflexivity | reflexivity].
    cbn [bind]. rewrite bytes_eqb_refl. cbn [negb].
    rewrite (read8_in (firstn k file) (KUNDA_MAGIC ++ vm)
               (w1 ++ w2 ++ firstn (k - 19) (digest ++ compressed_data)) _
               flags);
      [| rewrite Hcut, <- !app_assoc; reflexivity | reflexivity].
    cbn [bind].
    rewrite (read32_in (firstn k file) (KUNDA_MAGIC ++ vm ++ [flags])
               (w2 ++ firstn (k - 19) (digest ++ compressed_data)) _
               (to_uint32 original_size));
      [| rewrite Hcut, <- !app_assoc; reflexivity | reflexivity
       | exact Hosz].
    cbn [bind].
    rewrite (read32_in (firstn k file) (KUNDA_MAGIC ++ vm ++ [flags] ++ w1)
               (firstn (k - 19) (digest ++ compressed_data)) _
               (buffer_size compressed_data));
      [| rewrite Hcut, <- !app_assoc; reflexivity
       | rewrite !buffer_size_app, H1; reflexivity
       | lia].
    cbn [bind]. rewrite Hflags, Hb.
    assert (Hk' : Z.of_nat k < buffer_size file) by (unfold buffer_size; lia).
    destruct checksum; cbn [Z.eqb]; cbv iota.
    + rewrite (decoder_input_cut file _ compressed_data k 51
                 (8 + 1 + 1 + 1 + 4 + 4 + 32) _ Hpre Hh eq_refl eq_refl Hk).
      destruct (lzma_decode (firstn (k - 51) compressed_data)
                            (buffer_size compressed_data)
                            (to_uint32 original_size));
        try reflexivity.
      replace (8 + 1 + 1 + 1 + 4 + 4 + 32 + buffer_size compressed_data
               <=? Z.of_nat k) with false
        by (symmetry; apply Z.leb_gt; lia).
      reflexivity.
    + rewrite (decoder_input_cut file _ compressed_data k 19
                 (8 + 1 + 1 + 1 + 4 + 4) _ Hpre Hh eq_refl eq_refl Hk).
      destruct (lzma_decode (firstn (k - 19) compressed_data)
                            (buffer_size compressed_data)
                            (to_uint32 original_size));
        try reflexivity.
      replace (8 + 1 + 1 + 1 + 4 + 4 + buffer_size compressed_data
               <=? Z.of_nat k) with false
        by (symmetry; apply Z.leb_gt; lia).
      reflexivity.
Qed.

Lemma extract_truncated_archive_file_witness :
  (exists offset n,
     extract_archive format_error every_path_opens
       (firstn 12 (archive_file true 67 digest_zeros some_payload))
       (lit "extracted")
     = ExtractUndefined (ReadPastEnd offset n (Z.of_nat 12))) /\
  extract_archive format_error every_path_opens
    (firstn 60 (archive_file true 67 digest_zeros some_payload))
    (lit "extracted")
  = DecompressionFailed.
Proof.
  split.
  - apply (extract_truncated_archive_file format_error every_path_opens
             (lit "extracted") true 67 digest_zeros some_payload 12).
    + reflexivity.
    + vm_compute. reflexivity.
    + vm_compute. lia.
    + lia.
  - apply (extract_truncated_archive_file format_error every_path_opens
             (lit "extracted") true 67 digest_zeros some_payload 60).
    + reflexivity.
    + vm_compute. reflexivity.
    + vm_compute. lia.
    + lia.
Defined.

(** ** The size of the container *)

Definition sum_over {A} (f : A -> Z) (l : list A) : Z :=
  fold_right (fun x acc => f x + acc) 0 l.

(** The bytes of the container that are not file content: the two counts,
    a length field and the characters of each prefix, and for each file the
    two length fields and the characters of its path. *)
Definition overhead (a : Archive) : Z :=
  6 + sum_over (fun p => 2 + strlen (prefix p)) (prefixes a)
    + sum_over (fun f => 6 + strlen (path f)) (files a).

(** A file entry as [archive_add_file] makes it. *)
Definition added (f : FileEntry) : Prop :=
  is_duplicate f = false /\ size f = buffer_size (content f).

Section ContainerSize.

Lemma buffer_size_concat {A} (g : A -> list byte) (l : list A) :
  buffer_size (concat (map g l)) = sum_over (fun x => buffer_size (g x)) l.
Proof.
  induction l as [| x l IH]; [reflexivity |].
  cbn [map concat sum_over fold_right]. rewrite buffer_size_app, IH.
  reflexivity.
Qed.

Lemma sum_over_ext {A} (f g : A -> Z) (l : list A) :
  Forall (fun x => f x = g x) l -> sum_over f l = sum_over g l.
Proof.
  induction 1 as [| x l Hx Hl IH]; [reflexivity |].
  cbn [sum_over fold_right]. fold (sum_over f l) (sum_over g l). lia.
Qed.

Lemma sum_over_plus {A} (f g : A -> Z) (l : list A) :
  sum_over (fun x => f x + g x) l = sum_over f l + sum_over g l.
Proof.
  induction l as [| x l IH]; [reflexivity |].
  cbn [sum_over fold_right].
  fold (sum_over (fun x => f x + g x) l) (sum_over f l) (sum_over g l). lia.
Qed.

Lemma sum_over_lower {A} (f : A -> Z) (c : Z) (l : list A) :
  Forall (fun x => c <= f x) l -> c * Z.of_nat (length l) <= sum_over f l.
Proof.
  induction 1 as [| x l Hx Hl IH]; [cbn; lia |].
  cbn [sum_over fold_right length]. fold (sum_over f l). lia.
Qed.


Lemma total_size_sum (fs : list FileEntry) : total_size fs = sum_over size fs.
Proof.
  unfold total_size.
  assert (H : forall acc,
             fold_left (fun total f => total + size f) fs acc
             = acc + sum_over size fs).
  { induction fs as [| f fs IH]; intros acc; cbn [fold_left]; [cbn; lia |].
    rewrite IH. cbn [sum_over fold_right]. fold (sum_over size fs). lia. }
  rewrite H. lia.
Qed.

Lemma buffer_size_encode_prefix (p : PathPrefix) :
  buffer_size (encode_prefix p) = 2 + strlen (prefix p).
Proof.
  unfold encode_prefix. cbv zeta.
  rewrite memcpy_strlen, buffer_size_app, buffer_size_write16. reflexivity.
Qed.

Lemma buffer_size_encode_file (f : FileEntry) :
  added f ->
  buffer_size (encode_file f) = (6 + strlen (path f)) + size f.
Proof.
  intros [Hdup Hsize]. unfold encode_file. cbv zeta. rewrite Hdup.
  rewrite memcpy_strlen, (memcpy_all (content f) (size f) Hsize).
  rewrite !buffer_size_app, buffer_size_write16, buffer_size_write32, Hsize.
  unfold strlen, buffer_size. lia.
Qed.

Lemma buffer_size_binary_format (a : Archive) :
  Forall added (files a) ->
  buffer_size (binary_format a) = overhead a + total_size (files a).
Proof.
  intros Hadded. unfold binary_format, overhead.
  rewrite !buffer_size_app, buffer_size_write16, buffer_size_write32.
  rewrite !buffer_size_concat.
  rewrite (sum_over_ext (fun x => buffer_size (encode_prefix x))
                        (fun p => 2 + strlen (prefix p)))
    by (apply Forall_forall; intros p _; apply buffer_size_encode_prefix).
  rewrite (sum_over_ext (fun x => buffer_size (encode_file x))
                        (fun f => (6 + strlen (path f)) + size f))
    by (eapply Forall_impl; [| exact Hadded];
        intros f Hf; apply buffer_size_encode_file; exact Hf).
  rewrite (sum_over_plus (fun f => 6 + strlen (path f)) size).
  rewrite total_size_sum. lia.
Qed.

Lemma scan_added (inputs : list (list byte * list byte)) :
  Forall added (files (compress_paths (scan inputs))).
Proof.
  rewrite compress_paths_files, scan_files. apply Forall_forall.
  intros f Hin. apply in_map_iff in Hin as (pc & <- & _).
  split; reflexivity.
Qed.

(** Phase 3 for a scanned archive: inside the buffer exactly when the
    overhead is at most 1024 bytes a file. *)
Lemma create_binary_format_scan (inputs : list (list byte * list byte)) :
  let archive := compress_paths (scan inputs) in
  create_binary_format archive
  = if overhead archive <=? 1024 * Z.of_nat (length inputs)
    then Done (binary_format archive)
    else Undefined
           (WritePastEnd (overhead archive + total_size (files archive))
                         (total_size (files archive)
                          + 1024 * Z.of_nat (length inputs))).
Proof.
  cbv zeta. unfold create_binary_format. cbv zeta.
  rewrite (buffer_size_binary_format _ (scan_added inputs)).
  unfold binary_capacity.
  replace (length (files (compress_paths (scan inputs)))) with (length inputs)
    by (rewrite compress_paths_files, scan_files, length_map; reflexivity).
  replace (Z.of_nat (length inputs) * 1024)
    with (1024 * Z.of_nat (length inputs)) by lia.
  set (t := total_size (files (compress_paths (scan inputs)))).
  set (o := overhead (compress_paths (scan inputs))).
  set (n := 1024 * Z.of_nat (length inputs)).
  destruct (o <=? n) eqn:E.
  - apply Z.leb_le in E.
    replace (o + t <=? t + n) with true by (symmetry; apply Z.leb_le; lia).
    reflexivity.
  - apply Z.leb_gt in E.
    replace (o + t <=? t + n) with false by (symmetry; apply Z.leb_gt; lia).
    reflexivity.
Qed.

End ContainerSize.

(** X2.  Phase 3 of [create_archive] writes the container into a buffer of
    [total_size + count * 1024] bytes and checks no write against it.  For
    every scanned input the writes stay inside exactly when the bytes that
    are not file content (6 for the two counts, 2 and its length for each
    retained prefix, 6 and the length of its path for each file) come to at
    most 1024 a file; otherwise the container is written past the end of
    the buffer.  So a single file is written inside the buffer exactly when
    its stored path has at most 1012 bytes, and with no file at all 6 bytes
    are written into a buffer of none. *)
Theorem create_binary_format_overhead
  (inputs : list (list byte * list byte)) (p c : list byte) :
  create_binary_format (compress_paths (scan inputs))
  = (if overhead (compress_paths (scan inputs))
        <=? 1024 * Z.of_nat (length inputs)
     then Done (binary_format (compress_paths (scan inputs)))
     else Undefined
            (WritePastEnd
               (overhead (compress_paths (scan inputs))
                + total_size (files (compress_paths (scan inputs))))
               (total_size (files (compress_paths (scan inputs)))
                + 1024 * Z.of_nat (length inputs)))) /\
  ((exists binary_data,
      create_binary_format (compress_paths (scan [(p, c)]))
      = Done binary_data) <->
   buffer_size (strncpy p (MAX_PATH_LEN - 1)) <= 1012) /\
  create_binary_format (compress_paths (scan []))
  = Undefined (WritePastEnd 6 0).
Proof.
  split; [exact (create_binary_format_scan inputs) |].
  split; [| reflexivity].
  rewrite (create_binary_format_scan [(p, c)]).
  assert (Ho : overhead (compress_paths (scan [(p, c)]))
               = 12 + buffer_size (strncpy p (MAX_PATH_LEN - 1))).
  { unfold overhead.
    change (prefixes (compress_paths (scan [(p, c)]))) with (@nil PathPrefix).
    change (files (compress_paths (scan [(p, c)])))
      with [mkFileEntry (strncpy p (MAX_PATH_LEN - 1)) c
                        (Z.of_nat (length c)) false []].
    cbn [sum_over fold_right path].
    rewrite strlen_c_string by (apply c_string_firstn, cstr_c_string). lia. }
  rewrite Ho. change (Z.of_nat (length [(p, c)])) with 1.
  destruct (12 + buffer_size (strncpy p (MAX_PATH_LEN - 1)) <=? 1024 * 1)
    eqn:E.
  - apply Z.leb_le in E. split; [lia | eauto].
  - apply Z.leb_gt in E. split; [intros [? H]; discriminate | lia].
Qed.

(** ** From [create_archive] to [extract_archive] *)



Section Pipeline.

Variable lzma_encode : encoder -> list byte -> Z -> option (list byte).
Variable SHA256 : list byte -> list byte.



End Pipeline.






Section Trailing.

Variable lzma_decode : list byte -> Z -> Z -> decoder_answer.
Variable fopen : nat -> list byte -> bool.
Variable output_directory : list byte.

Lemma extract_archive_file_followed (checksum : bool) (original_size : Z)
  (sha256_hash compressed_data more : list byte) :
  length sha256_hash = 32%nat ->
  buffer_size compressed_data < 2 ^ 32 ->
  extract_archive lzma_decode fopen
    (archive_file checksum original_size sha256_hash compressed_data ++ more)
    output_directory
  = match lzma_decode compressed_data (buffer_size compressed_data)
                      (to_uint32 original_size) with
    | StreamEnd decompressed =>
        result_of (d <- decode_container fopen output_directory decompressed ;;
                   Done (Extracted d))
    | OtherAnswer | ReadsOn => DecompressionFailed
    end.
Proof.
  intros Hhash Hsize.
  pose proof (buffer_size_nonneg compressed_data) as Hnonneg.
  assert (Hosz : 0 <= to_uint32 original_size < 2 ^ 32)
    by (apply Z.mod_pos_bound; lia).
  destruct (archive_file_layout checksum original_size sha256_hash
              compressed_data Hhash Hsize)
    as (flags & digest & Hflags & Hdigest & Hfile).
  rewrite Hfile. clear Hfile.
  set (w1 := write_uint32_be (to_uint32 original_size)).
  set (w2 := write_uint32_be (buffer_size compressed_data)).
  set (vm := [byte_of_Z KUNDA_VERSION; byte_of_Z COMP_LZMA_ULTRA]).
  set (file := (KUNDA_MAGIC ++ vm ++ [flags] ++ w1 ++ w2 ++ digest
                  ++ compressed_data) ++ more).
  assert (Hfile : file = KUNDA_MAGIC ++ vm ++ [flags] ++ w1 ++ w2 ++ digest
                           ++ compressed_data ++ more)
    by (unfold file; rewrite <- !app_assoc; reflexivity).
  clearbody file.
  assert (H1 : buffer_size w1 = 4) by reflexivity.
  assert (H2 : buffer_size w2 = 4) by reflexivity.
  unfold extract_archive.
  rewrite (read_bytes_in file [] KUNDA_MAGIC
             (vm ++ [flags] ++ w1 ++ w2 ++ digest ++ compressed_data
                 ++ more));
    [| exact Hfile | reflexivity | reflexivity].
  cbn [bind]. rewrite bytes_eqb_refl. cbn [negb].
  rewrite (read8_in file (KUNDA_MAGIC ++ vm)
                    (w1 ++ w2 ++ digest ++ compressed_data ++ more) _ flags);
    [| rewrite Hfile, <- !app_assoc; reflexivity | reflexivity].
  cbn [bind].
  rewrite (read32_in file (KUNDA_MAGIC ++ vm ++ [flags])
                     (w2 ++ digest ++ compressed_data ++ more) _
                     (to_uint32 original_size));
    [| rewrite Hfile, <- !app_assoc; reflexivity | reflexivity | exact Hosz].
  cbn [bind].
  rewrite (read32_in file (KUNDA_MAGIC ++ vm ++ [flags] ++ w1)
                     (digest ++ compressed_data ++ more) _
                     (buffer_size compressed_data));
    [| rewrite Hfile, <- !app_assoc; reflexivity
     | rewrite !buffer_size_app, H1; reflexivity
     | lia].
  cbn [bind]. rewrite Hflags.
  assert (Hlen : buffer_size file
                 = 19 + buffer_size digest + buffer_size compressed_data
                   + buffer_size more).
  { rewrite Hfile, !buffer_size_app, H1, H2.
    change (buffer_size KUNDA_MAGIC) with 8.
    change (buffer_size vm) with 2.
    change (buffer_size [flags]) with 1. lia. }
  pose proof (buffer_size_nonneg more) as Hmore.
  rewrite (decoder_input_in file
             (KUNDA_MAGIC ++ vm ++ [flags] ++ w1 ++ w2 ++ digest)
             compressed_data more
             (if (if checksum then 2 else 0) =? 0
              then 8 + 1 + 1 + 1 + 4 + 4 else 8 + 1 + 1 + 1 + 4 + 4 + 32));
    [| rewrite Hfile, <- !app_assoc; reflexivity
     | rewrite !buffer_size_app, H1, H2, Hdigest;
       destruct checksum; reflexivity
     | reflexivity].
  destruct (lzma_decode compressed_data (buffer_size compressed_data)
                        (to_uint32 original_size));
    try reflexivity.
  rewrite Hlen, Hdigest.
  destruct checksum; cbn [Z.eqb]; cbv iota;
    match goal with
    | |- context [?a <=? ?c] =>
        replace (a <=? c) with true by (symmetry; apply Z.leb_le; lia)
    end; reflexivity.
Qed.

Lemma decode_container_followed (b more : list byte) (d : decoded) :
  decode_container fopen output_directory b = Done d ->
  decode_container fopen output_directory (b ++ more) = Done d.
Proof.
  intros H.
  destruct (decode_container_extend b more fopen output_directory)
    as [(o & n & E) | E].
  - rewrite E in H. discriminate.
  - rewrite E. exact H.
Qed.

End Trailing.

(** X12.  Bytes that follow are ignored at both levels.  Extraction of a
    file that [create_archive] wrote gives the same result when any bytes
    are added after the compressed data; and when the parse of a container
    completes, it completes with the same result on that container followed
    by any bytes: what follows the last record is neither read nor
    reported. *)
Theorem trailing_bytes_are_ignored
  (lzma_decode : list byte -> Z -> Z -> decoder_answer)
  (fopen : nat -> list byte -> bool) (output_directory : list byte)
  (checksum : bool) (original_size : Z)
  (sha256_hash compressed_data more : list byte) :
  length sha256_hash = 32%nat ->
  buffer_size compressed_data < 2 ^ 32 ->
  extract_archive lzma_decode fopen
    (archive_file checksum original_size sha256_hash compressed_data ++ more)
    output_directory
  = extract_archive lzma_decode fopen
      (archive_file checksum original_size sha256_hash compressed_data)
      output_directory /\
  (forall b d,
     decode_container fopen output_directory b = Done d ->
     decode_container fopen output_directory (b ++ more) = Done d).
Proof.
  intros Hhash Hsize. split.
  - rewrite extract_archive_file_followed, extract_archive_file
      by assumption.
    reflexivity.
  - intros b d. apply decode_container_followed.
Qed.

Lemma trailing_bytes_are_ignored_witness :
  extract_archive answers_scenario every_path_opens
    (archive_file true 67 digest_zeros some_payload ++ lit "more")
    (lit "extracted")
  = extract_archive answers_scenario every_path_opens
      (archive_file true 67 digest_zeros some_payload) (lit "extracted") /\
  (forall b d,
     decode_container every_path_opens (lit "extracted") b = Done d ->
     decode_container every_path_opens (lit "extracted") (b ++ lit "more")
     = Done d).
Proof.
  apply (trailing_bytes_are_ignored answers_scenario every_path_opens
           (lit "extracted") true 67 digest_zeros some_payload (lit "more")).
  - reflexivity.
  - vm_compute. reflexivity.
Defined.

(** ** What the parse writes *)

Section Parsed.

Lemma c_string_app (a b : list byte) :
  c_string a -> c_string b -> c_string (a ++ b).
Proof.
  unfold c_string. intros Ha Hb.
  induction a as [| x a IH]; [exact Hb |].
  cbn in *. destruct (Ascii.eqb x NUL); [discriminate |].
  injection Ha as Ha. rewrite (IH Ha). reflexivity.
Qed.

Lemma cstr_length_le (s : list byte) : (length (cstr s) <= length s)%nat.
Proof.
  induction s as [| x s IH]; cbn; [lia |].
  destruct (Ascii.eqb x NUL); cbn; lia.
Qed.

Lemma read_bytes_length (buf x : list byte) (offset n : Z) :
  0 <= offset -> 0 <= n ->
  read_bytes buf offset n = Done x -> buffer_size x = n.
Proof.
  intros Hoff Hn. unfold read_bytes.
  destruct (offset + n <=? buffer_size buf) eqn:E; [| discriminate].
  apply Z.leb_le in E. intros [= <-].
  unfold memcpy, buffer_size in *. rewrite length_firstn, at_offset_length.
  lia.
Qed.

Lemma read16_range (buf : list byte) (offset v : Z) :
  read16 buf offset = Done v -> 0 <= v < 2 ^ 16.
Proof.
  unfold read16.
  destruct (read_uint16_be (at_offset buf offset)) as [x |] eqn:E;
    [| discriminate].
  intros [= <-].
  destruct (at_offset buf offset) as [| b0 [| b1 r]]; try discriminate.
  rewrite read_uint16_be_value in E. injection E as <-.
  pose proof (Z_of_byte_range b0). pose proof (Z_of_byte_range b1). lia.
Qed.

Lemma read32_range (buf : list byte) (offset v : Z) :
  read32 buf offset = Done v -> 0 <= v < 2 ^ 32.
Proof.
  unfold read32.
  destruct (read_uint32_be (at_offset buf offset)) as [x |] eqn:E;
    [| discriminate].
  intros [= <-].
  destruct (at_offset buf offset) as [| b0 [| b1 [| b2 [| b3 r]]]];
    try discriminate.
  rewrite read_uint32_be_value in E. injection E as <-.
  pose proof (Z_of_byte_range b0). pose proof (Z_of_byte_range b1).
  pose proof (Z_of_byte_range b2). pose proof (Z_of_byte_range b3). lia.
Qed.

Lemma read_prefixes_length (buf : list byte) (n : nat) :
  forall (offset : Z) (ps : list (list byte)) (offset' : Z),
    read_prefixes n buf offset = Done (ps, offset') -> length ps = n.
Proof.
  induction n as [| n IH]; intros offset ps offset'; cbn [read_prefixes].
  - intros [= <- _]. reflexivity.
  - destruct (read16 buf offset) as [len | u]; cbn [bind]; [| discriminate].
    destruct (read_bytes buf (offset + 2) len); cbn [bind]; [| discriminate].
    destruct (read_prefixes n buf (offset + 2 + len)) as [[ps' o'] | u] eqn:E;
      cbn [bind]; [| discriminate].
    apply IH in E. intros [= <- _]. cbn. lia.
Qed.

Lemma expand_path_short (table : list (list byte)) (stored expanded : list byte) :
  buffer_size stored < MAX_PATH_LEN ->
  expand_path table stored = Done expanded ->
  c_string expanded /\ buffer_size expanded < MAX_PATH_LEN.
Proof.
  intros Hlen. unfold expand_path. cbv zeta.
  assert (Hverbatim : c_string (cstr stored) /\
                      buffer_size (cstr stored) < MAX_PATH_LEN).
  { split; [apply cstr_c_string |].
    pose proof (cstr_length_le stored). unfold buffer_size in *. lia. }
  destruct (cstr stored) as [| c rest] eqn:E.
  - intros [= <-]. exact Hverbatim.
  - destruct (Ascii.eqb c "$"%char); [| intros [= <-]; exact Hverbatim].
    destruct (strchr rest "$"%char) as [end_ |];
      [| intros [= <-]; exact Hverbatim].
    destruct (prefix_at table (atoi rest)) as [p | u]; cbn [bind];
      [| discriminate].
    intros [= <-]. unfold snprintf2. split.
    + apply c_string_firstn, c_string_app; apply cstr_c_string.
    + unfold buffer_size. rewrite length_firstn. unfold MAX_PATH_LEN. lia.
Qed.

(** What a member that is written looks like. *)
Definition writable (m : member) : Prop :=
  c_string (expanded_path m) /\
  buffer_size (expanded_path m) < MAX_PATH_LEN /\
  buffer_size (written m) < 4294967295.

Lemma extract_file_writable (out : list byte -> bool)
  (output_directory : list byte) (table : list (list byte)) (b : list byte)
  (offset : Z) (m : member) (offset' : Z) :
  0 <= offset ->
  extract_file out output_directory table b offset = Done (Some m, offset') ->
  writable m.
Proof.
  intros Hoff. unfold extract_file.
  destruct (read16 b offset) as [path_len | u] eqn:E1; cbn [bind];
    [| discriminate].
  pose proof (read16_nonneg _ _ _ E1) as Hpl.
  destruct (read_bytes b (offset + 2) path_len) as [stored | u] eqn:E2;
    cbn [bind]; [| discriminate].
  apply read_bytes_length in E2; [| lia | lia].
  destruct (MAX_PATH_LEN <=? path_len) eqn:E; [discriminate |].
  apply Z.leb_gt in E.
  destruct (expand_path table stored) as [expanded | u] eqn:E3; cbn [bind];
    [| discriminate].
  apply expand_path_short in E3; [| lia].
  destruct (read32 b (offset + 2 + path_len)) as [content_len | u] eqn:E4;
    cbn [bind]; [| discriminate].
  pose proof (read32_range _ _ _ E4) as Hcl.
  destruct (content_len =? 4294967295) eqn:E6.
  - destruct (read16 b (offset + 2 + path_len + 4)); cbn [bind]; discriminate.
  - apply Z.eqb_neq in E6.
    destruct (out (opened (write_file output_directory expanded)));
      [| discriminate].
    destruct (read_bytes b (offset + 2 + path_len + 4) content_len) eqn:E7;
      cbn [bind]; [| discriminate].
    apply read_bytes_length in E7; [| lia | lia].
    intros [= <- _]. unfold writable. cbn [expanded_path written].
    destruct E3 as [Hc Hs]. split; [exact Hc |]. split; [exact Hs | lia].
Qed.

Lemma extract_files_writable (fopen : nat -> list byte -> bool)
  (output_directory : list byte) (table : list (list byte)) (b : list byte)
  (n : nat) :
  forall (i : nat) (offset : Z) (ms : list member) (offset' : Z),
    0 <= offset ->
    extract_files fopen output_directory i n table b offset
    = Done (ms, offset') ->
    Forall writable ms.
Proof.
  induction n as [| n IH]; intros i offset ms offset' Hoff;
    cbn [extract_files].
  - intros [= <- _]. constructor.
  - destruct (extract_file (fopen i) output_directory table b offset)
      as [[m o1] | u] eqn:E1; cbn [bind]; [| discriminate].
    destruct (extract_files fopen output_directory (S i) n table b o1)
      as [[ms' o2] | u] eqn:E2; cbn [bind]; [| discriminate].
    pose proof E1 as Hfw. apply extract_file_forward in Hfw.
    apply IH in E2; [| lia].
    intros [= <- _]. destruct m as [m |]; cbn [add_member]; [| exact E2].
    constructor; [| exact E2].
    exact (extract_file_writable _ _ _ _ _ _ _ Hoff E1).
Qed.

End Parsed.

(** X13.  Whatever the container and whatever [fopen] answers, when the
    parse completes, every member it has written has a path that is a C
    string of fewer than [MAX_PATH_LEN] bytes and fewer than [0xFFFFFFFF]
    bytes of content; there are at most as many members as the container
    announces, and fewer than 2^16 prefixes were read. *)
Theorem decode_container_members (fopen : nat -> list byte -> bool)
  (output_directory b : list byte) (d : decoded) :
  decode_container fopen output_directory b = Done d ->
  Forall writable (d_members d) /\
  Z.of_nat (length (d_members d)) <= d_num_files d < 2 ^ 32 /\
  Z.of_nat (length (d_prefixes d)) < 2 ^ 16.
Proof.
  unfold decode_container.
  destruct (read16 b 0) as [num_prefixes | u] eqn:E1; cbn [bind];
    [| discriminate].
  destruct (read_prefixes (Z.to_nat num_prefixes) b 2)
    as [[table offset] | u] eqn:E2; cbn [bind]; [| discriminate].
  pose proof (read_prefixes_forward _ _ _ _ _ E2) as Hfw.
  destruct (read32 b offset) as [num_files | u] eqn:E3; cbn [bind];
    [| discriminate].
  destruct (extract_files fopen output_directory 0 (Z.to_nat num_files)
                          table b (offset + 4))
    as [[ms offset'] | u] eqn:E4; cbn [bind]; [| discriminate].
  intros [= <-]. cbn [d_members d_num_files d_prefixes].
  split; [eapply extract_files_writable; [| exact E4]; lia |].
  pose proof E4 as Hcount. apply extract_files_count in Hcount.
  pose proof (read32_range _ _ _ E3).
  pose proof (read16_range _ _ _ E1).
  apply read_prefixes_length in E2. lia.
Qed.

Lemma decode_container_members_witness :
  Forall writable
    (d_members (mkDecoded [] 2 [mkMember (lit "a") (lit "x")] 24)) /\
  Z.of_nat
    (length (d_members (mkDecoded [] 2 [mkMember (lit "a") (lit "x")] 24)))
  <= d_num_files (mkDecoded [] 2 [mkMember (lit "a") (lit "x")] 24)
  < 2 ^ 32 /\
  Z.of_nat
    (length (d_prefixes (mkDecoded [] 2 [mkMember (lit "a") (lit "x")] 24)))
  < 2 ^ 16.
Proof.
  apply (decode_container_members extracted_is_a_directory
           (lit "extracted") (binary_format duplicate_archive)
           (mkDecoded [] 2 [mkMember (lit "a") (lit "x")] 24)).
  vm_compute. reflexivity.
Defined.

(** ** The presets ["ultra-<N>"] *)

Section UltraN.

Lemma atoi_digits_all (digits : list byte) :
  Forall (fun c => isdigit c = true) digits ->
  forall acc,
    atoi_digits acc digits
    = fold_left (fun acc c => acc * 10 + (Z_of_byte c - 48)) digits acc.
Proof.
  induction 1 as [| d ds Hd Hds IH]; intros acc; cbn; [reflexivity |].
  rewrite Hd. apply IH.
Qed.

Lemma atoi_all_digits (digits : list byte) :
  Forall (fun c => isdigit c = true) digits ->
  decimal digits <= 2147483647 ->
  atoi digits = decimal digits.
Proof.
  intros Hds Hint.
  assert (Hnonneg : 0 <= decimal digits)
    by (apply decimal_from_nonneg; [exact Hds | lia]).
  unfold atoi, strtol. cbv zeta.
  replace (match skip_spaces digits with
           | [] => 0
           | c :: r =>
               if Ascii.eqb c "-"%char then - atoi_digits 0 r
               else if Ascii.eqb c "+"%char then atoi_digits 0 r
               else atoi_digits 0 (c :: r)
           end) with (decimal digits).
  - apply to_int_of_long. change (2 ^ 31) with 2147483648. lia.
  - unfold decimal.
    rewrite <- (atoi_digits_all digits Hds 0).
    destruct Hds as [| d ds Hd Hds]; [reflexivity |].
    cbn [skip_spaces]. rewrite (isdigit_not_space d Hd).
    rewrite (isdigit_not d "-"%char eq_refl Hd).
    rewrite (isdigit_not d "+"%char eq_refl Hd).
    reflexivity.
Qed.

End UltraN.

(** X14.  A preset ["ultra-<N>"], with [N] written in decimal digits and
    below 2048, selects the filter-chain encoder at level 9 extreme with a
    dictionary of [N] MiB, lc = 3, lp = 0, pb = 2, depth 273 and BT4. *)
Theorem ultra_dash_dictionary (digits : list byte) :
  Forall (fun c => isdigit c = true) digits ->
  decimal digits < 2048 ->
  compress_lzma_ultra_encoder (lit "ultra-" ++ digits)
  = Some (lzma_stream_encoder
            (mkOptions (mkPreset 9 true) (decimal digits * MiB)
                       3 0 2 273 LZMA_MF_BT4)
            LZMA_CHECK_CRC64).
Proof.
  intros Hds Hsmall.
  assert (Hcstr : cstr (lit "ultra-" ++ digits) = lit "ultra-" ++ digits).
  { pose proof (cstr_digits digits [] Hds) as H.
    rewrite app_nil_r in H. cbn [cstr] in H. rewrite app_nil_r in H.
    cbn. rewrite H. reflexivity. }
  assert (Hnonneg : 0 <= decimal digits)
    by (apply decimal_from_nonneg; [exact Hds | lia]).
  unfold compress_lzma_ultra_encoder, preset_parameters, strcmp_eq.
  rewrite Hcstr.
  replace (bytes_eqb (lit "ultra-" ++ digits) (cstr (lit "ultra")))
    with false by reflexivity.
  rewrite starts_with_app.
  replace (skipn 6 (lit "ultra-" ++ digits)) with digits by reflexivity.
  rewrite (atoi_all_digits digits Hds) by lia.
  replace (starts_with (lit "ultra") (lit "ultra-" ++ digits)) with true
    by reflexivity.
  rewrite to_uint32_small by (unfold MiB; lia).
  unfold MiB. do 3 f_equal. lia.
Qed.

Lemma ultra_dash_dictionary_witness :
  compress_lzma_ultra_encoder (lit "ultra-" ++ lit "128")
  = Some (lzma_stream_encoder
            (mkOptions (mkPreset 9 true) (decimal (lit "128") * MiB)
                       3 0 2 273 LZMA_MF_BT4)
            LZMA_CHECK_CRC64).
Proof.
  apply (ultra_dash_dictionary (lit "128")).
  - repeat constructor.
  - vm_compute. reflexivity.
Defined.

(** ** File types *)

Section FileTypes.

Variable ratio_above_85_percent : Z -> Z -> bool.

Lemma starts_with_length (p s : list byte) :
  starts_with p s = true -> (length p <= length s)%nat.
Proof.
  intros H. apply starts_with_iff in H as [rest ->]. rewrite length_app. lia.
Qed.

Lemma starts_with_firstn (p s : list byte) (n : nat) :
  (length p <= n)%nat -> starts_with p (firstn n s) = starts_with p s.
Proof.
  revert s n. induction p as [| x p IH]; intros s n Hn; [reflexivity |].
  destruct n as [| n]; [cbn in Hn; lia |].
  destruct s as [| y s]; [reflexivity |].
  cbn [firstn starts_with]. rewrite IH by (cbn in Hn; lia). reflexivity.
Qed.

Lemma starts_with_sample (signature data : list byte) :
  (length signature <= 8)%nat ->
  starts_with signature (firstn 4096 data) = starts_with signature data.
Proof.
  intros H. apply starts_with_firstn.
  apply (Nat.le_trans _ 8); [exact H |].
  apply Nat.leb_le. vm_compute. reflexivity.
Qed.

Lemma has_signature_whole (signature data : list byte) :
  has_signature signature data (buffer_size data)
  = starts_with signature data.
Proof.
  unfold has_signature.
  destruct (starts_with signature data) eqn:E; [| apply andb_false_r].
  apply starts_with_length in E. rewrite andb_true_r.
  apply Z.leb_le. unfold buffer_size. lia.
Qed.

(** The classification in terms of the first 4096 bytes. *)
Lemma detect_file_type_sample (data : list byte) :
  detect_file_type ratio_above_85_percent data (buffer_size data)
  = detect_file_type ratio_above_85_percent (firstn 4096 data)
                     (buffer_size (firstn 4096 data)).
Proof.
  unfold detect_file_type. cbn [existsb jpeg_signatures].
  rewrite !has_signature_whole.
  rewrite !starts_with_sample by (cbn; lia).
  assert (Hlen : buffer_size (firstn 4096 data)
                 = Z.min 4096 (buffer_size data)).
  { unfold buffer_size. rewrite length_firstn. lia. }
  assert (Hzero : (buffer_size (firstn 4096 data) =? 0)
                  = (buffer_size data =? 0)).
  { rewrite Hlen. pose proof (buffer_size_nonneg data).
    destruct (buffer_size data =? 0) eqn:E.
    - apply Z.eqb_eq in E. rewrite E. reflexivity.
    - apply Z.eqb_neq in E. apply Z.eqb_neq. lia. }
  rewrite Hzero.
  assert (Hsample : (if buffer_size (firstn 4096 data) >? 4096 then 4096
                     else buffer_size (firstn 4096 data))
                    = (if buffer_size data >? 4096 then 4096
                       else buffer_size data)).
  { rewrite Hlen. rewrite !Z.gtb_ltb.
    destruct (4096 <? buffer_size data) eqn:E.
    - apply Z.ltb_lt in E.
      replace (4096 <? Z.min 4096 (buffer_size data)) with false
        by (symmetry; apply Z.ltb_ge; lia).
      lia.
    - apply Z.ltb_ge in E.
      replace (4096 <? Z.min 4096 (buffer_size data)) with false
        by (symmetry; apply Z.ltb_ge; lia).
      lia. }
  rewrite Hsample.
  assert (Hcopy : memcpy (firstn 4096 data)
                         (if buffer_size data >? 4096 then 4096
                          else buffer_size data)
                  = memcpy data (if buffer_size data >? 4096 then 4096
                                 else buffer_size data)).
  { unfold memcpy. rewrite firstn_firstn. f_equal.
    rewrite Z.gtb_ltb. destruct (4096 <? buffer_size data) eqn:E.
    - reflexivity.
    - apply Z.ltb_ge in E. unfold buffer_size in *. lia. }
  rewrite Hcopy. reflexivity.
Qed.

Lemma detect_file_type_empty (data : list byte) :
  detect_file_type ratio_above_85_percent data (buffer_size data)
  = FILE_TYPE_EMPTY <-> data = [].
Proof.
  split; [| intros ->; reflexivity].
  destruct data as [| c data]; [reflexivity |].
  unfold detect_file_type.
  replace (buffer_size (c :: data) =? 0) with false
    by (symmetry; apply Z.eqb_neq; unfold buffer_size; cbn [length]; lia).
  repeat match goal with
         | |- context [if ?b then FILE_TYPE_COMPRESSED else _] =>
             destruct b; [discriminate |]
         end.
  cbv zeta.
  match goal with
  | |- context [if ?b then FILE_TYPE_TEXT else _] => destruct b
  end; discriminate.
Qed.

End FileTypes.

(** A stand-in for the floating-point test: the exact comparison of
    [text_chars / sample_size] with 85/100. *)
Definition exact_ratio (text_chars sample_size : Z) : bool :=
  17 * sample_size <? 20 * text_chars.

(** X15.  [detect_file_type], called with a buffer and its size, looks at
    the first 4096 bytes only: two buffers that agree on them get the same
    type, whatever the outcome of the ratio test.  The type is
    [FILE_TYPE_EMPTY] exactly for the buffer without bytes. *)
Theorem detect_file_type_first_4096
  (ratio_above_85_percent : Z -> Z -> bool) (data1 data2 : list byte) :
  (firstn 4096 data1 = firstn 4096 data2 ->
   detect_file_type ratio_above_85_percent data1 (buffer_size data1)
   = detect_file_type ratio_above_85_percent data2 (buffer_size data2)) /\
  (detect_file_type ratio_above_85_percent data1 (buffer_size data1)
   = FILE_TYPE_EMPTY <-> data1 = []).
Proof.
  split; [| apply detect_file_type_empty].
  intros H.
  rewrite (detect_file_type_sample _ data1), (detect_file_type_sample _ data2).
  rewrite H. reflexivity.
Qed.

Lemma detect_file_type_first_4096_witness :
  detect_file_type exact_ratio (repeat "a"%char 4096 ++ lit "x")
    (buffer_size (repeat "a"%char 4096 ++ lit "x"))
  = detect_file_type exact_ratio (repeat "a"%char 4096 ++ [NUL; NUL])
      (buffer_size (repeat "a"%char 4096 ++ [NUL; NUL])).
Proof.
  apply (proj1 (detect_file_type_first_4096 exact_ratio
                  (repeat "a"%char 4096 ++ lit "x")
                  (repeat "a"%char 4096 ++ [NUL; NUL]))).
  vm_compute. reflexivity.
Defined.

(** ** Stored names *)

(** The names of the directories passed through and of the file, with
    slashes between them. *)
Fixpoint join_path (names : list (list byte)) : list byte :=
  match names with
  | [] => []
  | [n] => n
  | n :: rest => n ++ lit "/" ++ join_path rest
  end.

(** A name as [readdir] gives it: characters, at least one, none of them a
    slash. *)
Definition d_name_like (n : list byte) : Prop :=
  c_string n /\ n <> [] /\ ~ In "/"%char n.

Section StoredNames.

Lemma join_path_cons (n : list byte) (names : list (list byte)) :
  lit "/" ++ join_path (n :: names)
  = concat (map (fun n => lit "/" ++ n) (n :: names)).
Proof.
  revert n. induction names as [| m names IH]; intros n.
  - cbn. rewrite app_nil_r. reflexivity.
  - change (join_path (n :: m :: names))
      with (n ++ lit "/" ++ join_path (m :: names)).
    change (concat (map (fun n => lit "/" ++ n) (n :: m :: names)))
      with ((lit "/" ++ n)
            ++ concat (map (fun n => lit "/" ++ n) (m :: names))).
    rewrite <- IH, <- app_assoc. reflexivity.
Qed.

Lemma c_string_slash : c_string (lit "/").
Proof. reflexivity. Qed.

(** The path that the walk has built when it reaches a file, if no
    [snprintf] on the way cut it. *)
Lemma full_path_descend (names : list (list byte)) :
  forall dir_path : list byte,
    c_string dir_path ->
    Forall c_string names ->
    buffer_size dir_path + sum_over (fun n => 1 + buffer_size n) names
    < MAX_PATH_LEN ->
    fold_left full_path_of names dir_path
    = dir_path ++ concat (map (fun n => lit "/" ++ n) names).
Proof.
  induction names as [| n names IH]; intros dir_path Hdir Hnames Hfit.
  - cbn. rewrite app_nil_r. reflexivity.
  - inversion Hnames as [| ? ? Hn Hrest]; subst.
    cbn [sum_over fold_right] in Hfit.
    fold (sum_over (fun n => 1 + buffer_size n) names) in Hfit.
    assert (Hsum : 0 <= sum_over (fun n => 1 + buffer_size n) names).
    { pose proof (sum_over_lower (fun n => 1 + buffer_size n) 0 names) as H.
      cbn beta in H. rewrite Z.mul_0_l in H. apply H.
      apply Forall_forall. intros x _. pose proof (buffer_size_nonneg x).
      lia. }
    assert (Hstep : full_path_of dir_path n = dir_path ++ lit "/" ++ n).
    { unfold full_path_of. rewrite Hdir, Hn. apply firstn_all2.
      rewrite !length_app. unfold buffer_size, MAX_PATH_LEN in *.
      cbn [length lit list_ascii_of_string] in *. lia. }
    cbn [fold_left]. rewrite Hstep. rewrite IH.
    + cbn [map concat]. rewrite <- !app_assoc. reflexivity.
    + apply c_string_app; [exact Hdir |].
      apply c_string_app; [apply c_string_slash | exact Hn].
    + exact Hrest.
    + rewrite !buffer_size_app. change (buffer_size (lit "/")) with 1. lia.
Qed.

Lemma skip_slashes_name (n rest : list byte) :
  n <> [] -> ~ In "/"%char n -> skip_slashes (n ++ rest) = n ++ rest.
Proof.
  destruct n as [| c n]; [congruence |]. intros _ Hno. cbn.
  destruct (Ascii.eqb_spec c "/"%char) as [-> | _]; [| reflexivity].
  exfalso. apply Hno. left. reflexivity.
Qed.

Lemma skip_slashes_idempotent (s : list byte) :
  skip_slashes (skip_slashes s) = skip_slashes s.
Proof.
  induction s as [| c s IH]; [reflexivity |]. cbn.
  destruct (Ascii.eqb c "/"%char) eqn:E; [exact IH |].
  cbn. rewrite E. reflexivity.
Qed.

Lemma rel_path_descend (base_path : list byte) (n : list byte)
  (names : list (list byte)) :
  Forall d_name_like (n :: names) ->
  strlen base_path + sum_over (fun n => 1 + buffer_size n) (n :: names)
  < MAX_PATH_LEN ->
  rel_path base_path (fold_left full_path_of (n :: names) (cstr base_path))
  = Some (join_path (n :: names)).
Proof.
  intros Hnames Hfit.
  assert (Hcs : Forall c_string (n :: names))
    by (eapply Forall_impl; [| exact Hnames]; intros x [H _]; exact H).
  rewrite full_path_descend;
    [| apply cstr_c_string | exact Hcs | exact Hfit].
  rewrite <- join_path_cons.
  assert (Hjoin : exists rest, join_path (n :: names) = n ++ rest).
  { destruct names as [| m names]; [exists []; cbn; symmetry; apply app_nil_r |].
    eexists. reflexivity. }
  destruct Hjoin as [rest Hjoin].
  assert (Hc : c_string (cstr base_path ++ lit "/" ++ join_path (n :: names))).
  { apply c_string_app; [apply cstr_c_string |].
    rewrite join_path_cons. clear Hjoin Hfit Hnames.
    induction Hcs as [| x xs Hx Hxs IH]; [reflexivity |].
    cbn [map concat]. rewrite <- app_assoc.
    apply c_string_app; [apply c_string_slash |].
    apply c_string_app; [exact Hx | exact IH]. }
  unfold rel_path. rewrite (strlen_c_string _ Hc).
  unfold strlen at 1 2. rewrite buffer_size_app.
  pose proof (buffer_size_nonneg (lit "/" ++ join_path (n :: names))).
  replace (Z.of_nat (length (cstr base_path))
           <=? buffer_size (cstr base_path)
               + buffer_size (lit "/" ++ join_path (n :: names)))
    with true by (symmetry; apply Z.leb_le; unfold buffer_size in *; lia).
  rewrite Hc, Nat2Z.id, skipn_app, skipn_all, Nat.sub_diag.
  cbn [app skipn lit list_ascii_of_string skip_slashes].
  replace (Ascii.eqb "/"%char "/"%char) with true by reflexivity.
  inversion Hnames as [| ? ? (_ & Hne & Hno) _]; subst.
  rewrite Hjoin. rewrite skip_slashes_name by assumption. reflexivity.
Qed.

Lemma strrchr_spec (s : list byte) (c : byte) :
  match strrchr s c with
  | Some t => exists pre r, s = pre ++ c :: r /\ t = c :: r /\ ~ In c r
  | None => ~ In c s
  end.
Proof.
  induction s as [| x s IH]; cbn [strrchr]; [intros [] |].
  destruct (strrchr s c) as [t |].
  - destruct IH as (pre & r & -> & -> & Hno).
    exists (x :: pre), r. split; [reflexivity | split; [reflexivity | exact Hno]].
  - destruct (Ascii.eqb_spec x c) as [-> | Hne].
    + exists [], s. split; [reflexivity | split; [reflexivity | exact IH]].
    + intros [H | H]; [congruence | exact (IH H)].
Qed.

Lemma c_string_suffix (a b : list byte) : c_string (a ++ b) -> c_string b.
Proof.
  rewrite !c_string_iff. intros H. apply Forall_app in H as [_ H]. exact H.
Qed.

End StoredNames.

(** X16.  The path that [scan_directory] passes to [archive_add_file] is
    relative to the directory given on the command line.  For a file reached
    through directories whose names, with the file's own, are [names] (each
    a non-empty C string without a slash), and as long as no [snprintf] on
    the way cuts the full path, [rel_path] is the names joined by slashes,
    whether or not the directory was given with slashes at its end. *)
Theorem scanned_path_is_relative (base_path n : list byte)
  (names : list (list byte)) :
  Forall d_name_like (n :: names) ->
  strlen base_path + sum_over (fun n => 1 + buffer_size n) (n :: names)
  < MAX_PATH_LEN ->
  rel_path base_path (fold_left full_path_of (n :: names) base_path)
  = Some (join_path (n :: names)).
Proof.
  intros Hnames Hfit.
  rewrite <- (rel_path_descend base_path n names Hnames Hfit).
  cbn [fold_left]. unfold full_path_of at 2 4.
  rewrite (cstr_c_string base_path). reflexivity.
Qed.

Lemma scanned_path_is_relative_witness :
  rel_path (lit "dir//")
           (fold_left full_path_of [lit "a"; lit "b"; lit "f1"] (lit "dir//"))
  = Some (join_path [lit "a"; lit "b"; lit "f1"]).
Proof.
  apply (scanned_path_is_relative (lit "dir//") (lit "a")
           [lit "b"; lit "f1"]).
  - repeat constructor; try discriminate; cbn; intuition discriminate.
  - vm_compute. reflexivity.
Defined.

(** X17.  The name that [create_archive] stores for a single file is the
    last component of the path given: it is a C string without a slash, and
    the path is that name, or a directory part, a slash and that name. *)
Theorem filename_is_last_component (input_path : list byte) :
  c_string (filename input_path) /\
  ~ In "/"%char (filename input_path) /\
  (cstr input_path = filename input_path \/
   exists dir, cstr input_path = dir ++ lit "/" ++ filename input_path).
Proof.
  unfold filename.
  pose proof (strrchr_spec (cstr input_path) "/"%char) as H.
  pose proof (cstr_c_string input_path) as Hc.
  destruct (strrchr (cstr input_path) "/"%char) as [t |].
  - destruct H as (pre & r & Hs & -> & Hno). cbn [skipn].
    split; [| split; [exact Hno |]].
    + rewrite Hs in Hc. apply c_string_suffix in Hc.
      apply (c_string_suffix [ "/"%char ]). exact Hc.
    + right. exists pre. exact Hs.
  - split; [exact Hc | split; [exact H | left; reflexivity]].
Qed.

(** ** What path compression does to the container *)

Section Growth.

Lemma scan_prefixes (inputs : list (list byte * list byte)) :
  prefixes (scan inputs) = [].
Proof. unfold scan. rewrite scan_prefixes_from. reflexivity. Qed.

Lemma binary_format_with_table (inputs : list (list byte * list byte)) :
  let table := prefixes (compress_paths (scan inputs)) in
  binary_format (compress_paths (scan inputs))
  = write_uint16_be (to_uint16 (Z.of_nat (length table))) ++
    concat (map encode_prefix table) ++
    skipn 2 (binary_format (scan inputs)).
Proof.
  cbv zeta. unfold binary_format at 1 2.
  rewrite compress_paths_files, scan_prefixes. reflexivity.
Qed.

Lemma binary_format_grows (inputs : list (list byte * list byte)) :
  buffer_size (binary_format (compress_paths (scan inputs)))
  = buffer_size (binary_format (scan inputs))
    + sum_over (fun p => 2 + strlen (prefix p))
               (prefixes (compress_paths (scan inputs))).
Proof.
  rewrite (buffer_size_binary_format _ (scan_added inputs)).
  rewrite (buffer_size_binary_format (scan inputs)).
  - unfold overhead. rewrite compress_paths_files, scan_prefixes.
    cbn [sum_over fold_right]. lia.
  - pose proof (scan_added inputs) as H.
    rewrite compress_paths_files in H. exact H.
Qed.

End Growth.

(** X18.  Path compression adds bytes and removes none.  [compress_paths]
    builds the prefix table and leaves the paths of the files as they are,
    so the container of a scanned input is the container it would have
    without the analysis, with the table written after the first two bytes:
    it is longer by two bytes and its length for each retained prefix. *)
Theorem path_compression_grows_container
  (inputs : list (list byte * list byte)) :
  binary_format (compress_paths (scan inputs))
  = write_uint16_be
      (to_uint16
         (Z.of_nat (length (prefixes (compress_paths (scan inputs)))))) ++
    concat (map encode_prefix (prefixes (compress_paths (scan inputs)))) ++
    skipn 2 (binary_format (scan inputs)) /\
  buffer_size (binary_format (compress_paths (scan inputs)))
  = buffer_size (binary_format (scan inputs))
    + sum_over (fun p => 2 + strlen (prefix p))
               (prefixes (compress_paths (scan inputs))).
Proof.
  split; [exact (binary_format_with_table inputs) |
          exact (binary_format_grows inputs)].
Qed.

(** X20.  The file table that [create_archive] builds.  For every scanned
    input the table holds one entry for each call of [archive_add_file], in
    the order of the calls; the path of each is a C string of fewer than
    [MAX_PATH_LEN] bytes, the first [MAX_PATH_LEN - 1] of the path passed;
    [size] is the number of content bytes; and no entry is marked as a
    duplicate, with or without path analysis: the encoder's branch for
    duplicate records is never taken for such a table. *)
Theorem scanned_file_table (inputs : list (list byte * list byte)) :
  map path (files (compress_paths (scan inputs))) = stored_paths inputs /\
  map content (files (compress_paths (scan inputs))) = map snd inputs /\
  Forall (fun f => c_string (path f) /\
                   strlen (path f) < MAX_PATH_LEN /\
                   size f = buffer_size (content f) /\
                   is_duplicate f = false)
         (files (compress_paths (scan inputs))).
Proof.
  rewrite compress_paths_files. split; [apply scan_paths |]. split.
  - rewrite scan_files, map_map. reflexivity.
  - apply Forall_forall. intros f Hin. split; [| split].
    + apply (stored_path_short inputs). rewrite <- scan_paths.
      apply in_map. exact Hin.
    + assert (Hp : In (path f) (stored_paths inputs))
        by (rewrite <- scan_paths; apply in_map; exact Hin).
      destruct (stored_path_short inputs _ Hp) as [Hc Hlen].
      rewrite (strlen_c_string _ Hc). exact Hlen.
    + pose proof (scan_added inputs) as H.
      rewrite compress_paths_files, Forall_forall in H.
      destruct (H f Hin) as [Hdup Hsize]. split; assumption.
Qed.

(** ** The write step *)

(** A string of slashes. *)
Definition slashes (s : list byte) : Prop :=
  Forall (fun c => c = "/"%char) s.

Section WriteStep.

Lemma strrchr_none (s : list byte) (c : byte) :
  ~ In c s -> strrchr s c = None.
Proof.
  induction s as [| x s IH]; intros Hno; [reflexivity |].
  cbn [strrchr]. rewrite IH by (intros H; apply Hno; right; exact H).
  destruct (Ascii.eqb_spec x c) as [-> | _]; [| reflexivity].
  exfalso. apply Hno. left. reflexivity.
Qed.

Lemma strrchr_last (pre r : list byte) (c : byte) :
  ~ In c r -> strrchr (pre ++ c :: r) c = Some (c :: r).
Proof.
  intros Hno. induction pre as [| x pre IH].
  - cbn [app strrchr]. rewrite (strrchr_none r c Hno), Ascii.eqb_refl.
    reflexivity.
  - cbn [app strrchr]. rewrite IH. reflexivity.
Qed.

Lemma strtok_tokens_name (n rest token : list byte) :
  ~ In "/"%char n ->
  strtok_tokens (n ++ rest) token = strtok_tokens rest (token ++ n).
Proof.
  revert token. induction n as [| c n IH]; intros token Hno.
  - rewrite app_nil_r. reflexivity.
  - cbn [app strtok_tokens].
    destruct (Ascii.eqb_spec c "/"%char) as [-> | _].
    + exfalso. apply Hno. left. reflexivity.
    + rewrite IH by (intros H; apply Hno; right; exact H).
      rewrite <- app_assoc. reflexivity.
Qed.

Lemma strtok_tokens_join (names : list (list byte)) :
  Forall d_name_like names -> strtok_tokens (join_path names) [] = names.
Proof.
  induction 1 as [| n names (_ & Hne & Hno) Hnames IH]; [reflexivity |].
  destruct names as [| m names].
  - cbn [join_path]. rewrite <- (app_nil_r n) at 1.
    rewrite (strtok_tokens_name n [] [] Hno). cbn [app strtok_tokens].
    destruct n; [congruence | reflexivity].
  - change (join_path (n :: m :: names))
      with (n ++ "/"%char :: join_path (m :: names)).
    rewrite (strtok_tokens_name n _ [] Hno). cbn [app strtok_tokens].
    replace (Ascii.eqb "/"%char "/"%char) with true by reflexivity.
    rewrite IH. destruct n; [congruence | reflexivity].
Qed.

Lemma strtok_overwrites_name (n rest : list byte) (in_token : bool) :
  n <> [] -> ~ In "/"%char n ->
  strtok_overwrites (n ++ rest) in_token = n ++ strtok_overwrites rest true.
Proof.
  intros Hne Hno. revert in_token.
  induction n as [| c n IH]; intros in_token; [congruence |].
  cbn [app strtok_overwrites].
  destruct (Ascii.eqb_spec c "/"%char) as [-> | _].
  - exfalso. apply Hno. left. reflexivity.
  - f_equal. destruct n as [| d n]; [reflexivity |].
    apply IH; [discriminate |]. intros H. apply Hno. right. exact H.
Qed.

Lemma strtok_overwrites_slashes (lead rest : list byte) :
  slashes lead ->
  strtok_overwrites (lead ++ rest) false
  = lead ++ strtok_overwrites rest false.
Proof.
  induction 1 as [| c lead -> Hlead IH]; [reflexivity |].
  cbn [app strtok_overwrites].
  replace (Ascii.eqb "/"%char "/"%char) with true by reflexivity.
  rewrite IH. reflexivity.
Qed.

Lemma cstr_stops (a rest : list byte) :
  c_string a -> cstr (a ++ NUL :: rest) = a.
Proof.
  unfold c_string. induction a as [| x a IH]; intros Ha; [reflexivity |].
  cbn in *. destruct (Ascii.eqb x NUL); [discriminate |].
  injection Ha as Ha. rewrite (IH Ha). reflexivity.
Qed.

Lemma join_path_snoc (names : list (list byte)) (n : list byte) :
  join_path (names ++ [n])
  = concat (map (fun m => m ++ lit "/") names) ++ n.
Proof.
  induction names as [| m names IH]; [reflexivity |].
  destruct names as [| k names].
  - cbn. rewrite app_nil_r, <- app_assoc. reflexivity.
  - change (join_path ((m :: k :: names) ++ [n]))
      with (m ++ lit "/" ++ join_path ((k :: names) ++ [n])).
    rewrite IH. cbn [map concat]. rewrite <- !app_assoc. reflexivity.
Qed.

(** The directories made for tokens that follow the tokens [above]. *)
Lemma mkdir_calls_join (tokens : list (list byte)) :
  forall above : list (list byte),
    mkdir_calls (concat (map (fun m => m ++ lit "/") above)) tokens
    = map (fun k => join_path (above ++ firstn k tokens))
          (seq 1 (length tokens)).
Proof.
  induction tokens as [| t tokens IH]; intros above; [reflexivity |].
  cbn [mkdir_calls length seq map]. cbv zeta. f_equal.
  - cbn [firstn]. symmetry. apply join_path_snoc.
  - replace ((concat (map (fun m => m ++ lit "/") above) ++ t) ++ lit "/")
      with (concat (map (fun m => m ++ lit "/") (above ++ [t])))
      by (rewrite map_app, concat_app; cbn [map concat];
          rewrite app_nil_r, <- app_assoc; reflexivity).
    rewrite IH, <- (seq_shift (length tokens) 1), map_map.
    apply map_ext. intros k.
    cbn [firstn]. rewrite <- app_assoc. reflexivity.
Qed.

Lemma c_string_join (names : list (list byte)) :
  Forall c_string names -> c_string (join_path names).
Proof.
  induction 1 as [| n names Hn Hnames IH]; [reflexivity |].
  destruct names as [| m names]; [exact Hn |].
  change (join_path (n :: m :: names))
    with (n ++ lit "/" ++ join_path (m :: names)).
  apply c_string_app; [exact Hn |].
  apply c_string_app; [apply c_string_slash | exact IH].
Qed.

Lemma buffer_size_join (n : list byte) (names : list (list byte)) :
  buffer_size (join_path (n :: names)) + 1
  = sum_over (fun n => 1 + buffer_size n) (n :: names).
Proof.
  revert n. induction names as [| m names IH]; intros n.
  - cbn [join_path sum_over fold_right]. lia.
  - change (join_path (n :: m :: names))
      with (n ++ lit "/" ++ join_path (m :: names)).
    rewrite !buffer_size_app. change (buffer_size (lit "/")) with 1.
    cbn [sum_over fold_right] in *. specialize (IH m). lia.
Qed.

Lemma firstn_before (p l : list byte) :
  firstn (length (p ++ l) - length l) (p ++ l) = p.
Proof.
  rewrite length_app, Nat.add_sub, firstn_app, Nat.sub_diag, firstn_all.
  cbn [firstn]. apply app_nil_r.
Qed.

Lemma join_path_last (names : list (list byte)) (n : list byte) :
  names <> [] ->
  join_path (names ++ [n]) = join_path names ++ lit "/" ++ n.
Proof.
  induction names as [| m names IH]; [congruence |]. intros _.
  destruct names as [| k names]; [reflexivity |].
  change (join_path ((m :: k :: names) ++ [n]))
    with (m ++ lit "/" ++ join_path ((k :: names) ++ [n])).
  rewrite IH by discriminate.
  change (join_path (m :: k :: names))
    with (m ++ lit "/" ++ join_path (k :: names)).
  rewrite <- !app_assoc. reflexivity.
Qed.

(** The full path of a member below a one-name output directory. *)
Lemma full_path_of_join (out file : list byte) (names : list (list byte)) :
  Forall d_name_like (out :: names ++ [file]) ->
  sum_over (fun n => 1 + buffer_size n) (out :: names ++ [file])
  <= MAX_PATH_LEN ->
  full_path_of out (join_path (names ++ [file]))
  = join_path (out :: names) ++ lit "/" ++ file.
Proof.
  intros Hall Hfit.
  assert (Hcs : Forall c_string (out :: names ++ [file]))
    by (eapply Forall_impl; [| exact Hall]; intros x [H _]; exact H).
  inversion Hcs as [| ? ? Hout Hrest]; subst.
  pose proof (buffer_size_join out (names ++ [file])) as Hsize.
  assert (Hjoin : out ++ lit "/" ++ join_path (names ++ [file])
                  = join_path (out :: names ++ [file])).
  { destruct names; reflexivity. }
  unfold full_path_of. rewrite Hout, (c_string_join _ Hrest), Hjoin.
  rewrite firstn_all2
    by (unfold buffer_size, MAX_PATH_LEN in *; lia).
  change (out :: names ++ [file]) with ((out :: names) ++ [file]).
  apply join_path_last. discriminate.
Qed.

Lemma before_last_slash (h x pre r : list byte) :
  h ++ "/"%char :: x = pre ++ "/"%char :: r ->
  In "/"%char x -> ~ In "/"%char r ->
  exists y, pre = h ++ "/"%char :: y.
Proof.
  revert pre. induction h as [| c h IH]; intros pre Heq Hin Hno.
  - destruct pre as [| p pre]; cbn [app] in Heq.
    + injection Heq as <-. contradiction.
    + injection Heq as <- _. exists pre. reflexivity.
  - destruct pre as [| p pre]; cbn [app] in Heq.
    + injection Heq as _ <-. exfalso. apply Hno. apply in_elt.
    + injection Heq as <- Heq. destruct (IH pre Heq Hin Hno) as [y ->].
      exists y. reflexivity.
Qed.

Lemma c_string_prefix (a b : list byte) : c_string (a ++ b) -> c_string a.
Proof.
  rewrite !c_string_iff. intros H. apply Forall_app in H as [H _]. exact H.
Qed.

End WriteStep.

(** X21.  The write step below an output directory of one name (as the
    default, [extracted]), for a member whose path is names joined by
    slashes, as long as the full path is not cut: [mkdir] is called for the
    output directory and for each directory of the member's path, top-down;
    [fopen] is called with the member's full path when the member lies
    directly in the output directory, and with the output directory itself
    when it lies in a directory below, since [strtok] has overwritten the
    slash after the output directory and only the last slash is put back. *)
Theorem nested_member_opens_output_directory (out file : list byte)
  (names : list (list byte)) :
  Forall d_name_like (out :: names ++ [file]) ->
  sum_over (fun n => 1 + buffer_size n) (out :: names ++ [file])
  <= MAX_PATH_LEN ->
  write_file out (join_path (names ++ [file]))
  = mkFileWrite
      (map (fun k => join_path (firstn k (out :: names)))
           (seq 1 (S (length names))))
      (match names with
       | [] => out ++ lit "/" ++ file
       | _ :: _ => out
       end).
Proof.
  intros Hall Hfit.
  assert (Hdirs : Forall d_name_like (out :: names)).
  { change (out :: names ++ [file]) with ((out :: names) ++ [file]) in Hall.
    apply Forall_app in Hall as [H _]. exact H. }
  assert (Hfile : d_name_like file).
  { change (out :: names ++ [file]) with ((out :: names) ++ [file]) in Hall.
    apply Forall_app in Hall as [_ H]. inversion H; assumption. }
  destruct Hfile as (_ & _ & Hno).
  unfold write_file. cbv zeta.
  rewrite (full_path_of_join out file names Hall Hfit).
  change (lit "/" ++ file) with ("/"%char :: file).
  rewrite (strrchr_last _ file "/"%char Hno).
  rewrite !firstn_before.
  rewrite (strtok_tokens_join _ Hdirs).
  f_equal.
  - exact (mkdir_calls_join (out :: names) []).
  - inversion Hdirs as [| ? ? (Hc & Hne & Hnoo) Hnames]; subst.
    destruct names as [| m names].
    + cbn [join_path]. rewrite <- (app_nil_r out) at 1.
      rewrite (strtok_overwrites_name out [] false Hne Hnoo).
      cbn [strtok_overwrites]. rewrite app_nil_r.
      apply c_string_app; [exact Hc |].
      inversion Hall as [| ? ? _ Hrest]; subst.
      inversion Hrest as [| ? ? (Hcf & _ & _) _]; subst.
      apply (c_string_app (lit "/")); [apply c_string_slash | exact Hcf].
    + change (join_path (out :: m :: names))
        with (out ++ "/"%char :: join_path (m :: names)).
      rewrite (strtok_overwrites_name out _ false Hne Hnoo).
      cbn [strtok_overwrites].
      replace (Ascii.eqb "/"%char "/"%char) with true by reflexivity.
      rewrite <- app_assoc. cbn [app]. apply cstr_stops. exact Hc.
Qed.

Lemma nested_member_opens_output_directory_witness :
  write_file (lit "extracted") (join_path ([lit "a"; lit "b"] ++ [lit "f1"]))
  = mkFileWrite
      (map (fun k => join_path (firstn k [lit "extracted"; lit "a"; lit "b"]))
           (seq 1 3))
      (lit "extracted").
Proof.
  apply (nested_member_opens_output_directory (lit "extracted") (lit "f1")
           [lit "a"; lit "b"]).
  - repeat constructor; try discriminate; cbn; intuition discriminate.
  - vm_compute. discriminate.
Defined.

(** X22.  An output directory in which a slash follows a name (a slash at
    its end, as in [extracted/], or more than one name, as in [out/dir] or
    [/tmp/x]), shorter than [MAX_PATH_LEN - 1]: for every member, whatever
    its path, [fopen] is called with what comes before that slash, the
    leading slashes and the first name of the output directory. *)
Theorem output_directory_with_slash
  (output_directory expanded_path lead tok rest : list byte) :
  slashes lead -> tok <> [] -> ~ In "/"%char tok ->
  cstr output_directory = lead ++ tok ++ lit "/" ++ rest ->
  strlen output_directory < MAX_PATH_LEN - 1 ->
  opened (write_file output_directory expanded_path) = lead ++ tok.
Proof.
  intros Hlead Hne Hno Hout Hshort.
  assert (Hc : c_string (lead ++ tok)).
  { pose proof (cstr_c_string output_directory) as H. rewrite Hout in H.
    rewrite app_assoc in H. apply c_string_prefix in H. exact H. }
  unfold write_file. cbv zeta.
  set (full_path := full_path_of output_directory expanded_path).
  assert (Hfull : exists z,
             full_path = (lead ++ tok) ++ "/"%char :: rest ++ "/"%char :: z).
  { unfold full_path, full_path_of. rewrite firstn_app.
    rewrite firstn_all2
      by (unfold strlen, MAX_PATH_LEN in *; lia).
    set (n := (Z.to_nat (MAX_PATH_LEN - 1)
               - length (cstr output_directory))%nat).
    assert (Hn : (0 < n)%nat)
      by (unfold n, strlen, MAX_PATH_LEN in *; lia).
    destruct n as [| n]; [lia |].
    cbn [lit list_ascii_of_string app firstn].
    exists (firstn n (cstr expanded_path)).
    rewrite Hout, <- !app_assoc. reflexivity. }
  destruct Hfull as [z Hfull].
  pose proof (strrchr_spec full_path "/"%char) as Hspec.
  destruct (strrchr full_path "/"%char) as [last_slash |].
  - destruct Hspec as (pre & r & Hsplit & -> & Hnor).
    cbn [opened]. rewrite Hsplit, firstn_before.
    destruct (before_last_slash (lead ++ tok) (rest ++ "/"%char :: z) pre r)
      as [y ->].
    + rewrite <- Hfull. exact Hsplit.
    + apply in_elt.
    + exact Hnor.
    + rewrite <- app_assoc, (strtok_overwrites_slashes lead _ Hlead).
      rewrite (strtok_overwrites_name tok _ false Hne Hno).
      cbn [strtok_overwrites].
      replace (Ascii.eqb "/"%char "/"%char) with true by reflexivity.
      rewrite app_assoc, <- app_assoc. cbn [app].
      apply cstr_stops. exact Hc.
  - exfalso. apply Hspec. rewrite Hfull. apply in_elt.
Qed.

Lemma output_directory_with_slash_witness :
  opened (write_file (lit "/tmp/x") (lit "f")) = lit "/" ++ lit "tmp".
Proof.
  apply (output_directory_with_slash (lit "/tmp/x") (lit "f")
           (lit "/") (lit "tmp") (lit "x")).
  - repeat constructor.
  - discriminate.
  - cbn; intuition discriminate.
  - reflexivity.
  - vm_compute. reflexivity.
Defined.
